(** * A knowledge-based Minesweeper player: model and properties

    Shallow embedding of [minesweeper.py]: the [Minesweeper] board (only the
    clue computation), the [Sentence] class and the [MinesweeperAI] agent with
    its inference loop [add_knowledge] and its move selection.

    Python integers are unbounded, hence [Z]; a cell is a pair of integers;
    Python sets of cells are finite sets [gset Cell]; the knowledge base is a
    Python list of [Sentence] objects, each owning a private copy of its cell
    set ([Sentence.__init__] copies with [set(cells)]), so a list of records
    with in-place mutation written as explicit state passing is faithful. *)

From Stdlib Require Import ZArith Lia.
From stdpp Require Import base decidable numbers list gmap fin_sets.

Local Open Scope Z_scope.
Set Warnings "-clear-no-such-hyp".

(** ** Cells and grids *)

Definition Cell : Type := (Z * Z)%type.

(** [0 <= i < height and 0 <= j < width] *)
Definition in_bounds (height width : Z) (c : Cell) : bool :=
  (0 <=? c.1) && (c.1 <? height) && (0 <=? c.2) && (c.2 <? width).

(** ** The board: [class Minesweeper] (clue computation only) *)

Module Minesweeper.

(** [board[i][j]] is [True] exactly for the cells of [mines]; the mines are
    placed inside the grid by the constructor. *)
Record t : Type := Build {
  height : Z;
  width : Z;
  mines : gset Cell
}.

Definition board (g : t) (c : Cell) : bool := bool_decide (c ∈ mines g).

Definition is_mine (g : t) (cell : Cell) : bool := board g cell.

(** [range(cell[0] - 1, cell[0] + 2)] crossed with
    [range(cell[1] - 1, cell[1] + 2)], in the order of the two loops. *)
Definition window (cell : Cell) : list Cell :=
  i ← seqZ (cell.1 - 1) 3; j ← seqZ (cell.2 - 1) 3; [(i, j)].

Definition nearby_mines (g : t) (cell : Cell) : Z :=
  foldl (λ count c,
           if bool_decide (c = cell) then count
           else if in_bounds (height g) (width g) c
                then (if board g c then count + 1 else count)
                else count)
        0 (window cell).

End Minesweeper.

(** ** [class Sentence] *)

Record Sentence : Type := MkSentence {
  cells : gset Cell;
  count : Z
}.

(** [__eq__]: equal cell sets and equal counts, which for records over
    extensional sets is equality; [!=] and [in] on lists go through it. *)
Global Instance Sentence_eq_dec : EqDecision Sentence.
Proof. solve_decision. Defined.

(** [len(self.cells)] *)
Definition len (X : gset Cell) : Z := Z.of_nat (size X).

Definition known_mines (s : Sentence) : gset Cell :=
  if bool_decide (len (cells s) = count s) then cells s else ∅.

Definition known_safes (s : Sentence) : gset Cell :=
  if bool_decide (count s = 0) then cells s else ∅.

Module Sentence_.

Definition mark_mine (cell : Cell) (s : Sentence) : Sentence :=
  if bool_decide (cell ∈ cells s)
  then {| cells := cells s ∖ {[cell]}; count := count s - 1 |}
  else s.

Definition mark_safe (cell : Cell) (s : Sentence) : Sentence :=
  if bool_decide (cell ∈ cells s)
  then {| cells := cells s ∖ {[cell]}; count := count s |}
  else s.

End Sentence_.

(** ** [class MinesweeperAI] *)

Record Agent : Type := MkAgent {
  height : Z;
  width : Z;
  moves_made : gset Cell;
  mines : gset Cell;
  safes : gset Cell;
  knowledge : list Sentence
}.

(** [__init__] *)
Definition init (height width : Z) : Agent :=
  {| height := height; width := width;
     moves_made := ∅; mines := ∅; safes := ∅; knowledge := [] |}.

Definition mark_mine (cell : Cell) (st : Agent) : Agent :=
  {| height := height st; width := width st;
     moves_made := moves_made st;
     mines := {[cell]} ∪ mines st;
     safes := safes st;
     knowledge := Sentence_.mark_mine cell <$> knowledge st |}.

Definition mark_safe (cell : Cell) (st : Agent) : Agent :=
  {| height := height st; width := width st;
     moves_made := moves_made st;
     mines := mines st;
     safes := {[cell]} ∪ safes st;
     knowledge := Sentence_.mark_safe cell <$> knowledge st |}.

(** [for mine in list(mines): self.mark_mine(mine)], the list being the
    snapshot taken before the first mutation. *)
Definition mark_mines (l : list Cell) (st : Agent) : Agent :=
  foldl (λ st c, mark_mine c st) st l.

Definition mark_safes (l : list Cell) (st : Agent) : Agent :=
  foldl (λ st c, mark_safe c st) st l.

(** *** [add_knowledge]: the observation *)

Definition offsets : list Z := [-1; 0; 1].

(** "Find all neighbors" *)
Definition neighbors (height width : Z) (cell : Cell) : list Cell :=
  i_offset ← offsets; j_offset ← offsets;
  if bool_decide (i_offset = 0) && bool_decide (j_offset = 0) then []
  else
    let neighbor_i := cell.1 + i_offset in
    let neighbor_j := cell.2 + j_offset in
    if in_bounds height width (neighbor_i, neighbor_j)
    then [(neighbor_i, neighbor_j)] else [].

(** "Filter neighbors and count known mines": the pair
    [(unknown_neighbors, known_mines_count)] after the loop. *)
Definition filter_neighbors (st : Agent) (nbrs : list Cell) : list Cell * Z :=
  foldl (λ '(unknown_neighbors, known_mines_count) neighbor,
           if bool_decide (neighbor ∈ moves_made st)
              || bool_decide (neighbor ∈ safes st)
           then (unknown_neighbors, known_mines_count)
           else if bool_decide (neighbor ∈ mines st)
                then (unknown_neighbors, known_mines_count + 1)
                else (unknown_neighbors ++ [neighbor], known_mines_count))
        ([], 0) nbrs.

Definition add_sentence (s : Sentence) (st : Agent) : Agent :=
  {| height := height st; width := width st;
     moves_made := moves_made st; mines := mines st; safes := safes st;
     knowledge := knowledge st ++ [s] |}.

(** Lines 166-196: everything before the [while] loop. *)
Definition observe (cell : Cell) (clue : Z) (st : Agent) : Agent :=
  let st1 :=
    mark_safe cell
      {| height := height st; width := width st;
         moves_made := {[cell]} ∪ moves_made st;
         mines := mines st; safes := safes st;
         knowledge := knowledge st |} in
  let nbrs := neighbors (height st1) (width st1) cell in
  let '(unknown_neighbors, known_mines_count) := filter_neighbors st1 nbrs in
  match unknown_neighbors with
  | [] => st1
  | _ :: _ =>
      add_sentence
        {| cells := list_to_set unknown_neighbors;
           count := clue - known_mines_count |} st1
  end.

(** *** [add_knowledge]: the simplification pass *)

(** One iteration of [for sentence in self.knowledge] at position [i]. The
    sentence is an object of the list and is mutated by the marking that its
    own facts trigger, so it is read again before [known_safes] is asked. *)
Definition simplify_at (i : nat) (acc : Agent * bool) : Agent * bool :=
  let '(st, changed) := acc in
  match knowledge st !! i with
  | None => acc
  | Some sentence =>
      let mines := known_mines sentence in
      let '(st1, changed1) :=
        if bool_decide (mines ≠ ∅)
        then (mark_mines (elements mines) st, true)
        else (st, changed) in
      match knowledge st1 !! i with
      | None => (st1, changed1)
      | Some sentence' =>
          let safes := known_safes sentence' in
          if bool_decide (safes ≠ ∅)
          then (mark_safes (elements safes) st1, true)
          else (st1, changed1)
      end
  end.

Definition simplification_pass (st : Agent) : Agent * bool :=
  foldl (λ acc i, simplify_at i acc) (st, false)
        (seq 0 (length (knowledge st))).

(** *** [add_knowledge]: the resolution pass *)

(** The body of the two nested loops for one ordered pair: the sentences it
    appends to [new_sentences] (none or one). *)
Definition resolve_pair (kb : list Sentence) (sentence1 sentence2 : Sentence)
  : list Sentence :=
  if bool_decide (cells sentence1 ⊆ cells sentence2)
     && bool_decide (sentence1 ≠ sentence2)
     && bool_decide (len (cells sentence1) > 0)
     && bool_decide (len (cells sentence2) > 0)
  then
    let new_cells := cells sentence2 ∖ cells sentence1 in
    let new_count := count sentence2 - count sentence1 in
    if bool_decide (new_cells ≠ ∅)
    then
      let new_sentence := {| cells := new_cells; count := new_count |} in
      if bool_decide (new_sentence ∉ kb) then [new_sentence] else []
    else []
  else [].

Definition new_sentences (kb : list Sentence) : list Sentence :=
  sentence1 ← kb; sentence2 ← kb; resolve_pair kb sentence1 sentence2.

(** *** [add_knowledge]: the loop *)

Definition set_knowledge (kb : list Sentence) (st : Agent) : Agent :=
  {| height := height st; width := width st;
     moves_made := moves_made st; mines := mines st; safes := safes st;
     knowledge := kb |}.

(** One iteration of the body of [while changed], with the flag it leaves. *)
Definition inference_pass (st : Agent) : Agent * bool :=
  let '(st1, changed) := simplification_pass st in
  match new_sentences (knowledge st1) with
  | [] => (st1, changed)
  | new => (set_knowledge (knowledge st1 ++ new) st1, true)
  end.

(** [changed = True; while changed: ...]: [None] when the fuel runs out
    before a pass leaves the flag unset. *)
Fixpoint inference_loop (fuel : nat) (st : Agent) : option Agent :=
  match fuel with
  | O => None
  | S fuel' =>
      let '(st', changed) := inference_pass st in
      if changed then inference_loop fuel' st' else Some st'
  end.

Definition add_knowledge (fuel : nat) (cell : Cell) (clue : Z) (st : Agent)
  : option Agent :=
  inference_loop fuel (observe cell clue st).

(** *** [add_knowledge] with the errors of Python

    The definitions above are total functions. The one operation that
    [add_knowledge] and the methods it calls use and that can raise for a
    cell that is a pair of integers and a clue that is an integer is
    [set.remove], a [KeyError] when the element is not in the set. Here the
    same code is written once more with that error as a possible outcome,
    handed on through every loop as Python hands on an exception. Memory is
    taken to be unbounded, as the integers are. *)

Module Checked.

Inductive exn : Type := KeyError.

Inductive outcome (A : Type) : Type :=
| Returns (a : A)
| Raises (e : exn)
| Starves.
Arguments Returns {A} a.
Arguments Raises {A} e.
Arguments Starves {A}.

Definition bind {A B} (m : outcome A) (f : A → outcome B) : outcome B :=
  match m with
  | Returns a => f a
  | Raises e => Raises e
  | Starves => Starves
  end.

(** [X.remove(c)] *)
Definition remove (c : Cell) (X : gset Cell) : outcome (gset Cell) :=
  if bool_decide (c ∈ X) then Returns (X ∖ {[c]}) else Raises KeyError.

(** [Sentence.mark_mine] *)
Definition sentence_mark_mine (cell : Cell) (s : Sentence) : outcome Sentence :=
  if bool_decide (cell ∈ cells s)
  then bind (remove cell (cells s))
            (λ X, Returns {| cells := X; count := count s - 1 |})
  else Returns s.

(** [Sentence.mark_safe] *)
Definition sentence_mark_safe (cell : Cell) (s : Sentence) : outcome Sentence :=
  if bool_decide (cell ∈ cells s)
  then bind (remove cell (cells s))
            (λ X, Returns {| cells := X; count := count s |})
  else Returns s.

(** [for sentence in self.knowledge: f(sentence)] *)
Fixpoint for_each (f : Sentence → outcome Sentence) (kb : list Sentence)
  : outcome (list Sentence) :=
  match kb with
  | [] => Returns []
  | s :: kb' =>
      bind (f s) (λ s', bind (for_each f kb') (λ kb'', Returns (s' :: kb'')))
  end.

Definition mark_mine (cell : Cell) (st : Agent) : outcome Agent :=
  bind (for_each (sentence_mark_mine cell) (knowledge st))
       (λ kb, Returns {| height := height st; width := width st;
                         moves_made := moves_made st;
                         mines := {[cell]} ∪ mines st;
                         safes := safes st;
                         knowledge := kb |}).

Definition mark_safe (cell : Cell) (st : Agent) : outcome Agent :=
  bind (for_each (sentence_mark_safe cell) (knowledge st))
       (λ kb, Returns {| height := height st; width := width st;
                         moves_made := moves_made st;
                         mines := mines st;
                         safes := {[cell]} ∪ safes st;
                         knowledge := kb |}).

Definition mark_mines (l : list Cell) (st : Agent) : outcome Agent :=
  foldl (λ acc c, bind acc (mark_mine c)) (Returns st) l.

Definition mark_safes (l : list Cell) (st : Agent) : outcome Agent :=
  foldl (λ acc c, bind acc (mark_safe c)) (Returns st) l.

Definition observe (cell : Cell) (clue : Z) (st : Agent) : outcome Agent :=
  bind (mark_safe cell
          {| height := height st; width := width st;
             moves_made := {[cell]} ∪ moves_made st;
             mines := mines st; safes := safes st;
             knowledge := knowledge st |})
       (λ st1,
          let nbrs := neighbors (height st1) (width st1) cell in
          let '(unknown_neighbors, known_mines_count) :=
            filter_neighbors st1 nbrs in
          match unknown_neighbors with
          | [] => Returns st1
          | _ :: _ =>
              Returns
                (add_sentence
                   {| cells := list_to_set unknown_neighbors;
                      count := clue - known_mines_count |} st1)
          end).

Definition simplify_at (i : nat) (acc : Agent * bool) : outcome (Agent * bool) :=
  let '(st, changed) := acc in
  match knowledge st !! i with
  | None => Returns acc
  | Some sentence =>
      let mines := known_mines sentence in
      bind (if bool_decide (mines ≠ ∅)
            then bind (mark_mines (elements mines) st)
                      (λ st1, Returns (st1, true))
            else Returns (st, changed))
           (λ '(st1, changed1),
              match knowledge st1 !! i with
              | None => Returns (st1, changed1)
              | Some sentence' =>
                  let safes := known_safes sentence' in
                  if bool_decide (safes ≠ ∅)
                  then bind (mark_safes (elements safes) st1)
                            (λ st2, Returns (st2, true))
                  else Returns (st1, changed1)
              end)
  end.

Definition simplification_pass (st : Agent) : outcome (Agent * bool) :=
  foldl (λ acc i, bind acc (simplify_at i)) (Returns (st, false))
        (seq 0 (length (knowledge st))).

Definition inference_pass (st : Agent) : outcome (Agent * bool) :=
  bind (simplification_pass st)
       (λ '(st1, changed),
          match new_sentences (knowledge st1) with
          | [] => Returns (st1, changed)
          | new => Returns (set_knowledge (knowledge st1 ++ new) st1, true)
          end).

(** [Starves]: the fuel runs out before a pass leaves the flag unset. *)
Fixpoint inference_loop (fuel : nat) (st : Agent) : outcome Agent :=
  match fuel with
  | O => Starves
  | S fuel' =>
      bind (inference_pass st)
           (λ '(st', changed),
              if changed then inference_loop fuel' st' else Returns st')
  end.

Definition add_knowledge (fuel : nat) (cell : Cell) (clue : Z) (st : Agent)
  : outcome Agent :=
  bind (observe cell clue st) (inference_loop fuel).

End Checked.

(** *** Move selection *)

(** [valid_moves] of [make_random_move], in the order of the two loops. *)
Definition valid_moves (st : Agent) : list Cell :=
  i ← seqZ 0 (height st); j ← seqZ 0 (width st);
  let cell := (i, j) in
  if bool_decide (cell ∉ moves_made st) && bool_decide (cell ∉ mines st)
  then [cell] else [].

(** [random.choice(seq)] is [seq[k]] for an index [k] below [len(seq)] drawn
    from the generator; [rnd] stands for the generator's draw. *)
Definition choice {A} (rnd : nat) (l : list A) : option A :=
  l !! (rnd `mod` length l)%nat.

Definition make_random_move (rnd : nat) (st : Agent) : option Cell :=
  match valid_moves st with
  | [] => None
  | l => choice rnd l
  end.

(** ** [class Minesweeper] with the board as the list of rows it builds

    The constructor, [is_mine], [nearby_mines] and [won] as the source has
    them, on the nested list [self.board]. Three things of Python that the
    code relies on are made explicit: the indexing [l[i]] and the assignment
    [l[i] = x], which count a negative index from the end and raise
    [IndexError] out of range; [random.randrange(n)], which raises
    [ValueError] for [n <= 0] and is [draw mod n] for the generator's draw
    otherwise; and the run of the [while] loop, which asks for one pair of
    draws per iteration and [Starves] when the draws supplied run out. *)

Module Board.

Inductive exn : Type := ValueError | IndexError.

Inductive outcome (A : Type) : Type :=
| Returns (a : A)
| Raises (e : exn)
| Starves.
Arguments Returns {A} a.
Arguments Raises {A} e.
Arguments Starves {A}.

(** [l[i]] *)
Definition index {A} (l : list A) (i : Z) : option A :=
  if bool_decide (0 <= i) then l !! Z.to_nat i
  else if bool_decide (- Z.of_nat (length l) <= i)
       then l !! Z.to_nat (Z.of_nat (length l) + i)
       else None.

(** [l[i] = x] *)
Definition assign {A} (l : list A) (i : Z) (x : A) : option (list A) :=
  if bool_decide (0 <= i < Z.of_nat (length l))
  then Some (<[Z.to_nat i := x]> l)
  else if bool_decide (- Z.of_nat (length l) <= i < 0)
       then Some (<[Z.to_nat (Z.of_nat (length l) + i) := x]> l)
       else None.

(** [random.randrange(n)] *)
Definition randrange (n : Z) (draw : nat) : option Z :=
  if bool_decide (0 < n) then Some (Z.of_nat draw `mod` n) else None.

Record t : Type := Build {
  height : Z;
  width : Z;
  board : list (list bool);
  mines : gset Cell;
  mines_found : gset Cell
}.

(** "Initialize an empty field with no mines" *)
Definition blank (height width : Z) : list (list bool) :=
  foldl (λ board _,
           board ++ [foldl (λ row _, row ++ [false]) [] (seqZ 0 width)])
        [] (seqZ 0 height).

(** "Add mines randomly": the [while] loop, one pair of draws per
    iteration. *)
Fixpoint place (height width target : Z) (draws : list (nat * nat))
    (board : list (list bool)) (mines : gset Cell)
  : outcome (list (list bool) * gset Cell) :=
  if bool_decide (len mines ≠ target) then
    match draws with
    | [] => Starves
    | (draw_i, draw_j) :: draws' =>
        match randrange height draw_i with
        | None => Raises ValueError
        | Some i =>
            match randrange width draw_j with
            | None => Raises ValueError
            | Some j =>
                match index board i with
                | None => Raises IndexError
                | Some row =>
                    match index row j with
                    | None => Raises IndexError
                    | Some true => place height width target draws' board mines
                    | Some false =>
                        match assign row j true with
                        | None => Raises IndexError
                        | Some row' =>
                            match assign board i row' with
                            | None => Raises IndexError
                            | Some board' =>
                                place height width target draws' board'
                                      ({[(i, j)]} ∪ mines)
                            end
                        end
                    end
                end
            end
        end
    end
  else Returns (board, mines).

(** [__init__] *)
Definition new (height width mines : Z) (draws : list (nat * nat)) : outcome t :=
  match place height width mines draws (blank height width) ∅ with
  | Returns (board, placed) =>
      Returns {| height := height; width := width; board := board;
                 mines := placed; mines_found := ∅ |}
  | Raises e => Raises e
  | Starves => Starves
  end.

Definition is_mine (g : t) (cell : Cell) : outcome bool :=
  match index (board g) cell.1 with
  | None => Raises IndexError
  | Some row =>
      match index row cell.2 with
      | None => Raises IndexError
      | Some mine => Returns mine
      end
  end.

Definition nearby_mines (g : t) (cell : Cell) : outcome Z :=
  foldl (λ acc c,
           match acc with
           | Returns count =>
               if bool_decide (c = cell) then Returns count
               else if in_bounds (height g) (width g) c
                    then match is_mine g c with
                         | Returns true => Returns (count + 1)
                         | Returns false => Returns count
                         | Raises e => Raises e
                         | Starves => Starves
                         end
                    else Returns count
           | _ => acc
           end)
        (Returns 0) (Minesweeper.window cell).

Definition won (g : t) : bool := bool_decide (mines_found g = mines g).

(** The game as the board of the sections above has it: the grid and the
    set of mines. *)
Definition to_game (g : t) : Minesweeper.t :=
  {| Minesweeper.height := height g; Minesweeper.width := width g;
     Minesweeper.mines := mines g |}.

End Board.

(** [make_safe_move]: the first cell that the iteration over [self.safes]
    yields and that is not in [moves_made]. Python leaves the order in which
    a set is iterated open; [order] is the order of that iteration. *)
Definition make_safe_move (order : list Cell) (st : Agent) : option Cell :=
  head (filter (λ cell, cell ∉ moves_made st) order).

(** * Vocabulary of the properties

    Nothing below is code of the program: these are the notions in which the
    properties are stated and proved. *)

(** ** Growth, truth on a board, play *)

(** The three sets of [st'] include those of [st]. *)
Definition grows (st st' : Agent) : Prop :=
  moves_made st ⊆ moves_made st'
  ∧ mines st ⊆ mines st'
  ∧ safes st ⊆ safes st'.

(** A sentence holds on a board with mine set [M] when its count is the number
    of mines among its cells. *)
Definition holds (M : gset Cell) (s : Sentence) : Prop :=
  count s = len (cells s ∩ M).

(** The agent's beliefs are true of the board [g]: same grid, every known
    mine is a mine, no safe or opened cell is, every sentence holds. *)
Record Sound (g : Minesweeper.t) (st : Agent) : Prop := MkSound {
  sound_height : height st = Minesweeper.height g;
  sound_width : width st = Minesweeper.width g;
  sound_mines : mines st ⊆ Minesweeper.mines g;
  sound_safes : safes st ## Minesweeper.mines g;
  sound_moves : moves_made st ## Minesweeper.mines g;
  sound_knowledge : Forall (holds (Minesweeper.mines g)) (knowledge st)
}.

(** One call of [add_knowledge] with a consistent clue: the cell is on the
    grid, it is not a mine (it was opened and the game goes on), the clue is
    the board's count for it, and the call returns. *)
Inductive observes (g : Minesweeper.t) (st st' : Agent) : Prop :=
| observes_intro (cell : Cell) (fuel : nat) :
    in_bounds (Minesweeper.height g) (Minesweeper.width g) cell = true →
    Minesweeper.is_mine g cell = false →
    add_knowledge fuel cell (Minesweeper.nearby_mines g cell) st = Some st' →
    observes g st st'.

(** The states between the calls of a game on [g]. *)
Definition reachable (g : Minesweeper.t) (st : Agent) : Prop :=
  rtc (observes g) (init (Minesweeper.height g) (Minesweeper.width g)) st.

(** [order] is an order in which the set [X] can be iterated: every element
    once. *)
Definition iterates (X : gset Cell) (order : list Cell) : Prop :=
  order ≡ₚ elements X.

(** The states the engine goes through, mutation by mutation: the observation
    with its new sentence, every prefix of a marking loop over the facts of a
    sentence, in whatever order the loop iterates them, and the appending of
    the resolved sentences. *)
Inductive engine_state (g : Minesweeper.t) : Agent → Prop :=
| engine_init :
    engine_state g (init (Minesweeper.height g) (Minesweeper.width g))
| engine_observe (st : Agent) (cell : Cell) :
    engine_state g st →
    in_bounds (Minesweeper.height g) (Minesweeper.width g) cell = true →
    Minesweeper.is_mine g cell = false →
    engine_state g (observe cell (Minesweeper.nearby_mines g cell) st)
| engine_mark_mines (st : Agent) (s : Sentence) (order : list Cell) (k : nat) :
    engine_state g st → s ∈ knowledge st →
    iterates (known_mines s) order →
    engine_state g (mark_mines (take k order) st)
| engine_mark_safes (st : Agent) (s : Sentence) (order : list Cell) (k : nat) :
    engine_state g st → s ∈ knowledge st →
    iterates (known_safes s) order →
    engine_state g (mark_safes (take k order) st)
| engine_resolve (st : Agent) :
    engine_state g st →
    engine_state g
      (set_knowledge (knowledge st ++ new_sentences (knowledge st)) st).

(** ** Measures for the termination of the loop *)

(** The cells that still occur in some sentence. *)
Definition support (st : Agent) : gset Cell := ⋃ (cells <$> knowledge st).

(** All subsets of the set of the cells of a list. *)
Fixpoint subsets (l : list Cell) : list (gset Cell) :=
  match l with
  | [] => [∅]
  | c :: l => subsets l ++ ((λ X, {[c]} ∪ X) <$> subsets l)
  end.

(** The cell sets over [U] that no sentence of the knowledge base has. *)
Definition unseen (U : gset Cell) (st : Agent) : gset (gset Cell) :=
  list_to_set (subsets (elements U)) ∖ list_to_set (cells <$> knowledge st).

(** ** Calls of the public interface *)

(** A call of one of the three mutating methods of the agent. *)
Inductive call : Type :=
| RecordObservation (cell : Cell) (clue : Z)
| MarkMine (cell : Cell)
| MarkSafe (cell : Cell).

(** [None]: the call does not return within [fuel] passes of its loop. *)
Definition do_call (fuel : nat) (c : call) (st : Agent) : option Agent :=
  match c with
  | RecordObservation cell clue => add_knowledge fuel cell clue st
  | MarkMine cell => Some (mark_mine cell st)
  | MarkSafe cell => Some (mark_safe cell st)
  end.

(** A sequence of calls, each with the same allowance of passes. *)
Fixpoint do_calls (fuel : nat) (cs : list call) (st : Agent) : option Agent :=
  match cs with
  | [] => Some st
  | c :: cs =>
      match do_call fuel c st with
      | Some st' => do_calls fuel cs st'
      | None => None
      end
  end.

(** A call that is true of the board [g]: an observation of a cell of the
    grid that is not a mine, with the board's clue for it; [mark_mine] for a
    cell that is a mine; [mark_safe] for a cell that is not. *)
Inductive true_of (g : Minesweeper.t) : call → Prop :=
| true_observation (cell : Cell) :
    in_bounds (Minesweeper.height g) (Minesweeper.width g) cell = true →
    Minesweeper.is_mine g cell = false →
    true_of g (RecordObservation cell (Minesweeper.nearby_mines g cell))
| true_mine (cell : Cell) :
    Minesweeper.is_mine g cell = true → true_of g (MarkMine cell)
| true_safe (cell : Cell) :
    Minesweeper.is_mine g cell = false → true_of g (MarkSafe cell).

(** One call that is true of [g] and returns. *)
Inductive plays (g : Minesweeper.t) (st st' : Agent) : Prop :=
| plays_intro (fuel : nat) (c : call) :
    true_of g c → do_call fuel c st = Some st' → plays g st st'.

(** The states between the calls of a game on [g] in which the three
    methods are called, each call true of [g]. *)
Definition played (g : Minesweeper.t) (st : Agent) : Prop :=
  rtc (plays g) (init (Minesweeper.height g) (Minesweeper.width g)) st.

(** ** Examples *)

(** A 2 by 2 board with one mine in the corner [(1, 1)]. *)
Definition corner_board : Minesweeper.t :=
  {| Minesweeper.height := 2; Minesweeper.width := 2;
     Minesweeper.mines := {[ (1, 1) ]} |}.

(** The agent on that board after [(0, 0)] was opened, ... *)
Definition corner_one : Agent :=
  {| height := 2; width := 2;
     moves_made := {[(0, 0)]}; mines := ∅; safes := {[(0, 0)]};
     knowledge := [ {| cells := {[(0, 1); (1, 0); (1, 1)]}; count := 1 |} ] |}.

(** ... after [(0, 1)] was opened as well, ... *)
Definition corner_two : Agent :=
  {| height := 2; width := 2;
     moves_made := {[(0, 1); (0, 0)]}; mines := ∅;
     safes := {[(0, 1); (0, 0)]};
     knowledge := [ {| cells := {[(1, 0); (1, 1)]}; count := 1 |};
                    {| cells := {[(1, 0); (1, 1)]}; count := 1 |} ] |}.

(** ... and after [(1, 0)] was opened: the mine is found. *)
Definition corner_three : Agent :=
  {| height := 2; width := 2;
     moves_made := {[(1, 0); (0, 1); (0, 0)]}; mines := {[(1, 1)]};
     safes := {[(1, 0); (0, 1); (0, 0)]};
     knowledge := [ {| cells := ∅; count := 0 |};
                    {| cells := ∅; count := 0 |};
                    {| cells := ∅; count := 0 |} ] |}.

(** A 4 by 4 board without mines, and the agent on it after the corner
    [(0, 0)] was opened. *)
Definition open_board : Minesweeper.t :=
  {| Minesweeper.height := 4; Minesweeper.width := 4;
     Minesweeper.mines := ∅ |}.

Definition open_one : Agent :=
  {| height := 4; width := 4;
     moves_made := {[(0, 0)]}; mines := ∅;
     safes := {[(0, 0); (0, 1); (1, 0); (1, 1)]};
     knowledge := [ {| cells := ∅; count := 0 |} ] |}.

(** The game of 2 rows and 3 columns that the constructor builds for 2
    mines from the draws [(0, 0)] and [(3, 4)]. *)
Definition two_mines : Board.t :=
  {| Board.height := 2; Board.width := 3;
     Board.board := [[true; false; false]; [false; true; false]];
     Board.mines := {[(0, 0); (1, 1)]};
     Board.mines_found := ∅ |}.

(** ** Contradictory knowledge

    Two sentences over the same two cells [a], [b] with the counts 10 and 20,
    and sentences over [a] alone or [b] alone whose counts are odd multiples
    of 5. *)

Definition odd5 (k : Z) : Prop := ∃ q, k = 10 * q + 5.

(** The shape of the sentences of such a knowledge base. *)
Definition clash (a b : Cell) (s : Sentence) : Prop :=
  (cells s = {[a; b]} ∧ (count s = 10 ∨ count s = 20))
  ∨ ((cells s = {[a]} ∨ cells s = {[b]}) ∧ odd5 (count s)).

(** Such a knowledge base: both sentences over the pair, and one over [b]. *)
Definition clashing (a b : Cell) (kb : list Sentence) : Prop :=
  Forall (clash a b) kb
  ∧ {| cells := {[a; b]}; count := 10 |} ∈ kb
  ∧ {| cells := {[a; b]}; count := 20 |} ∈ kb
  ∧ ∃ v, {| cells := {[b]}; count := v |} ∈ kb.

(** ** Sentences that stay, sentences without cells *)

(** Every sentence of [kb] is still at its place in [kb'], with the same or
    fewer cells, and unchanged when it had no cells left. *)
Definition persists (kb kb' : list Sentence) : Prop :=
  ∀ i s, kb !! i = Some s →
    ∃ s', kb' !! i = Some s' ∧ cells s' ⊆ cells s ∧ (cells s = ∅ → s' = s).

(** The knowledge base without its sentences that have no cells left. *)
Definition prune (kb : list Sentence) : list Sentence :=
  filter (λ s, cells s ≠ ∅) kb.

(** Two agents that differ at most in sentences without cells. *)
Definition alike (st st' : Agent) : Prop :=
  height st = height st' ∧ width st = width st'
  ∧ moves_made st = moves_made st' ∧ mines st = mines st'
  ∧ safes st = safes st'
  ∧ prune (knowledge st) = prune (knowledge st').

(** The marks of a simplification pass, in the order in which they are made. *)
Inductive mark : Type :=
| MarkedMine (c : Cell)
| MarkedSafe (c : Cell).

(** What a sentence becomes under the marks of [log], oldest first. *)
Definition replay_sentence (log : list mark) (s : Sentence) : Sentence :=
  foldl (λ s m, match m with
                | MarkedMine c => Sentence_.mark_mine c s
                | MarkedSafe c => Sentence_.mark_safe c s
                end) s log.

(** What the agent becomes under the marks of [log], oldest first. *)
Definition replay (log : list mark) (st : Agent) : Agent :=
  foldl (λ st m, match m with
                 | MarkedMine c => mark_mine c st
                 | MarkedSafe c => mark_safe c st
                 end) st log.

(** The simplification loop over the sentences [kb] still to visit: [log]
    holds the marks made so far in the pass, which the sentences about to be
    visited have undergone as well. *)
Fixpoint simplify_from (log : list mark) (changed : bool) (kb : list Sentence)
  : list mark * bool :=
  match kb with
  | [] => (log, changed)
  | s :: kb' =>
      let s1 := replay_sentence log s in
      let mines := known_mines s1 in
      let changed1 := if bool_decide (mines ≠ ∅) then true else changed in
      let s2 := replay_sentence (MarkedMine <$> elements mines) s1 in
      let safes := known_safes s2 in
      let changed2 := if bool_decide (safes ≠ ∅) then true else changed1 in
      simplify_from
        (log ++ (MarkedMine <$> elements mines) ++ (MarkedSafe <$> elements safes))
        changed2 kb'
  end.

(** ** Sentences clear of resolved cells *)

(** No cell of a sentence is opened, a known mine or known safe, and every
    cell of a sentence is on the grid. *)
Definition tidy (st : Agent) : Prop :=
  ∀ c, c ∈ support st →
    (c ∉ moves_made st) ∧ (c ∉ mines st) ∧ (c ∉ safes st)
    ∧ in_bounds (height st) (width st) c = true.

(** The opened cells, the known mines and the known safe cells are on the
    grid. *)
Definition on_grid (st : Agent) : Prop :=
  ∀ c, c ∈ moves_made st ∪ mines st ∪ safes st →
    in_bounds (height st) (width st) c = true.

(** Between [st] and [st'] the three sets grew, every sentence kept its
    place, and every cell that a sentence lost is a known mine or a known
    safe cell of [st']. *)
Definition accounted (st st' : Agent) : Prop :=
  grows st st'
  ∧ ∀ i s, knowledge st !! i = Some s →
      ∃ s', knowledge st' !! i = Some s'
            ∧ cells s ⊆ cells s' ∪ mines st' ∪ safes st'.

(** ** Boards of rows *)

(** The rows [board] are [height] rows of [width] cells, a cell is [true]
    exactly when it is in [placed], and [placed] is on the grid. *)
Definition rows_of (height width : Z) (board : list (list bool))
    (placed : gset Cell) : Prop :=
  length board = Z.to_nat height
  ∧ (∀ i row, board !! i = Some row → length row = Z.to_nat width)
  ∧ (∀ i j row x, board !! i = Some row → row !! j = Some x →
       x = bool_decide ((Z.of_nat i, Z.of_nat j) ∈ placed))
  ∧ (∀ c, c ∈ placed → in_bounds height width c = true).

(** The cells of the grid, row by row. *)
Definition grid_cells (height width : Z) : list Cell :=
  i ← seqZ 0 height; j ← seqZ 0 width; [(i, j)].

(** * Properties *)

(** ** Sentences *)

Lemma len_nonneg (X : gset Cell) : 0 <= len X.
Proof. unfold len. lia. Qed.

Lemma len_pos_iff (X : gset Cell) : len X > 0 ↔ X ≠ ∅.
Proof.
  unfold len. rewrite <- (leibniz_equiv_iff X ∅), <- size_non_empty_iff. lia.
Qed.

Lemma len_empty_iff (X : gset Cell) : len X = 0 ↔ X = ∅.
Proof.
  unfold len. rewrite <- (leibniz_equiv_iff X ∅), <- size_empty_iff. lia.
Qed.

Lemma known_mines_subseteq (s : Sentence) : known_mines s ⊆ cells s.
Proof. unfold known_mines. case_bool_decide; set_solver. Qed.

Lemma known_safes_subseteq (s : Sentence) : known_safes s ⊆ cells s.
Proof. unfold known_safes. case_bool_decide; set_solver. Qed.

Lemma known_mines_empty_cells (s : Sentence) : cells s = ∅ → known_mines s = ∅.
Proof. intros E. pose proof (known_mines_subseteq s). set_solver. Qed.

Lemma known_safes_empty_cells (s : Sentence) : cells s = ∅ → known_safes s = ∅.
Proof. intros E. pose proof (known_safes_subseteq s). set_solver. Qed.

Lemma known_mines_nonempty (s : Sentence) :
  known_mines s ≠ ∅ → known_mines s = cells s ∧ len (cells s) = count s.
Proof. unfold known_mines. case_bool_decide; [done | congruence]. Qed.

Lemma known_safes_nonempty (s : Sentence) :
  known_safes s ≠ ∅ → known_safes s = cells s ∧ count s = 0.
Proof. unfold known_safes. case_bool_decide; [done | congruence]. Qed.

Lemma cells_mark_mine (c : Cell) (s : Sentence) :
  cells (Sentence_.mark_mine c s) = cells s ∖ {[c]}.
Proof. unfold Sentence_.mark_mine. case_bool_decide; simpl; set_solver. Qed.

Lemma cells_mark_safe (c : Cell) (s : Sentence) :
  cells (Sentence_.mark_safe c s) = cells s ∖ {[c]}.
Proof. unfold Sentence_.mark_safe. case_bool_decide; simpl; set_solver. Qed.

Lemma mark_mine_absent (c : Cell) (s : Sentence) :
  c ∉ cells s → Sentence_.mark_mine c s = s.
Proof. intros. unfold Sentence_.mark_mine. by rewrite bool_decide_eq_false_2. Qed.

Lemma mark_safe_absent (c : Cell) (s : Sentence) :
  c ∉ cells s → Sentence_.mark_safe c s = s.
Proof. intros. unfold Sentence_.mark_safe. by rewrite bool_decide_eq_false_2. Qed.

(** ** The agent's fields under marking *)

Lemma mark_mines_fields (l : list Cell) (st : Agent) :
  height (mark_mines l st) = height st
  ∧ width (mark_mines l st) = width st
  ∧ moves_made (mark_mines l st) = moves_made st
  ∧ mines (mark_mines l st) = list_to_set l ∪ mines st
  ∧ safes (mark_mines l st) = safes st
  ∧ length (knowledge (mark_mines l st)) = length (knowledge st).
Proof.
  revert st. induction l as [|c l IH]; intros st; simpl.
  - repeat split; set_solver.
  - destruct (IH (mark_mine c st)) as (-> & -> & -> & -> & -> & ->).
    simpl. rewrite length_fmap. repeat split; set_solver.
Qed.

Lemma mark_safes_fields (l : list Cell) (st : Agent) :
  height (mark_safes l st) = height st
  ∧ width (mark_safes l st) = width st
  ∧ moves_made (mark_safes l st) = moves_made st
  ∧ mines (mark_safes l st) = mines st
  ∧ safes (mark_safes l st) = list_to_set l ∪ safes st
  ∧ length (knowledge (mark_safes l st)) = length (knowledge st).
Proof.
  revert st. induction l as [|c l IH]; intros st; simpl.
  - repeat split; set_solver.
  - destruct (IH (mark_safe c st)) as (-> & -> & -> & -> & -> & ->).
    simpl. rewrite length_fmap. repeat split; set_solver.
Qed.

(** The order in which [list(mines)] and [list(safes)] enumerate a set is
    left open by Python; the marking loops do not depend on it. *)
Lemma sentence_mark_mine_comm (c c' : Cell) (s : Sentence) :
  Sentence_.mark_mine c (Sentence_.mark_mine c' s)
  = Sentence_.mark_mine c' (Sentence_.mark_mine c s).
Proof.
  destruct (decide (c = c')) as [->|Hne]; [done|].
  unfold Sentence_.mark_mine.
  destruct (bool_decide (c' ∈ cells s)) eqn:E';
    destruct (bool_decide (c ∈ cells s)) eqn:E;
    simpl; rewrite ?E, ?E'; try done.
  - apply bool_decide_eq_true in E, E'.
    rewrite !bool_decide_eq_true_2 by set_solver. f_equal. set_solver.
  - apply bool_decide_eq_false in E.
    rewrite bool_decide_eq_false_2 by set_solver. done.
  - apply bool_decide_eq_false in E'.
    rewrite bool_decide_eq_false_2 by set_solver. done.
Qed.

Lemma sentence_mark_safe_comm (c c' : Cell) (s : Sentence) :
  Sentence_.mark_safe c (Sentence_.mark_safe c' s)
  = Sentence_.mark_safe c' (Sentence_.mark_safe c s).
Proof.
  destruct (decide (c = c')) as [->|Hne]; [done|].
  unfold Sentence_.mark_safe.
  destruct (bool_decide (c' ∈ cells s)) eqn:E';
    destruct (bool_decide (c ∈ cells s)) eqn:E;
    simpl; rewrite ?E, ?E'; try done.
  - apply bool_decide_eq_true in E, E'.
    rewrite !bool_decide_eq_true_2 by set_solver. f_equal. set_solver.
  - apply bool_decide_eq_false in E.
    rewrite bool_decide_eq_false_2 by set_solver. done.
  - apply bool_decide_eq_false in E'.
    rewrite bool_decide_eq_false_2 by set_solver. done.
Qed.

Lemma mark_mines_Permutation (l l' : list Cell) (st : Agent) :
  l ≡ₚ l' → mark_mines l st = mark_mines l' st.
Proof.
  intros H. revert st.
  induction H as [|c l l' _ IH|c c' l|l1 l2 l3 _ IH1 _ IH2]; intros st; simpl.
  - done.
  - apply IH.
  - f_equal. unfold mark_mine. simpl. f_equal; [set_solver|].
    rewrite <- !list_fmap_compose. apply list_fmap_ext. intros _ s _. simpl.
    apply sentence_mark_mine_comm.
  - by rewrite IH1, IH2.
Qed.

Lemma mark_safes_Permutation (l l' : list Cell) (st : Agent) :
  l ≡ₚ l' → mark_safes l st = mark_safes l' st.
Proof.
  intros H. revert st.
  induction H as [|c l l' _ IH|c c' l|l1 l2 l3 _ IH1 _ IH2]; intros st; simpl.
  - done.
  - apply IH.
  - f_equal. unfold mark_safe. simpl. f_equal; [set_solver|].
    rewrite <- !list_fmap_compose. apply list_fmap_ext. intros _ s _. simpl.
    apply sentence_mark_safe_comm.
  - by rewrite IH1, IH2.
Qed.

(** ** The resolution pass *)

Lemma elem_of_resolve_pair (kb : list Sentence) (s1 s2 s : Sentence) :
  s ∈ resolve_pair kb s1 s2 ↔
    cells s1 ⊆ cells s2 ∧ s1 ≠ s2 ∧ cells s1 ≠ ∅ ∧ cells s2 ≠ ∅
    ∧ s = {| cells := cells s2 ∖ cells s1; count := count s2 - count s1 |}
    ∧ cells s ≠ ∅ ∧ s ∉ kb.
Proof.
  unfold resolve_pair.
  repeat case_bool_decide; simpl;
    rewrite ?list_elem_of_singleton, ?elem_of_nil, ?len_pos_iff in *;
    split; try tauto; try (intros ->; simpl; tauto);
    intros (? & ? & ? & ? & -> & ? & ?); simpl in *; tauto.
Qed.

Lemma elem_of_new_sentences (kb : list Sentence) (s : Sentence) :
  s ∈ new_sentences kb ↔
    ∃ s1 s2, s1 ∈ kb ∧ s2 ∈ kb
      ∧ cells s1 ⊆ cells s2 ∧ s1 ≠ s2 ∧ cells s1 ≠ ∅ ∧ cells s2 ≠ ∅
      ∧ s = {| cells := cells s2 ∖ cells s1; count := count s2 - count s1 |}
      ∧ cells s ≠ ∅ ∧ s ∉ kb.
Proof.
  unfold new_sentences. rewrite list_elem_of_bind. split.
  - intros (s1 & Hin & H1). apply list_elem_of_bind in Hin as (s2 & Hin & H2).
    apply elem_of_resolve_pair in Hin. exists s1, s2. tauto.
  - intros (s1 & s2 & H1 & H2 & H). exists s1. split; [|done].
    apply list_elem_of_bind. exists s2. split; [|done].
    apply elem_of_resolve_pair. tauto.
Qed.

Lemma resolve_pair_cases (kb : list Sentence) (s1 s2 : Sentence) :
  cells s1 ⊆ cells s2 → s1 ≠ s2 → cells s1 ≠ ∅ → cells s2 ≠ ∅ →
  let candidate :=
    {| cells := cells s2 ∖ cells s1; count := count s2 - count s1 |} in
  resolve_pair kb s1 s2 =
    if bool_decide (cells candidate ≠ ∅ ∧ candidate ∉ kb)
    then [candidate] else [].
Proof.
  intros Hsub Hne H1 H2. simpl. unfold resolve_pair.
  rewrite !bool_decide_eq_true_2 by (by rewrite ?len_pos_iff). simpl.
  repeat case_bool_decide; tauto.
Qed.

Lemma subset_resolution_example (A B C : Cell) :
  C ≠ A → C ≠ B →
  new_sentences [ {| cells := {[A; B]}; count := 1 |};
                  {| cells := {[A; B; C]}; count := 2 |} ]
  = [ {| cells := {[C]}; count := 1 |} ].
Proof.
  intros HA HB. unfold new_sentences. simpl.
  set (s1 := {| cells := {[A; B]}; count := 1 |}).
  set (s2 := {| cells := {[A; B; C]}; count := 2 |}).
  assert (resolve_pair [s1; s2] s1 s1 = []) as ->.
  { unfold resolve_pair.
    rewrite (bool_decide_eq_false_2 (s1 ≠ s1)) by tauto.
    by rewrite andb_false_r. }
  assert (resolve_pair [s1; s2] s2 s2 = []) as ->.
  { unfold resolve_pair.
    rewrite (bool_decide_eq_false_2 (s2 ≠ s2)) by tauto.
    by rewrite andb_false_r. }
  assert (resolve_pair [s1; s2] s2 s1 = []) as ->.
  { unfold resolve_pair.
    rewrite (bool_decide_eq_false_2 (cells s2 ⊆ cells s1)); [done|].
    subst s1 s2; simpl. set_solver. }
  assert (cells s1 ⊆ cells s2) as Hsub by (subst s1 s2; simpl; set_solver).
  assert (s1 ≠ s2) as Hne
    by (subst s1 s2; intros E; apply (f_equal count) in E; done).
  assert (cells s1 ≠ ∅) as Hn1 by (subst s1; simpl; set_solver).
  assert (cells s2 ≠ ∅) as Hn2 by (subst s2; simpl; set_solver).
  rewrite (resolve_pair_cases [s1; s2] s1 s2 Hsub Hne Hn1 Hn2).
  subst s1 s2; simpl.
  assert ({[A; B; C]} ∖ {[A; B]} = ({[C]} : gset Cell)) as -> by set_solver.
  rewrite bool_decide_eq_true_2; [done|].
  split; [set_solver|].
  rewrite !elem_of_cons, elem_of_nil.
  intros [E | [E | []]]; apply (f_equal cells) in E; simpl in E; set_solver.
Qed.

(** ** Induction principles for the passes *)

(** A property of the agent and the flag that survives the marking of the
    facts of any sentence of the knowledge base survives one iteration of the
    simplification loop. *)
Lemma simplify_at_ind (P : Agent → bool → Prop) :
  (∀ st ch s, P st ch → s ∈ knowledge st → known_mines s ≠ ∅ →
     P (mark_mines (elements (known_mines s)) st) true) →
  (∀ st ch s, P st ch → s ∈ knowledge st → known_safes s ≠ ∅ →
     P (mark_safes (elements (known_safes s)) st) true) →
  ∀ i st ch, P st ch →
    P (simplify_at i (st, ch)).1 (simplify_at i (st, ch)).2.
Proof.
  intros Hm Hs i st ch HP. unfold simplify_at.
  destruct (knowledge st !! i) as [s|] eqn:Ei; [|done].
  assert (∃ st1 ch1,
    (if bool_decide (known_mines s ≠ ∅)
     then (mark_mines (elements (known_mines s)) st, true)
     else (st, ch)) = (st1, ch1) ∧ P st1 ch1) as (st1 & ch1 & -> & HP1).
  { case_bool_decide; eexists _, _; (split; [done|]); [|done].
    eapply Hm; eauto using list_elem_of_lookup_2. }
  destruct (knowledge st1 !! i) as [s'|] eqn:Ei'; [|done].
  case_bool_decide; [|done]. simpl.
  eapply Hs; eauto using list_elem_of_lookup_2.
Qed.

Lemma simplification_pass_ind (P : Agent → bool → Prop) (st : Agent) :
  P st false →
  (∀ st ch s, P st ch → s ∈ knowledge st → known_mines s ≠ ∅ →
     P (mark_mines (elements (known_mines s)) st) true) →
  (∀ st ch s, P st ch → s ∈ knowledge st → known_safes s ≠ ∅ →
     P (mark_safes (elements (known_safes s)) st) true) →
  P (simplification_pass st).1 (simplification_pass st).2.
Proof.
  intros H0 Hm Hs. unfold simplification_pass.
  generalize (seq 0 (length (knowledge st))). intros l.
  assert (P (st, false).1 (st, false).2) as H by done.
  revert H. generalize (st, false). clear H0.
  induction l as [|i l IH]; intros [st' ch] H; cbn [foldl]; [done|].
  apply IH. by apply simplify_at_ind.
Qed.

(** The same for a whole pass of the loop body: the staged sentences are
    appended after the simplification. *)
Lemma inference_pass_ind (P : Agent → bool → Prop) (st : Agent) :
  P st false →
  (∀ st ch s, P st ch → s ∈ knowledge st → known_mines s ≠ ∅ →
     P (mark_mines (elements (known_mines s)) st) true) →
  (∀ st ch s, P st ch → s ∈ knowledge st → known_safes s ≠ ∅ →
     P (mark_safes (elements (known_safes s)) st) true) →
  (∀ st ch, P st ch → new_sentences (knowledge st) ≠ [] →
     P (set_knowledge (knowledge st ++ new_sentences (knowledge st)) st) true) →
  P (inference_pass st).1 (inference_pass st).2.
Proof.
  intros H0 Hm Hs Hr. unfold inference_pass.
  pose proof (simplification_pass_ind P st H0 Hm Hs) as H.
  destruct (simplification_pass st) as [st1 ch]. simpl in H.
  destruct (new_sentences (knowledge st1)) eqn:E; [done|].
  rewrite <- E. simpl. apply (Hr _ _ H). by rewrite E.
Qed.

(** ** The three sets only grow *)

Lemma grows_refl (st : Agent) : grows st st.
Proof. by unfold grows. Qed.

Lemma grows_trans (st1 st2 st3 : Agent) :
  grows st1 st2 → grows st2 st3 → grows st1 st3.
Proof. unfold grows. set_solver. Qed.

Lemma grows_mark_mine (c : Cell) (st : Agent) : grows st (mark_mine c st).
Proof. unfold grows; simpl. set_solver. Qed.

Lemma grows_mark_safe (c : Cell) (st : Agent) : grows st (mark_safe c st).
Proof. unfold grows; simpl. set_solver. Qed.

Lemma grows_mark_mines (l : list Cell) (st : Agent) : grows st (mark_mines l st).
Proof.
  unfold grows. destruct (mark_mines_fields l st) as (_ & _ & -> & -> & -> & _).
  set_solver.
Qed.

Lemma grows_mark_safes (l : list Cell) (st : Agent) : grows st (mark_safes l st).
Proof.
  unfold grows. destruct (mark_safes_fields l st) as (_ & _ & -> & -> & -> & _).
  set_solver.
Qed.

Lemma grows_inference_pass (st : Agent) : grows st (inference_pass st).1.
Proof.
  apply (inference_pass_ind (λ st' _, grows st st')).
  - apply grows_refl.
  - intros st' _ s H _ _. eapply grows_trans; [done|apply grows_mark_mines].
  - intros st' _ s H _ _. eapply grows_trans; [done|apply grows_mark_safes].
  - intros st' _ H _. done.
Qed.

Lemma grows_inference_loop (fuel : nat) (st st' : Agent) :
  inference_loop fuel st = Some st' → grows st st'.
Proof.
  revert st. induction fuel as [|fuel IH]; intros st; simpl; [done|].
  pose proof (grows_inference_pass st) as H.
  destruct (inference_pass st) as [st1 [|]]; simpl in H.
  - intros Hl. eapply grows_trans; [done|by apply IH].
  - by intros [= <-].
Qed.

Lemma observe_fields (cell : Cell) (clue : Z) (st : Agent) :
  height (observe cell clue st) = height st
  ∧ width (observe cell clue st) = width st
  ∧ moves_made (observe cell clue st) = {[cell]} ∪ moves_made st
  ∧ mines (observe cell clue st) = mines st
  ∧ safes (observe cell clue st) = {[cell]} ∪ safes st.
Proof.
  unfold observe.
  destruct (filter_neighbors _ _) as [[|n unknown] k]; done.
Qed.

Lemma grows_observe (cell : Cell) (clue : Z) (st : Agent) :
  grows st (observe cell clue st).
Proof.
  unfold grows.
  destruct (observe_fields cell clue st) as (_ & _ & -> & -> & ->). set_solver.
Qed.

Lemma grows_add_knowledge (fuel : nat) (cell : Cell) (clue : Z) (st st' : Agent) :
  add_knowledge fuel cell clue st = Some st' → grows st st'.
Proof.
  intros H. eapply grows_trans; [apply grows_observe|].
  by eapply grows_inference_loop.
Qed.

(** ** Neighbours and clues *)

Lemma in_bounds_spec (h w : Z) (c : Cell) :
  in_bounds h w c = true ↔ 0 <= c.1 < h ∧ 0 <= c.2 < w.
Proof. unfold in_bounds. rewrite !andb_true_iff. lia. Qed.

Lemma elem_of_offsets (o : Z) : o ∈ offsets ↔ o = -1 ∨ o = 0 ∨ o = 1.
Proof. unfold offsets. rewrite !elem_of_cons, elem_of_nil. tauto. Qed.

(** The neighbours are the cells of the 3 by 3 window around [cell], except
    [cell] itself, that lie on the grid. *)
Lemma elem_of_neighbors (h w : Z) (cell c : Cell) :
  c ∈ neighbors h w cell ↔
    c ≠ cell ∧ cell.1 - 1 <= c.1 <= cell.1 + 1
    ∧ cell.2 - 1 <= c.2 <= cell.2 + 1 ∧ in_bounds h w c = true.
Proof.
  destruct cell as [i j], c as [ci cj]. unfold neighbors. cbn [fst snd].
  rewrite list_elem_of_bind. split.
  - intros (io & Hin & Hio). apply list_elem_of_bind in Hin as (jo & Hin & Hjo).
    apply elem_of_offsets in Hio, Hjo.
    destruct (bool_decide (io = 0) && bool_decide (jo = 0)) eqn:E0.
    { by apply elem_of_nil in Hin. }
    destruct (in_bounds h w (i + io, j + jo)) eqn:Eb.
    2:{ by apply elem_of_nil in Hin. }
    apply list_elem_of_singleton in Hin. injection Hin as -> ->.
    split_and!; try lia; [|done].
    intros [= ? ?].
    assert (io = 0) as -> by lia. assert (jo = 0) as -> by lia. done.
  - intros (Hne & Hi & Hj & Hb).
    exists (ci - i). split; [|apply elem_of_offsets; lia].
    apply list_elem_of_bind. exists (cj - j).
    split; [|apply elem_of_offsets; lia].
    destruct (bool_decide (ci - i = 0) && bool_decide (cj - j = 0)) eqn:E0.
    { apply andb_true_iff in E0 as [E1 E2].
      apply bool_decide_eq_true in E1, E2.
      exfalso. apply Hne. f_equal; lia. }
    replace (i + (ci - i)) with ci by lia.
    replace (j + (cj - j)) with cj by lia.
    rewrite Hb. by apply list_elem_of_singleton.
Qed.

Lemma NoDup_offsets : NoDup offsets.
Proof.
  unfold offsets. rewrite !NoDup_cons, !elem_of_cons, !elem_of_nil.
  split_and!; try apply NoDup_nil; try done; lia.
Qed.

Lemma NoDup_neighbors (h w : Z) (cell : Cell) : NoDup (neighbors h w cell).
Proof.
  unfold neighbors. apply NoDup_bind; [| |apply NoDup_offsets].
  - intros i1 i2 c _ _ H1 H2.
    apply list_elem_of_bind in H1 as (j1 & H1 & _).
    apply list_elem_of_bind in H2 as (j2 & H2 & _).
    repeat match goal with
           | H : _ ∈ (if ?b then _ else _) |- _ => destruct b
           | H : _ ∈ [] |- _ => by apply elem_of_nil in H
           | H : _ ∈ [_] |- _ => apply list_elem_of_singleton in H
           end.
    rewrite H1 in H2. injection H2. lia.
  - intros i _. apply NoDup_bind; [| |apply NoDup_offsets].
    + intros j1 j2 c _ _ H1 H2.
      repeat match goal with
             | H : _ ∈ (if ?b then _ else _) |- _ => destruct b
             | H : _ ∈ [] |- _ => by apply elem_of_nil in H
             | H : _ ∈ [_] |- _ => apply list_elem_of_singleton in H
             end.
      rewrite H1 in H2. injection H2. lia.
    + intros j _. repeat case_match; auto using NoDup_nil_2, NoDup_singleton.
Qed.

Lemma elem_of_window (cell c : Cell) :
  c ∈ Minesweeper.window cell ↔
    cell.1 - 1 <= c.1 <= cell.1 + 1 ∧ cell.2 - 1 <= c.2 <= cell.2 + 1.
Proof.
  unfold Minesweeper.window. rewrite list_elem_of_bind. split.
  - intros (i & Hin & Hi). apply list_elem_of_bind in Hin as (j & Hin & Hj).
    apply list_elem_of_singleton in Hin as ->.
    apply elem_of_seqZ in Hi, Hj. simpl. lia.
  - intros [Hi Hj]. exists c.1. split; [|apply elem_of_seqZ; lia].
    apply list_elem_of_bind. exists c.2. split; [|apply elem_of_seqZ; lia].
    apply list_elem_of_singleton. by destruct c.
Qed.

Lemma NoDup_window (cell : Cell) : NoDup (Minesweeper.window cell).
Proof.
  unfold Minesweeper.window. apply NoDup_bind; [| |apply NoDup_seqZ].
  - intros i1 i2 c _ _ H1 H2.
    apply list_elem_of_bind in H1 as (j1 & H1 & _).
    apply list_elem_of_bind in H2 as (j2 & H2 & _).
    apply list_elem_of_singleton in H1, H2. congruence.
  - intros i _. apply NoDup_bind; [| |apply NoDup_seqZ].
    + intros j1 j2 c _ _ H1 H2.
      apply list_elem_of_singleton in H1, H2. congruence.
    + intros j _. apply NoDup_singleton.
Qed.

(** The counting loop of [nearby_mines], for any start value and any list. *)
Lemma nearby_mines_loop (g : Minesweeper.t) (cell : Cell) (l : list Cell) (a : Z) :
  foldl (λ count c,
           if bool_decide (c = cell) then count
           else if in_bounds (Minesweeper.height g) (Minesweeper.width g) c
                then (if Minesweeper.board g c then count + 1 else count)
                else count) a l
  = a + Z.of_nat (length (filter
          (λ c, c ≠ cell
                ∧ in_bounds (Minesweeper.height g) (Minesweeper.width g) c = true
                ∧ c ∈ Minesweeper.mines g) l)).
Proof.
  revert a. induction l as [|c l IH]; intros a; simpl; [lia|].
  rewrite IH, filter_cons. unfold Minesweeper.board.
  case_bool_decide as E1.
  { rewrite decide_False by tauto. done. }
  destruct (in_bounds _ _ c) eqn:E2.
  2:{ rewrite decide_False by (intros (_ & ? & _); done). done. }
  case_bool_decide as E3.
  - rewrite decide_True by done. simpl length. lia.
  - rewrite decide_False by tauto. done.
Qed.

(** The clue of the board is the number of mines among the neighbours that
    the agent computes. *)
Lemma nearby_mines_neighbors (g : Minesweeper.t) (cell : Cell) :
  Minesweeper.nearby_mines g cell
  = len (list_to_set
           (neighbors (Minesweeper.height g) (Minesweeper.width g) cell)
         ∩ Minesweeper.mines g).
Proof.
  unfold Minesweeper.nearby_mines. rewrite nearby_mines_loop.
  unfold len. rewrite Z.add_0_l. f_equal.
  rewrite <- (size_list_to_set (C := gset Cell))
    by apply NoDup_filter, NoDup_window.
  f_equal. apply set_eq. intros c.
  rewrite elem_of_list_to_set, list_elem_of_filter, elem_of_window.
  rewrite elem_of_intersection, elem_of_list_to_set, elem_of_neighbors.
  tauto.
Qed.

(** The filtering loop of the observation, in closed form. *)
Lemma filter_neighbors_spec (st : Agent) (nbrs : list Cell) :
  filter_neighbors st nbrs =
    (filter (λ n, (n ∉ moves_made st) ∧ (n ∉ safes st) ∧ n ∉ mines st) nbrs,
     Z.of_nat (length
       (filter (λ n, (n ∉ moves_made st) ∧ (n ∉ safes st) ∧ n ∈ mines st) nbrs))).
Proof.
  unfold filter_neighbors.
  assert (∀ u k,
    foldl (λ '(unknown_neighbors, known_mines_count) neighbor,
             if bool_decide (neighbor ∈ moves_made st)
                || bool_decide (neighbor ∈ safes st)
             then (unknown_neighbors, known_mines_count)
             else if bool_decide (neighbor ∈ mines st)
                  then (unknown_neighbors, known_mines_count + 1)
                  else (unknown_neighbors ++ [neighbor], known_mines_count))
          (u, k) nbrs
    = (u ++ filter (λ n, (n ∉ moves_made st) ∧ (n ∉ safes st) ∧ n ∉ mines st) nbrs,
       k + Z.of_nat (length
         (filter (λ n, (n ∉ moves_made st) ∧ (n ∉ safes st) ∧ n ∈ mines st) nbrs))))
    as H.
  { induction nbrs as [|n nbrs IH]; intros u k; simpl.
    - by rewrite app_nil_r, Z.add_0_r.
    - rewrite !filter_cons.
      destruct (bool_decide (n ∈ moves_made st)) eqn:E1; simpl.
      { apply bool_decide_eq_true in E1.
        rewrite IH, !decide_False by tauto. done. }
      apply bool_decide_eq_false in E1.
      destruct (bool_decide (n ∈ safes st)) eqn:E2; simpl.
      { apply bool_decide_eq_true in E2.
        rewrite IH, !decide_False by tauto. done. }
      apply bool_decide_eq_false in E2.
      case_bool_decide as E3.
      + rewrite IH, decide_False, decide_True by tauto.
        simpl length. f_equal. lia.
      + rewrite IH, decide_True, decide_False by tauto.
        by rewrite <- app_assoc. }
  rewrite H. by rewrite Z.add_0_l.
Qed.

(** ** Knowledge that is true of a board *)

Lemma holds_bound (M : gset Cell) (s : Sentence) :
  holds M s → 0 <= count s <= len (cells s).
Proof.
  unfold holds, len. intros ->.
  pose proof (subseteq_size (cells s ∩ M) (cells s)) as H.
  assert (cells s ∩ M ⊆ cells s) as Hsub by set_solver.
  apply H in Hsub. lia.
Qed.

Lemma holds_inj (M : gset Cell) (s s' : Sentence) :
  holds M s → holds M s' → cells s = cells s' → s = s'.
Proof.
  unfold holds. destruct s as [X k], s' as [X' k']; simpl.
  intros -> -> ->. done.
Qed.

Lemma holds_known_mines (M : gset Cell) (s : Sentence) :
  holds M s → known_mines s ⊆ M.
Proof.
  unfold holds, known_mines, len. intros H. case_bool_decide as E; [|set_solver].
  assert (cells s ∩ M = cells s) as Heq.
  { apply set_subseteq_size_eq; [set_solver|lia]. }
  set_solver.
Qed.

Lemma holds_known_safes (M : gset Cell) (s : Sentence) :
  holds M s → known_safes s ## M.
Proof.
  unfold holds, known_safes. intros H. case_bool_decide as E; [|set_solver].
  assert (cells s ∩ M = ∅) as Heq by (apply len_empty_iff; lia).
  set_solver.
Qed.

Lemma holds_mark_mine (M : gset Cell) (c : Cell) (s : Sentence) :
  c ∈ M → holds M s → holds M (Sentence_.mark_mine c s).
Proof.
  unfold holds, Sentence_.mark_mine, len. intros Hc H.
  case_bool_decide as E; [|done]. simpl. rewrite H.
  assert ((cells s ∖ {[c]}) ∩ M = (cells s ∩ M) ∖ {[c]}) as -> by set_solver.
  rewrite (size_difference (cells s ∩ M) {[c]}) by set_solver.
  rewrite size_singleton.
  assert (size (cells s ∩ M) ≠ 0%nat); [|lia].
  apply size_non_empty_iff. set_solver.
Qed.

Lemma holds_mark_safe (M : gset Cell) (c : Cell) (s : Sentence) :
  c ∉ M → holds M s → holds M (Sentence_.mark_safe c s).
Proof.
  unfold holds, Sentence_.mark_safe. intros Hc H.
  case_bool_decide as E; [|done]. simpl. rewrite H.
  f_equal. set_solver.
Qed.

Lemma holds_difference (M : gset Cell) (s1 s2 : Sentence) :
  holds M s1 → holds M s2 → cells s1 ⊆ cells s2 →
  holds M {| cells := cells s2 ∖ cells s1; count := count s2 - count s1 |}.
Proof.
  unfold holds, len. simpl. intros -> -> Hsub.
  assert ((cells s2 ∖ cells s1) ∩ M = (cells s2 ∩ M) ∖ (cells s1 ∩ M)) as ->
    by set_solver.
  rewrite (size_difference (cells s2 ∩ M) (cells s1 ∩ M)) by set_solver.
  assert (size (cells s1 ∩ M) ≤ size (cells s2 ∩ M))%nat; [|lia].
  apply subseteq_size. set_solver.
Qed.

Lemma Sound_init (g : Minesweeper.t) :
  Sound g (init (Minesweeper.height g) (Minesweeper.width g)).
Proof. split; simpl; try done; set_solver. Qed.

Lemma Sound_mark_mine (g : Minesweeper.t) (c : Cell) (st : Agent) :
  c ∈ Minesweeper.mines g → Sound g st → Sound g (mark_mine c st).
Proof.
  intros Hc [Hh Hw Hm Hs Hv Hk]. split; simpl; try done; [set_solver|].
  apply Forall_fmap. eapply Forall_impl; [done|].
  intros s. by apply holds_mark_mine.
Qed.

Lemma Sound_mark_safe (g : Minesweeper.t) (c : Cell) (st : Agent) :
  c ∉ Minesweeper.mines g → Sound g st → Sound g (mark_safe c st).
Proof.
  intros Hc [Hh Hw Hm Hs Hv Hk]. split; simpl; try done; [set_solver|].
  apply Forall_fmap. eapply Forall_impl; [done|].
  intros s. by apply holds_mark_safe.
Qed.

Lemma Sound_mark_mines (g : Minesweeper.t) (l : list Cell) (st : Agent) :
  (∀ c, c ∈ l → c ∈ Minesweeper.mines g) → Sound g st →
  Sound g (mark_mines l st).
Proof.
  revert st. induction l as [|c l IH]; intros st Hl H; simpl; [done|].
  apply IH; [intros; apply Hl; by right|].
  apply Sound_mark_mine; [apply Hl; by left|done].
Qed.

Lemma Sound_mark_safes (g : Minesweeper.t) (l : list Cell) (st : Agent) :
  (∀ c, c ∈ l → c ∉ Minesweeper.mines g) → Sound g st →
  Sound g (mark_safes l st).
Proof.
  revert st. induction l as [|c l IH]; intros st Hl H; simpl; [done|].
  apply IH; [intros; apply Hl; by right|].
  apply Sound_mark_safe; [apply Hl; by left|done].
Qed.

Lemma Sound_known_mines (g : Minesweeper.t) (st : Agent) (s : Sentence) :
  Sound g st → s ∈ knowledge st →
  Sound g (mark_mines (elements (known_mines s)) st).
Proof.
  intros H Hs. apply Sound_mark_mines; [|done].
  intros c Hc. apply elem_of_elements in Hc.
  destruct H as [_ _ _ _ _ Hk]. rewrite Forall_forall in Hk.
  apply (holds_known_mines _ s); auto.
Qed.

Lemma Sound_known_safes (g : Minesweeper.t) (st : Agent) (s : Sentence) :
  Sound g st → s ∈ knowledge st →
  Sound g (mark_safes (elements (known_safes s)) st).
Proof.
  intros H Hs. apply Sound_mark_safes; [|done].
  intros c Hc. apply elem_of_elements in Hc.
  destruct H as [_ _ _ _ _ Hk]. rewrite Forall_forall in Hk.
  pose proof (holds_known_safes _ s (Hk s Hs)). set_solver.
Qed.

Lemma Sound_new_sentences (g : Minesweeper.t) (st : Agent) :
  Sound g st →
  Sound g (set_knowledge (knowledge st ++ new_sentences (knowledge st)) st).
Proof.
  intros [Hh Hw Hm Hs Hv Hk]. split; simpl; try done.
  apply Forall_app. split; [done|].
  rewrite Forall_forall in Hk. apply Forall_forall. intros s Hs'.
  apply elem_of_new_sentences
    in Hs' as (s1 & s2 & H1 & H2 & Hsub & _ & _ & _ & -> & _).
  apply holds_difference; auto.
Qed.

Lemma Sound_inference_pass (g : Minesweeper.t) (st : Agent) :
  Sound g st → Sound g (inference_pass st).1.
Proof.
  intros H. apply (inference_pass_ind (λ st' _, Sound g st')); try done.
  - intros st' _ s H' Hs _. by apply Sound_known_mines.
  - intros st' _ s H' Hs _. by apply Sound_known_safes.
  - intros st' _ H' _. by apply Sound_new_sentences.
Qed.


(** The sentence built from a true clue holds. *)
Lemma Sound_observe (g : Minesweeper.t) (cell : Cell) (st : Agent) :
  Sound g st → cell ∉ Minesweeper.mines g →
  Sound g (observe cell (Minesweeper.nearby_mines g cell) st).
Proof.
  intros H Hcell. unfold observe.
  set (st0 := {| height := height st; width := width st;
                 moves_made := {[cell]} ∪ moves_made st;
                 mines := mines st; safes := safes st;
                 knowledge := knowledge st |}).
  assert (Sound g (mark_safe cell st0)) as H1.
  { apply Sound_mark_safe; [done|].
    destruct H as [Hh Hw Hm Hs Hv Hk]. split; simpl; try done. set_solver. }
  set (st1 := mark_safe cell st0) in *. clearbody st1. clear st0 H.
  rewrite filter_neighbors_spec.
  set (nbrs := neighbors (height st1) (width st1) cell).
  set (unknown := filter _ nbrs).
  destruct unknown as [|n0 unknown'] eqn:Eu; [done|]. rewrite <- Eu.
  destruct H1 as [Hh Hw Hm Hs Hv Hk]. split; simpl; try done.
  apply Forall_app. split; [done|]. apply Forall_singleton.
  unfold holds. simpl.
  rewrite nearby_mines_neighbors, <- Hh, <- Hw. fold nbrs.
  rewrite <- (size_list_to_set (C := gset Cell))
    by apply NoDup_filter, NoDup_neighbors.
  fold (len (list_to_set (filter
    (λ n, (n ∉ moves_made st1) ∧ (n ∉ safes st1) ∧ n ∈ mines st1) nbrs))).
  set (M := Minesweeper.mines g) in *.
  set (K := list_to_set (filter
    (λ n, (n ∉ moves_made st1) ∧ (n ∉ safes st1) ∧ (n ∈ mines st1)) nbrs)
    : gset Cell).
  assert (∀ c, c ∈ M → (c ∉ moves_made st1) ∧ (c ∉ safes st1)) as HM.
  { intros c Hc. split; intros Hc'; [by apply (Hv c)|by apply (Hs c)]. }
  assert (∀ c, c ∈ mines st1 → c ∈ M) as Hm' by (intros c; apply Hm).
  assert (list_to_set unknown ∩ M = (list_to_set nbrs ∩ M) ∖ K) as ->.
  { subst unknown K. apply set_eq. intros c.
    rewrite elem_of_difference, !elem_of_intersection, !elem_of_list_to_set,
      !list_elem_of_filter.
    specialize (HM c). specialize (Hm' c). tauto. }
  unfold len. rewrite (size_difference (list_to_set nbrs ∩ M) K).
  - assert (size K ≤ size (list_to_set nbrs ∩ M))%nat; [|lia].
    apply subseteq_size. subst K. intros c.
    rewrite elem_of_intersection, !elem_of_list_to_set, list_elem_of_filter.
    specialize (Hm' c). tauto.
  - subst K. intros c.
    rewrite elem_of_intersection, !elem_of_list_to_set, list_elem_of_filter.
    specialize (Hm' c). tauto.
Qed.


(** ** Play against a board *)

Lemma is_mine_false (g : Minesweeper.t) (cell : Cell) :
  Minesweeper.is_mine g cell = false ↔ cell ∉ Minesweeper.mines g.
Proof.
  unfold Minesweeper.is_mine, Minesweeper.board.
  by rewrite bool_decide_eq_false.
Qed.

Lemma engine_state_inference_loop
    (g : Minesweeper.t) (fuel : nat) (st st' : Agent) :
  engine_state g st → inference_loop fuel st = Some st' → engine_state g st'.
Proof.
  revert st. induction fuel as [|fuel IH]; intros st H; simpl; [done|].
  assert (engine_state g (inference_pass st).1) as H1.
  { apply (inference_pass_ind (λ st' _, engine_state g st')); try done.
    - intros st1 _ s H1 Hs _.
      rewrite <- (take_ge (elements (known_mines s))
                    (length (elements (known_mines s)))) by done.
      apply (engine_mark_mines g st1 s (elements (known_mines s))); try done.
      by unfold iterates.
    - intros st1 _ s H1 Hs _.
      rewrite <- (take_ge (elements (known_safes s))
                    (length (elements (known_safes s)))) by done.
      apply (engine_mark_safes g st1 s (elements (known_safes s))); try done.
      by unfold iterates.
    - intros st1 _ H1 _. by apply engine_resolve. }
  destruct (inference_pass st) as [st1 [|]]; simpl in H1.
  - by apply IH.
  - by intros [= <-].
Qed.

Lemma reachable_engine_state (g : Minesweeper.t) (st : Agent) :
  reachable g st → engine_state g st.
Proof.
  unfold reachable. intros H. apply rtc_nsteps in H as [n H].
  revert st H. induction n as [|n IH]; intros st H.
  - inversion H; subst. apply engine_init.
  - apply nsteps_inv_r in H as (st1 & H1 & [cell fuel Hb Hm Hk]).
    eapply engine_state_inference_loop; [|exact Hk].
    apply engine_observe; auto.
Qed.

Lemma engine_state_Sound (g : Minesweeper.t) (st : Agent) :
  engine_state g st → Sound g st.
Proof.
  induction 1 as [|st cell _ IH Hb Hm|st s order k _ IH Hs Ho
                  |st s order k _ IH Hs Ho|st _ IH].
  - apply Sound_init.
  - apply Sound_observe; [done|]. by apply is_mine_false.
  - apply Sound_mark_mines; [|done]. intros c Hc.
    apply subseteq_take in Hc. unfold iterates in Ho. rewrite Ho in Hc.
    apply elem_of_elements in Hc.
    destruct IH as [_ _ _ _ _ Hk]. rewrite Forall_forall in Hk.
    apply (holds_known_mines _ s); auto.
  - apply Sound_mark_safes; [|done]. intros c Hc.
    apply subseteq_take in Hc. unfold iterates in Ho. rewrite Ho in Hc.
    apply elem_of_elements in Hc.
    destruct IH as [_ _ _ _ _ Hk]. rewrite Forall_forall in Hk.
    pose proof (holds_known_safes _ s (Hk s Hs)). set_solver.
  - by apply Sound_new_sentences.
Qed.

Lemma reachable_Sound (g : Minesweeper.t) (st : Agent) :
  reachable g st → Sound g st.
Proof. intros. by apply engine_state_Sound, reachable_engine_state. Qed.

(** ** Termination of the loop on true knowledge *)

Lemma elem_of_support (st : Agent) (c : Cell) :
  c ∈ support st ↔ ∃ s, s ∈ knowledge st ∧ c ∈ cells s.
Proof.
  unfold support. rewrite elem_of_union_list. split.
  - intros (X & HX & Hc). apply list_elem_of_fmap in HX as (s & -> & Hs). eauto.
  - intros (s & Hs & Hc). exists (cells s). split; [|done].
    apply list_elem_of_fmap. eauto.
Qed.

Lemma support_mark_mine (c : Cell) (st : Agent) :
  support (mark_mine c st) = support st ∖ {[c]}.
Proof.
  apply set_eq. intros x.
  rewrite elem_of_difference, !elem_of_support. simpl. split.
  - intros (s & Hs & Hx). apply list_elem_of_fmap in Hs as (s0 & -> & Hs0).
    rewrite cells_mark_mine in Hx. set_solver.
  - intros [(s & Hs & Hx) Hne]. exists (Sentence_.mark_mine c s).
    rewrite cells_mark_mine. split; [|set_solver].
    apply list_elem_of_fmap. eauto.
Qed.

Lemma support_mark_safe (c : Cell) (st : Agent) :
  support (mark_safe c st) = support st ∖ {[c]}.
Proof.
  apply set_eq. intros x.
  rewrite elem_of_difference, !elem_of_support. simpl. split.
  - intros (s & Hs & Hx). apply list_elem_of_fmap in Hs as (s0 & -> & Hs0).
    rewrite cells_mark_safe in Hx. set_solver.
  - intros [(s & Hs & Hx) Hne]. exists (Sentence_.mark_safe c s).
    rewrite cells_mark_safe. split; [|set_solver].
    apply list_elem_of_fmap. eauto.
Qed.

Lemma support_mark_mines (l : list Cell) (st : Agent) :
  support (mark_mines l st) = support st ∖ list_to_set l.
Proof.
  revert st. induction l as [|c l IH]; intros st; simpl.
  - set_solver.
  - rewrite IH, support_mark_mine. set_solver.
Qed.

Lemma support_mark_safes (l : list Cell) (st : Agent) :
  support (mark_safes l st) = support st ∖ list_to_set l.
Proof.
  revert st. induction l as [|c l IH]; intros st; simpl.
  - set_solver.
  - rewrite IH, support_mark_safe. set_solver.
Qed.

(** Marking the facts of a sentence removes at least one cell from the
    support; a simplification pass that leaves the flag unset changed
    nothing. *)
Lemma simplification_pass_support (st : Agent) :
  support (simplification_pass st).1 ⊆ support st
  ∧ ((simplification_pass st).2 = false → (simplification_pass st).1 = st)
  ∧ ((simplification_pass st).2 = true →
       support (simplification_pass st).1 ⊂ support st).
Proof.
  apply (simplification_pass_ind
    (λ st' ch, support st' ⊆ support st ∧ (ch = false → st' = st)
               ∧ (ch = true → support st' ⊂ support st))).
  - done.
  - intros st' ch s (Hsub & _ & _) Hs Hne. rewrite support_mark_mines.
    apply set_choose_L in Hne as [c Hc].
    assert (c ∈ support st').
    { apply elem_of_support. exists s. split; [done|].
      by apply known_mines_subseteq. }
    assert (c ∈ (list_to_set (elements (known_mines s)) : gset Cell))
      by (by apply elem_of_list_to_set, elem_of_elements).
    split; [set_solver|]. split; [done|]. intros _. set_solver.
  - intros st' ch s (Hsub & _ & _) Hs Hne. rewrite support_mark_safes.
    apply set_choose_L in Hne as [c Hc].
    assert (c ∈ support st').
    { apply elem_of_support. exists s. split; [done|].
      by apply known_safes_subseteq. }
    assert (c ∈ (list_to_set (elements (known_safes s)) : gset Cell))
      by (by apply elem_of_list_to_set, elem_of_elements).
    split; [set_solver|]. split; [done|]. intros _. set_solver.
Qed.

Lemma support_new_sentences (st : Agent) :
  support (set_knowledge (knowledge st ++ new_sentences (knowledge st)) st)
  = support st.
Proof.
  apply set_eq. intros c. rewrite !elem_of_support. simpl. split.
  - intros (s & Hs & Hc). apply elem_of_app in Hs as [Hs|Hs]; [eauto|].
    apply elem_of_new_sentences in Hs as (s1 & s2 & _ & H2 & _ & _ & _ & _ & -> & _).
    simpl in Hc. exists s2. split; [done|set_solver].
  - intros (s & Hs & Hc). exists s. split; [|done]. apply elem_of_app. by left.
Qed.

Lemma elem_of_subsets (l : list Cell) (X : gset Cell) :
  X ⊆ list_to_set l → X ∈ subsets l.
Proof.
  revert X. induction l as [|c l IH]; intros X HX; simpl.
  - apply list_elem_of_singleton. set_solver.
  - apply elem_of_app. destruct (decide (c ∈ X)) as [Hc|Hc].
    + right. apply list_elem_of_fmap. exists (X ∖ {[c]}). split.
      * apply set_eq. intros x. destruct (decide (x = c)); set_solver.
      * apply IH. set_solver.
    + left. apply IH. set_solver.
Qed.

Lemma elem_of_unseen (U : gset Cell) (st : Agent) (X : gset Cell) :
  X ⊆ U → (∀ s, s ∈ knowledge st → cells s ≠ X) → X ∈ unseen U st.
Proof.
  intros HX Hk. unfold unseen.
  rewrite elem_of_difference, !elem_of_list_to_set. split.
  - apply elem_of_subsets. by rewrite list_to_set_elements_L.
  - intros (s & -> & Hs)%list_elem_of_fmap. by apply (Hk s).
Qed.

(** On true knowledge a staged sentence brings a cell set that was unseen. *)
Lemma unseen_new_sentences (g : Minesweeper.t) (U : gset Cell) (st : Agent) :
  Sound g st → support st ⊆ U → new_sentences (knowledge st) ≠ [] →
  unseen U (set_knowledge (knowledge st ++ new_sentences (knowledge st)) st)
  ⊂ unseen U st.
Proof.
  intros HS HU Hne.
  destruct (new_sentences (knowledge st)) as [|s new] eqn:E; [done|].
  assert (s ∈ new_sentences (knowledge st)) as Hs by (rewrite E; by left).
  pose proof (Sound_new_sentences g st HS) as [_ _ _ _ _ Hk']. simpl in Hk'.
  rewrite E in Hk'.
  apply elem_of_new_sentences in Hs
    as (s1 & s2 & H1 & H2 & Hsub & _ & _ & _ & Hs & _ & Hnew).
  destruct HS as [_ _ _ _ _ Hk]. rewrite Forall_forall in Hk.
  assert (holds (Minesweeper.mines g) s) as Hh.
  { rewrite Hs. apply holds_difference; auto. }
  assert (cells s ∈ unseen U st) as Hin.
  { apply elem_of_unseen.
    - intros c Hc. apply HU, elem_of_support. exists s2. split; [done|].
      rewrite Hs in Hc. simpl in Hc. set_solver.
    - intros s' Hs' Heq. apply Hnew.
      rewrite (holds_inj _ s s' Hh (Hk s' Hs')); done. }
  assert (cells s ∉
    unseen U (set_knowledge (knowledge st ++ s :: new) st)) as Hout.
  { unfold unseen. simpl. rewrite elem_of_difference, !elem_of_list_to_set.
    intros [_ Hn]. apply Hn. apply list_elem_of_fmap. exists s.
    split; [done|]. apply elem_of_app. right. by left. }
  split.
  - unfold unseen. simpl. rewrite fmap_app, list_to_set_app_L. set_solver.
  - intros Hsub'. apply Hout, Hsub', Hin.
Qed.

(** A pass that leaves the flag unset changed nothing: the state it returns
    is the fixpoint. *)
Lemma inference_pass_unchanged (st st' : Agent) :
  inference_pass st = (st', false) → st' = st.
Proof.
  unfold inference_pass.
  destruct (simplification_pass_support st) as (_ & H & _).
  destruct (simplification_pass st) as [st1 ch]. simpl in H.
  destruct (new_sentences (knowledge st1)); [|done].
  intros [= <- ->]. auto.
Qed.

Lemma inference_loop_fixpoint (fuel : nat) (st st' : Agent) :
  inference_loop fuel st = Some st' → inference_pass st' = (st', false).
Proof.
  revert st. induction fuel as [|fuel IH]; intros st; simpl; [done|].
  destruct (inference_pass st) as [st1 [|]] eqn:E; [apply IH|].
  intros [= <-]. pose proof (inference_pass_unchanged _ _ E) as ->. exact E.
Qed.

(** What a pass on true knowledge does when it sets the flag: it removes a
    cell from the support, or it keeps the support and uses up an unseen
    cell set. *)
Lemma inference_pass_progress (g : Minesweeper.t) (U : gset Cell) (st : Agent) :
  Sound g st → support st ⊆ U →
  (inference_pass st).2 = true →
  support (inference_pass st).1 ⊂ support st
  ∨ (support (inference_pass st).1 ⊆ U
     ∧ unseen U (inference_pass st).1 ⊂ unseen U st).
Proof.
  intros HS HU. unfold inference_pass.
  destruct (simplification_pass_support st) as (Hsub & Hsame & Hless).
  destruct (simplification_pass st) as [st1 ch]. simpl in Hsub, Hsame, Hless.
  destruct (new_sentences (knowledge st1)) as [|s new] eqn:Enew; simpl.
  - intros ->. left. by apply Hless.
  - intros _. rewrite <- Enew.
    assert (new_sentences (knowledge st1) ≠ []) as Hne by (by rewrite Enew).
    rewrite support_new_sentences. destruct ch.
    + left. by apply Hless.
    + right. rewrite (Hsame eq_refl) in *. split; [done|].
      by apply (unseen_new_sentences g).
Qed.

Lemma inference_loop_terminates (g : Minesweeper.t) (st : Agent) :
  Sound g st → ∃ fuel st', inference_loop fuel st = Some st'.
Proof.
  remember (S (size (support st))) as n eqn:En.
  assert (size (support st) < n)%nat as Hn by lia. clear En.
  revert st Hn. induction n as [|n IHn]; intros st Hn HS; [lia|].
  (* the cell sets over the present support are used up one by one *)
  set (U := support st).
  assert (support st ⊆ U) as HU by done.
  assert (size U ≤ n)%nat as HUn by (subst U; lia).
  clearbody U. clear Hn.
  remember (S (size (unseen U st))) as m eqn:Em.
  assert (size (unseen U st) < m)%nat as Hm by lia. clear Em.
  revert st HS HU Hm. induction m as [|m IHm]; intros st HS HU Hm; [lia|].
  pose proof (Sound_inference_pass g st HS) as HS'.
  pose proof (inference_pass_progress g U st HS HU) as Hp.
  assert (∀ fuel, inference_loop (S fuel) st =
    let '(st', changed) := inference_pass st in
    if changed then inference_loop fuel st' else Some st') as Hstep by done.
  destruct (inference_pass st) as [st1 [|]]; simpl in HS', Hp.
  - destruct (Hp eq_refl) as [Hless|[HU1 Hless]].
    + destruct (IHn st1) as (fuel & st' & Hl); [|done|].
      * apply subset_size in Hless. apply subseteq_size in HU. lia.
      * exists (S fuel), st'. by rewrite Hstep.
    + destruct (IHm st1) as (fuel & st' & Hl); [done|done| |].
      * apply subset_size in Hless. lia.
      * exists (S fuel), st'. by rewrite Hstep.
  - exists 1%nat, st1. by rewrite Hstep.
Qed.

Lemma add_knowledge_terminates (g : Minesweeper.t) (cell : Cell) (st : Agent) :
  Sound g st → cell ∉ Minesweeper.mines g →
  ∃ fuel st',
    add_knowledge fuel cell (Minesweeper.nearby_mines g cell) st = Some st'
    ∧ inference_pass st' = (st', false).
Proof.
  intros HS Hc.
  destruct (inference_loop_terminates g
              (observe cell (Minesweeper.nearby_mines g cell) st))
    as (fuel & st' & Hl); [by apply Sound_observe|].
  exists fuel, st'. split; [done|]. by eapply inference_loop_fixpoint.
Qed.

(** ** Calls of the public interface *)


Lemma grows_observes (g : Minesweeper.t) (st st' : Agent) :
  rtc (observes g) st st' → grows st st'.
Proof.
  induction 1 as [|st st1 st' [cell fuel _ _ Hk] _ IH]; [apply grows_refl|].
  eapply grows_trans; [|done]. by eapply grows_add_knowledge.
Qed.

(** ** Play with the three calls *)






(** A game of observations is a game of calls that are true of the board. *)
Lemma observes_plays (g : Minesweeper.t) (st st' : Agent) :
  observes g st st' → plays g st st'.
Proof.
  intros [cell fuel Hb Hm Hk].
  apply (plays_intro g st st' fuel
           (RecordObservation cell (Minesweeper.nearby_mines g cell)));
    [by apply true_observation|done].
Qed.

Lemma reachable_played (g : Minesweeper.t) (st : Agent) :
  reachable g st → played g st.
Proof.
  unfold reachable, played. apply rtc_subrel. apply observes_plays.
Qed.

(** ** The examples used below *)

Lemma reachable_init (g : Minesweeper.t) :
  reachable g (init (Minesweeper.height g) (Minesweeper.width g)).
Proof. apply rtc_refl. Qed.

(** Opening the corner of an empty 4 by 4 board: the clue 0 makes the three
    neighbours safe in the first pass, the second pass changes nothing. *)
Example open_corner_clue_zero :
  add_knowledge 2 (0, 0) 0 (init 4 4)
  = Some {| height := 4; width := 4;
            moves_made := {[(0, 0)]}; mines := ∅;
            safes := {[(0, 0); (0, 1); (1, 0); (1, 1)]};
            knowledge := [ {| cells := ∅; count := 0 |} ] |}.
Proof. by vm_compute. Qed.

(** A sentence whose count is the number of its cells: both are mines after
    one pass. *)
Example all_mines_after_one_pass :
  (inference_pass
     {| height := 4; width := 4; moves_made := ∅; mines := ∅; safes := ∅;
        knowledge := [ {| cells := {[(0, 0); (0, 1)]}; count := 2 |} ] |}).1
  = {| height := 4; width := 4; moves_made := ∅;
       mines := {[(0, 0); (0, 1)]}; safes := ∅;
       knowledge := [ {| cells := ∅; count := 0 |} ] |}.
Proof. by vm_compute. Qed.

Lemma reachable_corner_two : reachable corner_board corner_two.
Proof.
  eapply rtc_l; [|eapply rtc_l; [|apply rtc_refl]].
  - apply (observes_intro corner_board _ corner_one (0, 0) 1); by vm_compute.
  - apply (observes_intro corner_board _ corner_two (0, 1) 1); by vm_compute.
Qed.

Lemma reachable_corner_three : reachable corner_board corner_three.
Proof.
  eapply rtc_r; [apply reachable_corner_two|].
  apply (observes_intro corner_board _ corner_three (1, 0) 2); by vm_compute.
Qed.

(** ** Move selection *)

Lemma elem_of_valid_moves (st : Agent) (c : Cell) :
  c ∈ valid_moves st ↔
    in_bounds (height st) (width st) c = true
    ∧ (c ∉ moves_made st) ∧ (c ∉ mines st).
Proof.
  unfold valid_moves. rewrite list_elem_of_bind. split.
  - intros (i & Hin & Hi). apply list_elem_of_bind in Hin as (j & Hin & Hj).
    apply elem_of_seqZ in Hi, Hj.
    destruct (bool_decide ((i, j) ∉ moves_made st)
              && bool_decide ((i, j) ∉ mines st)) eqn:E.
    2:{ by apply elem_of_nil in Hin. }
    apply list_elem_of_singleton in Hin as ->.
    apply andb_true_iff in E as [E1 E2].
    apply bool_decide_eq_true in E1, E2.
    split_and!; try done. apply in_bounds_spec. simpl. lia.
  - intros (Hb & H1 & H2). apply in_bounds_spec in Hb.
    exists c.1. split; [|apply elem_of_seqZ; lia].
    apply list_elem_of_bind. exists c.2. split; [|apply elem_of_seqZ; lia].
    destruct c as [i j]. simpl.
    rewrite !bool_decide_eq_true_2 by done. by apply list_elem_of_singleton.
Qed.

(** A draw from a list that is not empty is an element of the list. *)
Lemma choice_cons {A} (rnd : nat) (x : A) (l : list A) :
  choice rnd (x :: l) ≠ None.
Proof.
  unfold choice. intros E. apply lookup_ge_None in E.
  pose proof (Nat.mod_upper_bound rnd (length (x :: l))) as Hlt.
  simpl in *. lia.
Qed.

Lemma choice_elem_of {A} (rnd : nat) (x : A) (l : list A) :
  choice rnd l = Some x → x ∈ l.
Proof. unfold choice. apply list_elem_of_lookup_2. Qed.

(** ** A pass over sentences without facts *)

Lemma simplify_at_no_facts (i : nat) (st : Agent) (ch : bool) (s : Sentence) :
  knowledge st !! i = Some s → known_mines s = ∅ → known_safes s = ∅ →
  simplify_at i (st, ch) = (st, ch).
Proof.
  intros Hi Hm Hs. unfold simplify_at. rewrite Hi, Hm.
  rewrite bool_decide_eq_false_2 by (intros H; by apply H).
  rewrite Hi, Hs.
  rewrite bool_decide_eq_false_2 by (intros H; by apply H). done.
Qed.

Lemma simplification_pass_no_facts (st : Agent) :
  Forall (λ s, known_mines s = ∅ ∧ known_safes s = ∅) (knowledge st) →
  simplification_pass st = (st, false).
Proof.
  intros H. unfold simplification_pass.
  assert (∀ l, foldl (λ acc i, simplify_at i acc) (st, false) l = (st, false))
    as Hl; [|apply Hl].
  induction l as [|i l IH]; cbn [foldl]; [done|].
  destruct (knowledge st !! i) as [s|] eqn:Ei.
  - rewrite Forall_forall in H.
    destruct (H s (list_elem_of_lookup_2 _ _ _ Ei)) as [Hm Hs].
    by rewrite (simplify_at_no_facts i st false s).
  - unfold simplify_at at 2. by rewrite Ei.
Qed.

(** ** A run of the loop that never ends

    Two sentences over the same two cells [a], [b] with the counts 10 and 20,
    and a sentence over [b] alone with an odd multiple of 5 as count, cannot
    all be true; no sentence ever yields a fact, and every resolution pass
    finds a new count for [a] or for [b]. *)

Section Divergence.

Variables a b : Cell.
Hypothesis a_neq_b : a ≠ b.

Lemma len_pair : len {[a; b]} = 2.
Proof using a_neq_b.
  unfold len. rewrite size_union by set_solver. by rewrite !size_singleton.
Qed.

Lemma len_singleton (c : Cell) : len {[c]} = 1.
Proof. unfold len. by rewrite size_singleton. Qed.

Lemma clash_no_facts (s : Sentence) :
  clash a b s → known_mines s = ∅ ∧ known_safes s = ∅.
Proof using a_neq_b.
  unfold clash, odd5, known_mines, known_safes.
  intros [[Hc Hk]|[Hc [q Hk]]].
  - rewrite Hc, len_pair. split; rewrite bool_decide_eq_false_2; (done || lia).
  - assert (len (cells s) = 1) as ->
      by (destruct Hc as [-> | ->]; apply len_singleton).
    split; rewrite bool_decide_eq_false_2; (done || lia).
Qed.

Lemma clash_difference (s1 s2 : Sentence) :
  clash a b s1 → clash a b s2 → cells s1 ⊆ cells s2 → cells s2 ∖ cells s1 ≠ ∅ →
  clash a b {| cells := cells s2 ∖ cells s1; count := count s2 - count s1 |}.
Proof using a_neq_b.
  unfold clash, odd5. simpl.
  intros [[H1 K1]|[H1 [q1 K1]]] [[H2 K2]|[H2 [q2 K2]]] Hsub Hne.
  - exfalso. apply Hne. rewrite H1, H2. set_solver.
  - exfalso. rewrite H1 in Hsub. destruct H2 as [H2|H2]; rewrite H2 in Hsub;
      set_solver.
  - right. rewrite H2. split.
    + destruct H1 as [-> | ->]; [right|left]; set_solver.
    + destruct K2 as [-> | ->]; [exists (- q1)|exists (1 - q1)]; lia.
  - exfalso. destruct H1 as [H1|H1], H2 as [H2|H2];
      rewrite H1, H2 in Hsub, Hne; set_solver.
Qed.

Lemma pair_facts :
  ({[a]} : gset Cell) ⊆ {[a; b]} ∧ ({[b]} : gset Cell) ⊆ {[a; b]}
  ∧ ({[a; b]} : gset Cell) ∖ {[b]} = {[a]}
  ∧ ({[a; b]} : gset Cell) ∖ {[a]} = {[b]}
  ∧ ({[a]} : gset Cell) ≠ ∅ ∧ ({[b]} : gset Cell) ≠ ∅
  ∧ ({[a; b]} : gset Cell) ≠ ∅.
Proof using a_neq_b. split_and!; set_solver. Qed.

Lemma pair_neq_a : ({[a]} : gset Cell) ≠ {[a; b]}.
Proof using a_neq_b.
  intros E. assert (b ∈ ({[a]} : gset Cell)) as Hb.
  { rewrite E. apply elem_of_union_r. by apply elem_of_singleton. }
  apply elem_of_singleton in Hb. by apply a_neq_b.
Qed.

Lemma pair_neq_b : ({[b]} : gset Cell) ≠ {[a; b]}.
Proof using a_neq_b.
  intros E. assert (a ∈ ({[b]} : gset Cell)) as Ha.
  { rewrite E. apply elem_of_union_l. by apply elem_of_singleton. }
  apply elem_of_singleton in Ha. by apply a_neq_b.
Qed.

(** Without a new sentence the knowledge base would hold [b] with ever
    smaller counts. *)
Lemma closed_descent (kb : list Sentence) (v : Z) (k : nat) :
  clashing a b kb → new_sentences kb = [] →
  {| cells := {[b]}; count := v |} ∈ kb →
  {| cells := {[b]}; count := v - 10 * Z.of_nat k |} ∈ kb.
Proof using a_neq_b.
  intros (Hall & H10 & H20 & _) Hnew. revert v.
  assert (∀ s1 s2, s1 ∈ kb → s2 ∈ kb →
            cells s1 ⊆ cells s2 → s1 ≠ s2 → cells s1 ≠ ∅ → cells s2 ≠ ∅ →
            cells s2 ∖ cells s1 ≠ ∅ →
            {| cells := cells s2 ∖ cells s1; count := count s2 - count s1 |}
            ∈ kb) as Hclosed.
  { intros s1 s2 H1 H2 Hsub Hne Hn1 Hn2 Hd.
    destruct (decide ({| cells := cells s2 ∖ cells s1;
                         count := count s2 - count s1 |} ∈ kb)) as [|Hn];
      [done|].
    assert ({| cells := cells s2 ∖ cells s1; count := count s2 - count s1 |}
            ∈ new_sentences kb) as Hin.
    { apply elem_of_new_sentences. exists s1, s2. tauto. }
    rewrite Hnew in Hin. by apply elem_of_nil in Hin. }
  assert (∀ v, {| cells := {[b]}; count := v |} ∈ kb →
               {| cells := {[b]}; count := v - 10 |} ∈ kb) as Hstep.
  { destruct pair_facts as (Sa & Sb & Eab & Eba & Na & Nb & Nab).
    intros v Hv.
    pose proof (Hclosed _ _ Hv H20) as Ha. simpl in Ha. rewrite Eab in Ha.
    assert ({| cells := {[a]}; count := 20 - v |} ∈ kb) as Hav.
    { apply Ha; try done. intros E. apply (f_equal cells) in E.
      simpl in E. by apply pair_neq_b. }
    pose proof (Hclosed _ _ Hav H10) as Hb. simpl in Hb. rewrite Eba in Hb.
    replace (v - 10) with (10 - (20 - v)) by lia.
    apply Hb; try done. intros E. apply (f_equal cells) in E.
    simpl in E. by apply pair_neq_a. }
  induction k as [|k IH]; intros v Hv.
  - by replace (v - 10 * Z.of_nat 0) with v by lia.
  - replace (v - 10 * Z.of_nat (S k)) with ((v - 10) - 10 * Z.of_nat k) by lia.
    apply IH, Hstep, Hv.
Qed.

Lemma count_lower_bound (kb : list Sentence) :
  ∃ low, Forall (λ s, low <= count s) kb.
Proof.
  induction kb as [|s kb [low IH]].
  - exists 0. constructor.
  - exists (Z.min low (count s)). constructor; [lia|].
    eapply Forall_impl; [done|]. simpl. lia.
Qed.

Lemma clashing_new_sentences (kb : list Sentence) :
  clashing a b kb → new_sentences kb ≠ [].
Proof using a_neq_b.
  intros Hc Hnew. pose proof Hc as (_ & _ & _ & v & Hv).
  destruct (count_lower_bound kb) as [low Hlow].
  rewrite Forall_forall in Hlow.
  pose proof (closed_descent kb v (Z.to_nat (v - low) + 1) Hc Hnew Hv) as Hin.
  apply Hlow in Hin. simpl in Hin. lia.
Qed.

Lemma clashing_pass (st : Agent) :
  clashing a b (knowledge st) →
  ∃ st', inference_pass st = (st', true) ∧ clashing a b (knowledge st').
Proof using a_neq_b.
  intros Hc. unfold inference_pass.
  rewrite simplification_pass_no_facts.
  2:{ destruct Hc as [Hall _]. eapply Forall_impl; [done|].
      apply clash_no_facts. }
  pose proof (clashing_new_sentences _ Hc) as Hne.
  destruct (new_sentences (knowledge st)) as [|s new] eqn:E; [done|].
  eexists. split; [done|]. simpl. rewrite <- E.
  destruct Hc as (Hall & H10 & H20 & v & Hv).
  split_and!; try (apply elem_of_app; by left).
  - apply Forall_app. split; [done|].
    rewrite Forall_forall in Hall. apply Forall_forall. intros s' Hs'.
    apply elem_of_new_sentences in Hs'
      as (s1 & s2 & H1 & H2 & Hsub & _ & _ & _ & -> & Hd & _).
    apply clash_difference; auto.
  - exists v. apply elem_of_app. by left.
Qed.

Lemma clashing_loop (fuel : nat) (st : Agent) :
  clashing a b (knowledge st) → inference_loop fuel st = None.
Proof using a_neq_b.
  revert st. induction fuel as [|fuel IH]; intros st Hc; simpl; [done|].
  destruct (clashing_pass st Hc) as (st' & -> & Hc'). by apply IH.
Qed.

End Divergence.

(** ** Sentences stay where they are *)

Lemma persists_refl (kb : list Sentence) : persists kb kb.
Proof. intros i s H. eauto. Qed.

Lemma persists_trans (kb1 kb2 kb3 : list Sentence) :
  persists kb1 kb2 → persists kb2 kb3 → persists kb1 kb3.
Proof.
  intros H12 H23 i s H.
  destruct (H12 i s H) as (s2 & H2 & Hsub2 & He2).
  destruct (H23 i s2 H2) as (s3 & H3 & Hsub3 & He3).
  exists s3. split; [done|]. split; [set_solver|].
  intros E. rewrite <- (He2 E). apply He3. set_solver.
Qed.

Lemma persists_app (kb new : list Sentence) : persists kb (kb ++ new).
Proof.
  intros i s H. exists s. split; [|done]. by apply lookup_app_l_Some.
Qed.

Lemma persists_mark_mine (c : Cell) (kb : list Sentence) :
  persists kb (Sentence_.mark_mine c <$> kb).
Proof.
  intros i s H. exists (Sentence_.mark_mine c s).
  rewrite list_lookup_fmap, H, cells_mark_mine. split; [done|].
  split; [set_solver|]. intros E. apply mark_mine_absent. set_solver.
Qed.

Lemma persists_mark_safe (c : Cell) (kb : list Sentence) :
  persists kb (Sentence_.mark_safe c <$> kb).
Proof.
  intros i s H. exists (Sentence_.mark_safe c s).
  rewrite list_lookup_fmap, H, cells_mark_safe. split; [done|].
  split; [set_solver|]. intros E. apply mark_safe_absent. set_solver.
Qed.

Lemma persists_mark_mines (l : list Cell) (st : Agent) :
  persists (knowledge st) (knowledge (mark_mines l st)).
Proof.
  revert st. induction l as [|c l IH]; intros st; simpl; [apply persists_refl|].
  eapply persists_trans; [|apply IH]. apply persists_mark_mine.
Qed.

Lemma persists_mark_safes (l : list Cell) (st : Agent) :
  persists (knowledge st) (knowledge (mark_safes l st)).
Proof.
  revert st. induction l as [|c l IH]; intros st; simpl; [apply persists_refl|].
  eapply persists_trans; [|apply IH]. apply persists_mark_safe.
Qed.

Lemma persists_inference_loop (fuel : nat) (st st' : Agent) :
  inference_loop fuel st = Some st' → persists (knowledge st) (knowledge st').
Proof.
  revert st. induction fuel as [|fuel IH]; intros st; simpl; [done|].
  assert (persists (knowledge st) (knowledge (inference_pass st).1)) as H.
  { apply (inference_pass_ind
             (λ st' _, persists (knowledge st) (knowledge st'))).
    - apply persists_refl.
    - intros st1 _ s H _ _.
      eapply persists_trans; [done|apply persists_mark_mines].
    - intros st1 _ s H _ _.
      eapply persists_trans; [done|apply persists_mark_safes].
    - intros st1 _ H _. eapply persists_trans; [done|apply persists_app]. }
  destruct (inference_pass st) as [st1 [|]]; simpl in H.
  - intros Hl. eapply persists_trans; [done|by apply IH].
  - by intros [= <-].
Qed.

Lemma persists_observe (cell : Cell) (clue : Z) (st : Agent) :
  persists (knowledge st) (knowledge (observe cell clue st)).
Proof.
  unfold observe.
  destruct (filter_neighbors _ _) as [[|n unknown] k]; simpl.
  - apply persists_mark_safe.
  - eapply persists_trans; [apply persists_mark_safe|apply persists_app].
Qed.

Lemma persists_do_call (fuel : nat) (c : call) (st st' : Agent) :
  do_call fuel c st = Some st' → persists (knowledge st) (knowledge st').
Proof.
  destruct c; simpl.
  - intros H. eapply persists_trans; [apply persists_observe|].
    by eapply persists_inference_loop.
  - intros [= <-]. apply persists_mark_mine.
  - intros [= <-]. apply persists_mark_safe.
Qed.

Lemma resolve_pair_empty_l (kb : list Sentence) (s s' : Sentence) :
  cells s = ∅ → resolve_pair kb s s' = [].
Proof.
  intros E. apply elem_of_nil_inv. intros x Hx.
  apply elem_of_resolve_pair in Hx. tauto.
Qed.

Lemma resolve_pair_empty_r (kb : list Sentence) (s s' : Sentence) :
  cells s = ∅ → resolve_pair kb s' s = [].
Proof.
  intros E. apply elem_of_nil_inv. intros x Hx.
  apply elem_of_resolve_pair in Hx. tauto.
Qed.

(** ** Sentences without cells are inert *)

Lemma replay_app (log1 log2 : list mark) (st : Agent) :
  replay (log1 ++ log2) st = replay log2 (replay log1 st).
Proof. apply foldl_app. Qed.

Lemma replay_sentence_app (log1 log2 : list mark) (s : Sentence) :
  replay_sentence (log1 ++ log2) s
  = replay_sentence log2 (replay_sentence log1 s).
Proof. apply foldl_app. Qed.

Lemma replay_mines (l : list Cell) (st : Agent) :
  replay (MarkedMine <$> l) st = mark_mines l st.
Proof. revert st. induction l as [|c l IH]; intros st; simpl; [done|apply IH]. Qed.

Lemma replay_safes (l : list Cell) (st : Agent) :
  replay (MarkedSafe <$> l) st = mark_safes l st.
Proof. revert st. induction l as [|c l IH]; intros st; simpl; [done|apply IH]. Qed.

Lemma knowledge_replay (log : list mark) (st : Agent) :
  knowledge (replay log st) = replay_sentence log <$> knowledge st.
Proof.
  revert st. induction log as [|m log IH]; intros st; simpl.
  - by rewrite list_fmap_id.
  - rewrite IH. destruct m; simpl; by rewrite <- list_fmap_compose.
Qed.

Lemma replay_sentence_empty (log : list mark) (s : Sentence) :
  cells s = ∅ → replay_sentence log s = s.
Proof.
  intros E. induction log as [|m log IH] using rev_ind; [done|].
  rewrite replay_sentence_app, IH. simpl.
  destruct m; [apply mark_mine_absent|apply mark_safe_absent]; set_solver.
Qed.

Lemma replay_alike (log : list mark) (st st' : Agent) :
  height st = height st' ∧ width st = width st'
  ∧ moves_made st = moves_made st' ∧ mines st = mines st'
  ∧ safes st = safes st' →
  height (replay log st) = height (replay log st')
  ∧ width (replay log st) = width (replay log st')
  ∧ moves_made (replay log st) = moves_made (replay log st')
  ∧ mines (replay log st) = mines (replay log st')
  ∧ safes (replay log st) = safes (replay log st').
Proof.
  revert st st'. induction log as [|m log IH]; intros st st' H; simpl; [done|].
  apply IH. destruct H as (H1 & H2 & H3 & H4 & H5).
  destruct m; simpl; rewrite ?H1, ?H2, ?H3, ?H4, ?H5; done.
Qed.

(** The pass of the code, sentence by sentence through the positions of the
    list, is the loop over the sentences with the log of marks. *)
Lemma simplify_at_replay
    (st0 : Agent) (rest : list Sentence) (i : nat) (log : list mark) (ch : bool) :
  drop i (knowledge st0) = rest →
  foldl (λ acc i, simplify_at i acc) (replay log st0, ch) (seq i (length rest))
  = ((replay (simplify_from log ch rest).1 st0), (simplify_from log ch rest).2).
Proof.
  revert i log ch. induction rest as [|s rest IH]; intros i log ch Hd; [done|].
  assert (knowledge st0 !! i = Some s) as Hi.
  { pose proof (lookup_drop (knowledge st0) i 0) as H.
    rewrite Hd, Nat.add_0_r in H. done. }
  assert (drop (S i) (knowledge st0) = rest) as Hd'.
  { replace (S i) with (i + 1)%nat by lia. by rewrite <- drop_drop, Hd. }
  cbn [length seq foldl simplify_from].
  rewrite <- (IH (S i)) by done. f_equal.
  unfold simplify_at.
  rewrite knowledge_replay, list_lookup_fmap, Hi. cbn [fmap option_fmap option_map].
  set (s1 := replay_sentence log s).
  assert ((if bool_decide (known_mines s1 ≠ ∅)
           then (mark_mines (elements (known_mines s1)) (replay log st0), true)
           else (replay log st0, ch))
          = (replay (log ++ (MarkedMine <$> elements (known_mines s1))) st0,
             if bool_decide (known_mines s1 ≠ ∅) then true else ch)) as ->.
  { rewrite replay_app, replay_mines. case_bool_decide as E; [done|].
    by rewrite E, elements_empty. }
  rewrite knowledge_replay, list_lookup_fmap, Hi. cbn [fmap option_fmap option_map].
  rewrite replay_sentence_app. fold s1.
  set (s2 := replay_sentence (MarkedMine <$> elements (known_mines s1)) s1).
  rewrite (app_assoc log), (replay_app (log ++ _)), replay_safes.
  case_bool_decide as E; [done|].
  by rewrite E, elements_empty.
Qed.

Lemma simplification_pass_replay (st : Agent) :
  simplification_pass st
  = (replay (simplify_from [] false (knowledge st)).1 st,
     (simplify_from [] false (knowledge st)).2).
Proof.
  unfold simplification_pass.
  by rewrite <- (simplify_at_replay st (knowledge st) 0 [] false).
Qed.

Lemma prune_cons_nonempty (s : Sentence) (kb : list Sentence) :
  cells s ≠ ∅ → prune (s :: kb) = s :: prune kb.
Proof. intros H. unfold prune. by rewrite filter_cons, decide_True. Qed.

Lemma prune_cons_empty (s : Sentence) (kb : list Sentence) :
  cells s = ∅ → prune (s :: kb) = prune kb.
Proof.
  intros H. unfold prune. rewrite filter_cons, decide_False; [done|].
  intros Hn. by apply Hn.
Qed.

Lemma prune_app (kb1 kb2 : list Sentence) :
  prune (kb1 ++ kb2) = prune kb1 ++ prune kb2.
Proof. apply filter_app. Qed.

Lemma elem_of_prune (s : Sentence) (kb : list Sentence) :
  s ∈ prune kb ↔ cells s ≠ ∅ ∧ s ∈ kb.
Proof. unfold prune. by rewrite list_elem_of_filter. Qed.

(** A sentence without cells is passed over. *)
Lemma simplify_from_prune (log : list mark) (ch : bool) (kb : list Sentence) :
  simplify_from log ch (prune kb) = simplify_from log ch kb.
Proof.
  revert log ch. induction kb as [|s kb IH]; intros log ch; [done|].
  destruct (decide (cells s = ∅)) as [He|Hne].
  - rewrite prune_cons_empty by done. simpl.
    rewrite (replay_sentence_empty log s He).
    rewrite (known_mines_empty_cells s He), elements_empty. simpl.
    rewrite (known_safes_empty_cells s He), elements_empty. simpl.
    rewrite !bool_decide_eq_false_2 by (intros H; by apply H).
    by rewrite app_nil_r, IH.
  - rewrite prune_cons_nonempty by done. simpl. by rewrite IH.
Qed.

Lemma prune_fmap_inert (f : Sentence → Sentence) (kb : list Sentence) :
  (∀ s, cells s = ∅ → f s = s) →
  prune (f <$> prune kb) = prune (f <$> kb).
Proof.
  intros Hf. induction kb as [|s kb IH]; [done|].
  destruct (decide (cells s = ∅)) as [He|Hne].
  - rewrite prune_cons_empty by done. rewrite fmap_cons, (Hf s He).
    by rewrite (prune_cons_empty s) by done.
  - rewrite prune_cons_nonempty by done. rewrite !fmap_cons.
    destruct (decide (cells (f s) = ∅)) as [He'|Hne'].
    + by rewrite !(prune_cons_empty (f s)) by done.
    + rewrite !(prune_cons_nonempty (f s)) by done. by rewrite IH.
Qed.

Lemma prune_fmap_replay (log : list mark) (kb : list Sentence) :
  prune (replay_sentence log <$> prune kb) = prune (replay_sentence log <$> kb).
Proof. apply prune_fmap_inert. intros s. apply replay_sentence_empty. Qed.

Lemma simplification_pass_alike (st st' : Agent) :
  alike st st' →
  alike (simplification_pass st).1 (simplification_pass st').1
  ∧ (simplification_pass st).2 = (simplification_pass st').2.
Proof.
  intros (H1 & H2 & H3 & H4 & H5 & Hk).
  rewrite !simplification_pass_replay. simpl.
  rewrite <- (simplify_from_prune _ _ (knowledge st)), Hk, simplify_from_prune.
  split; [|done].
  set (log := (simplify_from [] false (knowledge st')).1).
  destruct (replay_alike log st st') as (R1 & R2 & R3 & R4 & R5); [done|].
  unfold alike. split_and!; try done.
  rewrite !knowledge_replay.
  by rewrite <- (prune_fmap_replay log (knowledge st)), Hk, prune_fmap_replay.
Qed.

Lemma resolve_pair_prune (kb : list Sentence) (s1 s2 : Sentence) :
  resolve_pair (prune kb) s1 s2 = resolve_pair kb s1 s2.
Proof.
  unfold resolve_pair.
  destruct (bool_decide (cells s1 ⊆ cells s2) && bool_decide (s1 ≠ s2)
            && bool_decide (len (cells s1) > 0)
            && bool_decide (len (cells s2) > 0)); [|done].
  case_bool_decide as Hne; [|done].
  rewrite (bool_decide_ext
             ({| cells := cells s2 ∖ cells s1; count := count s2 - count s1 |}
              ∉ prune kb)
             ({| cells := cells s2 ∖ cells s1; count := count s2 - count s1 |}
              ∉ kb)); [done|].
  rewrite elem_of_prune. simpl. tauto.
Qed.

Lemma bind_prune (f : Sentence → list Sentence) (kb : list Sentence) :
  (∀ s, cells s = ∅ → f s = []) → prune kb ≫= f = kb ≫= f.
Proof.
  intros Hf. induction kb as [|s kb IH]; [done|].
  destruct (decide (cells s = ∅)) as [He|Hne].
  - rewrite prune_cons_empty by done. by rewrite bind_cons, (Hf s He), IH.
  - rewrite prune_cons_nonempty by done. by rewrite !bind_cons, IH.
Qed.

Lemma bind_all_nil (f : Sentence → list Sentence) (kb : list Sentence) :
  (∀ s, f s = []) → kb ≫= f = [].
Proof.
  intros Hf. induction kb as [|s kb IH]; [done|].
  by rewrite bind_cons, Hf, IH.
Qed.

(** The resolution pass stages the same sentences, in the same order, with
    or without the sentences that have no cells. *)
Lemma new_sentences_prune (kb : list Sentence) :
  new_sentences (prune kb) = new_sentences kb.
Proof.
  unfold new_sentences. rewrite bind_prune.
  - apply list_bind_ext; [|done]. intros s1. rewrite bind_prune.
    + apply list_bind_ext; [|done]. intros s2. apply resolve_pair_prune.
    + intros s2 He. by apply resolve_pair_empty_r.
  - intros s1 He. apply bind_all_nil. intros s2. by apply resolve_pair_empty_l.
Qed.

Lemma inference_pass_alike (st st' : Agent) :
  alike st st' →
  alike (inference_pass st).1 (inference_pass st').1
  ∧ (inference_pass st).2 = (inference_pass st').2.
Proof.
  intros H. unfold inference_pass.
  destruct (simplification_pass_alike st st' H) as [Ha Hc].
  destruct (simplification_pass st) as [st1 ch].
  destruct (simplification_pass st') as [st1' ch']. simpl in Ha, Hc. subst ch'.
  pose proof Ha as (H1 & H2 & H3 & H4 & H5 & Hk).
  assert (new_sentences (knowledge st1) = new_sentences (knowledge st1'))
    as Hnew.
  { by rewrite <- (new_sentences_prune (knowledge st1)), Hk,
      new_sentences_prune. }
  rewrite <- Hnew.
  destruct (new_sentences (knowledge st1)) as [|s new] eqn:E; [done|].
  simpl. split; [|done]. unfold alike. simpl. split_and!; try done.
  by rewrite !prune_app, Hk.
Qed.

Lemma inference_loop_alike (fuel : nat) (st st' : Agent) :
  alike st st' →
  match inference_loop fuel st, inference_loop fuel st' with
  | Some r, Some r' => alike r r'
  | None, None => True
  | _, _ => False
  end.
Proof.
  revert st st'. induction fuel as [|fuel IH]; intros st st' H; simpl; [done|].
  destruct (inference_pass_alike st st' H) as [Ha Hc].
  destruct (inference_pass st) as [st1 ch].
  destruct (inference_pass st') as [st1' ch']. simpl in Ha, Hc. subst ch'.
  destruct ch; [by apply IH|done].
Qed.

Lemma observe_alike (cell : Cell) (clue : Z) (st st' : Agent) :
  alike st st' → alike (observe cell clue st) (observe cell clue st').
Proof.
  intros (H1 & H2 & H3 & H4 & H5 & Hk). unfold observe, filter_neighbors.
  simpl. rewrite H1, H2, H3, H4, H5.
  assert (prune (Sentence_.mark_safe cell <$> knowledge st)
          = prune (Sentence_.mark_safe cell <$> knowledge st')) as Hk'.
  { rewrite <- (prune_fmap_inert _ (knowledge st)), Hk, prune_fmap_inert;
      [done| |]; intros s He; apply mark_safe_absent; set_solver. }
  destruct (foldl _ _ _) as [[|n unknown] k]; unfold alike; simpl;
    split_and!; try done.
  by rewrite !prune_app, Hk'.
Qed.

Lemma mark_mine_alike (c : Cell) (st st' : Agent) :
  alike st st' → alike (mark_mine c st) (mark_mine c st').
Proof.
  intros (H1 & H2 & H3 & H4 & H5 & Hk). unfold alike. simpl.
  rewrite H1, H2, H3, H4, H5. split_and!; try done.
  rewrite <- (prune_fmap_inert _ (knowledge st)), Hk, prune_fmap_inert;
    [done| |]; intros s He; apply mark_mine_absent; set_solver.
Qed.

Lemma mark_safe_alike (c : Cell) (st st' : Agent) :
  alike st st' → alike (mark_safe c st) (mark_safe c st').
Proof.
  intros (H1 & H2 & H3 & H4 & H5 & Hk). unfold alike. simpl.
  rewrite H1, H2, H3, H4, H5. split_and!; try done.
  rewrite <- (prune_fmap_inert _ (knowledge st)), Hk, prune_fmap_inert;
    [done| |]; intros s He; apply mark_safe_absent; set_solver.
Qed.

Lemma do_call_alike (fuel : nat) (c : call) (st st' : Agent) :
  alike st st' →
  match do_call fuel c st, do_call fuel c st' with
  | Some r, Some r' => alike r r'
  | None, None => True
  | _, _ => False
  end.
Proof.
  intros H. destruct c; simpl.
  - by apply inference_loop_alike, observe_alike.
  - by apply mark_mine_alike.
  - by apply mark_safe_alike.
Qed.

Lemma alike_prune (st : Agent) :
  alike st (set_knowledge (prune (knowledge st)) st).
Proof.
  unfold alike. simpl. split_and!; try done.
  unfold prune. by rewrite list_filter_filter_l.
Qed.

Lemma persists_length (kb kb' : list Sentence) :
  persists kb kb' → (length kb ≤ length kb')%nat.
Proof.
  intros H. destruct (decide (length kb ≤ length kb')%nat) as [|Hlt]; [done|].
  destruct (lookup_lt_is_Some_2 kb (length kb')) as [s Hs]; [lia|].
  destruct (H _ _ Hs) as (s' & Hs' & _).
  apply lookup_lt_Some in Hs'. lia.
Qed.

(** ** No call of [set.remove] raises *)

Lemma checked_sentence_mark_mine (c : Cell) (s : Sentence) :
  Checked.sentence_mark_mine c s = Checked.Returns (Sentence_.mark_mine c s).
Proof.
  unfold Checked.sentence_mark_mine, Sentence_.mark_mine, Checked.remove.
  by case_bool_decide.
Qed.

Lemma checked_sentence_mark_safe (c : Cell) (s : Sentence) :
  Checked.sentence_mark_safe c s = Checked.Returns (Sentence_.mark_safe c s).
Proof.
  unfold Checked.sentence_mark_safe, Sentence_.mark_safe, Checked.remove.
  by case_bool_decide.
Qed.

Lemma checked_for_each
    (f : Sentence → Checked.outcome Sentence) (f' : Sentence → Sentence)
    (kb : list Sentence) :
  (∀ s, f s = Checked.Returns (f' s)) →
  Checked.for_each f kb = Checked.Returns (f' <$> kb).
Proof.
  intros Hf. induction kb as [|s kb IH]; simpl; [done|].
  by rewrite Hf, IH.
Qed.

Lemma checked_mark_mine (c : Cell) (st : Agent) :
  Checked.mark_mine c st = Checked.Returns (mark_mine c st).
Proof.
  unfold Checked.mark_mine.
  rewrite (checked_for_each _ (Sentence_.mark_mine c)); [done|].
  apply checked_sentence_mark_mine.
Qed.

Lemma checked_mark_safe (c : Cell) (st : Agent) :
  Checked.mark_safe c st = Checked.Returns (mark_safe c st).
Proof.
  unfold Checked.mark_safe.
  rewrite (checked_for_each _ (Sentence_.mark_safe c)); [done|].
  apply checked_sentence_mark_safe.
Qed.

Lemma checked_mark_mines (l : list Cell) (st : Agent) :
  Checked.mark_mines l st = Checked.Returns (mark_mines l st).
Proof.
  unfold Checked.mark_mines, mark_mines. revert st.
  induction l as [|c l IH]; intros st; simpl; [done|].
  by rewrite checked_mark_mine, IH.
Qed.

Lemma checked_mark_safes (l : list Cell) (st : Agent) :
  Checked.mark_safes l st = Checked.Returns (mark_safes l st).
Proof.
  unfold Checked.mark_safes, mark_safes. revert st.
  induction l as [|c l IH]; intros st; simpl; [done|].
  by rewrite checked_mark_safe, IH.
Qed.

Lemma checked_observe (cell : Cell) (clue : Z) (st : Agent) :
  Checked.observe cell clue st = Checked.Returns (observe cell clue st).
Proof.
  unfold Checked.observe, observe. rewrite checked_mark_safe. simpl.
  by destruct (filter_neighbors _ _) as [[|n unknown] k].
Qed.

Lemma checked_simplify_at (i : nat) (acc : Agent * bool) :
  Checked.simplify_at i acc = Checked.Returns (simplify_at i acc).
Proof.
  destruct acc as [st changed]. unfold Checked.simplify_at, simplify_at.
  destruct (knowledge st !! i) as [s|]; [|done].
  case_bool_decide.
  - rewrite checked_mark_mines. simpl.
    destruct (knowledge _ !! i) as [s'|]; [|done].
    case_bool_decide; [|done]. by rewrite checked_mark_safes.
  - simpl. destruct (knowledge st !! i) as [s'|]; [|done].
    case_bool_decide; [|done]. by rewrite checked_mark_safes.
Qed.

Lemma checked_simplification_pass (st : Agent) :
  Checked.simplification_pass st = Checked.Returns (simplification_pass st).
Proof.
  unfold Checked.simplification_pass, simplification_pass.
  generalize (seq 0 (length (knowledge st))). generalize (st, false).
  intros acc l. revert acc. induction l as [|i l IH]; intros acc; [done|].
  cbn [foldl]. cbn [Checked.bind]. by rewrite checked_simplify_at, IH.
Qed.

Lemma checked_inference_pass (st : Agent) :
  Checked.inference_pass st = Checked.Returns (inference_pass st).
Proof.
  unfold Checked.inference_pass, inference_pass.
  rewrite checked_simplification_pass. simpl.
  destruct (simplification_pass st) as [st1 changed].
  by destruct (new_sentences (knowledge st1)).
Qed.

Lemma checked_inference_loop (fuel : nat) (st : Agent) :
  Checked.inference_loop fuel st
  = match inference_loop fuel st with
    | Some st' => Checked.Returns st'
    | None => Checked.Starves
    end.
Proof.
  revert st. induction fuel as [|fuel IH]; intros st; simpl; [done|].
  rewrite checked_inference_pass. simpl.
  destruct (inference_pass st) as [st' [|]]; [apply IH|done].
Qed.

Lemma checked_add_knowledge (fuel : nat) (cell : Cell) (clue : Z) (st : Agent) :
  Checked.add_knowledge fuel cell clue st
  = match add_knowledge fuel cell clue st with
    | Some st' => Checked.Returns st'
    | None => Checked.Starves
    end.
Proof.
  unfold Checked.add_knowledge, add_knowledge. rewrite checked_observe.
  apply checked_inference_loop.
Qed.

(** ** The loop with at most one sentence that has cells *)

Lemma prune_nil_iff (kb : list Sentence) :
  prune kb = [] ↔ Forall (λ s, cells s = ∅) kb.
Proof.
  unfold prune. induction kb as [|s kb IH]; [by split; [constructor|]|].
  destruct (decide (cells s = ∅)) as [He|Hne].
  - rewrite prune_cons_empty by done. unfold prune. rewrite IH, Forall_cons. tauto.
  - rewrite prune_cons_nonempty by done. rewrite Forall_cons. split; [done|tauto].
Qed.

Lemma inference_pass_no_cells (st : Agent) :
  Forall (λ s, cells s = ∅) (knowledge st) → inference_pass st = (st, false).
Proof.
  intros H. unfold inference_pass. rewrite simplification_pass_no_facts.
  - rewrite <- new_sentences_prune.
    apply prune_nil_iff in H. by rewrite H.
  - eapply Forall_impl; [done|]. intros s He.
    split; [by apply known_mines_empty_cells|by apply known_safes_empty_cells].
Qed.

Lemma new_sentences_singleton (s : Sentence) : new_sentences [s] = [].
Proof.
  unfold new_sentences. simpl. rewrite !app_nil_r. unfold resolve_pair.
  rewrite (bool_decide_eq_false_2 (s ≠ s)) by (intros H; by apply H).
  by rewrite andb_false_r.
Qed.

Lemma cells_mark_mines (l : list Cell) (st : Agent) :
  cells <$> knowledge (mark_mines l st)
  = (λ s, cells s ∖ list_to_set l) <$> knowledge st.
Proof.
  revert st. induction l as [|c l IH]; intros st; simpl.
  - apply list_fmap_ext. intros _ s _. set_solver.
  - rewrite IH. simpl. rewrite <- list_fmap_compose.
    apply list_fmap_ext. intros _ s _. simpl. rewrite cells_mark_mine.
    set_solver.
Qed.

Lemma cells_mark_safes (l : list Cell) (st : Agent) :
  cells <$> knowledge (mark_safes l st)
  = (λ s, cells s ∖ list_to_set l) <$> knowledge st.
Proof.
  revert st. induction l as [|c l IH]; intros st; simpl.
  - apply list_fmap_ext. intros _ s _. set_solver.
  - rewrite IH. simpl. rewrite <- list_fmap_compose.
    apply list_fmap_ext. intros _ s _. simpl. rewrite cells_mark_safe.
    set_solver.
Qed.

Lemma mark_mines_singleton (X : gset Cell) (st : Agent) (s : Sentence) :
  knowledge st = [s] → cells s ⊆ X →
  Forall (λ s, cells s = ∅) (knowledge (mark_mines (elements X) st)).
Proof.
  intros Hk HX.
  apply (proj1 (Forall_fmap cells (λ Y : gset Cell, Y = ∅) _)).
  rewrite cells_mark_mines, Hk. repeat constructor. simpl. set_solver.
Qed.

Lemma mark_safes_singleton (X : gset Cell) (st : Agent) (s : Sentence) :
  knowledge st = [s] → cells s ⊆ X →
  Forall (λ s, cells s = ∅) (knowledge (mark_safes (elements X) st)).
Proof.
  intros Hk HX.
  apply (proj1 (Forall_fmap cells (λ Y : gset Cell, Y = ∅) _)).
  rewrite cells_mark_safes, Hk. repeat constructor. simpl. set_solver.
Qed.

Lemma new_sentences_no_cells (kb : list Sentence) :
  Forall (λ s, cells s = ∅) kb → new_sentences kb = [].
Proof.
  intros H. rewrite <- new_sentences_prune.
  apply prune_nil_iff in H. by rewrite H.
Qed.

Lemma simplify_at_no_cells (i : nat) (st : Agent) (changed : bool) :
  Forall (λ s, cells s = ∅) (knowledge st) →
  simplify_at i (st, changed) = (st, changed).
Proof.
  intros H. destruct (knowledge st !! i) as [s|] eqn:Ei.
  - rewrite Forall_forall in H.
    pose proof (H s (list_elem_of_lookup_2 _ _ _ Ei)) as He.
    apply (simplify_at_no_facts i st changed s); [done| |].
    + by apply known_mines_empty_cells.
    + by apply known_safes_empty_cells.
  - unfold simplify_at. by rewrite Ei.
Qed.

(** One pass over a knowledge base of one sentence: it leaves the agent as
    it is, or it sets the flag and the sentence has no cells left. *)
Lemma inference_pass_singleton (st : Agent) (s : Sentence) :
  knowledge st = [s] →
  inference_pass st = (st, false)
  ∨ ∃ st1, inference_pass st = (st1, true)
           ∧ Forall (λ s, cells s = ∅) (knowledge st1).
Proof.
  intros Hk. unfold inference_pass, simplification_pass. rewrite Hk.
  cbn [length seq foldl]. unfold simplify_at. rewrite Hk. cbn [lookup list_lookup].
  case_bool_decide as Hm.
  - right. apply known_mines_nonempty in Hm as [Hm _]. rewrite Hm.
    pose proof (mark_mines_singleton (cells s) st s Hk (reflexivity _)) as He.
    destruct (knowledge (mark_mines _ st) !! 0%nat) as [s'|] eqn:E0.
    + pose proof (proj1 (Forall_forall _ _) He s'
                    (list_elem_of_lookup_2 _ _ _ E0)) as He'.
      rewrite (known_safes_empty_cells s' He').
      rewrite bool_decide_eq_false_2 by (intros H; by apply H).
      rewrite new_sentences_no_cells by done. eauto.
    + rewrite new_sentences_no_cells by done. eauto.
  - rewrite Hk. cbn [lookup list_lookup]. case_bool_decide as Hs.
    + right. apply known_safes_nonempty in Hs as [Hs _]. rewrite Hs.
      pose proof (mark_safes_singleton (cells s) st s Hk (reflexivity _)) as He.
      rewrite new_sentences_no_cells by done. eauto.
    + left. by rewrite Hk, new_sentences_singleton.
Qed.

Lemma inference_loop_singleton (st : Agent) :
  (length (knowledge st) ≤ 1)%nat → ∃ st', inference_loop 2 st = Some st'.
Proof.
  intros Hl. cbn [inference_loop].
  destruct (knowledge st) as [|s [|s' kb]] eqn:Hk; [| |simpl in Hl; lia].
  - rewrite inference_pass_no_cells by (rewrite Hk; constructor). eauto.
  - destruct (inference_pass_singleton st s Hk) as [->|(st1 & -> & He)]; [eauto|].
    rewrite inference_pass_no_cells by done. eauto.
Qed.

(** The loop ends within two passes when at most one sentence has cells. *)
Lemma inference_loop_few_cells (st : Agent) :
  (length (prune (knowledge st)) ≤ 1)%nat →
  ∃ st', inference_loop 2 st = Some st'.
Proof.
  intros Hl.
  pose proof (inference_loop_alike 2 st _ (alike_prune st)) as Ha.
  destruct (inference_loop_singleton (set_knowledge (prune (knowledge st)) st))
    as [st' E]; [done|].
  rewrite E in Ha. destruct (inference_loop 2 st) as [r|]; [eauto|done].
Qed.

Lemma observe_few_cells (cell : Cell) (clue : Z) (st : Agent) :
  Forall (λ s, cells s = ∅) (knowledge st) →
  (length (prune (knowledge (observe cell clue st))) ≤ 1)%nat.
Proof.
  intros H.
  assert (prune (Sentence_.mark_safe cell <$> knowledge st) = []) as Hp.
  { apply prune_nil_iff, Forall_fmap. eapply Forall_impl; [done|].
    intros s He. simpl. rewrite cells_mark_safe. set_solver. }
  unfold observe. destruct (filter_neighbors _ _) as [[|n unknown] k]; simpl.
  - rewrite Hp. simpl. lia.
  - rewrite prune_app, Hp. simpl. unfold prune.
    pose proof (length_filter (λ s : Sentence, cells s ≠ ∅)
                  [ {| cells := list_to_set (n :: unknown); count := clue - k |} ]).
    simpl in *. lia.
Qed.

Lemma add_knowledge_no_cells (cell : Cell) (clue : Z) (st : Agent) :
  Forall (λ s, cells s = ∅) (knowledge st) →
  ∃ st', add_knowledge 2 cell clue st = Some st'.
Proof.
  intros H. apply inference_loop_few_cells. by apply observe_few_cells.
Qed.

(** * The claims *)

(** C1. For every ordered pair of distinct, non-empty sentences [s1], [s2] of
    the knowledge base with [cells s1 ⊆ cells s2], the body of the resolution
    loops derives exactly the candidate with cells [cells s2 ∖ cells s1] and
    count [count s2 - count s1] (staging it when its cell set is not empty and
    it is not in the knowledge base yet, nothing otherwise); the sentences
    staged by the whole pass are exactly these candidates; from [{A,B} = 1]
    and [{A,B,C} = 2] the pass derives [{C} = 1]. *)
Theorem resolution_derives_difference :
  (∀ kb s1 s2, s1 ∈ kb → s2 ∈ kb →
     cells s1 ⊆ cells s2 → s1 ≠ s2 → cells s1 ≠ ∅ → cells s2 ≠ ∅ →
     let candidate :=
       {| cells := cells s2 ∖ cells s1; count := count s2 - count s1 |} in
     resolve_pair kb s1 s2 =
       (if bool_decide (cells candidate ≠ ∅ ∧ candidate ∉ kb)
        then [candidate] else [])
     ∧ (cells candidate ≠ ∅ → candidate ∉ kb → candidate ∈ new_sentences kb))
  ∧ (∀ kb s, s ∈ new_sentences kb →
       ∃ s1 s2, s1 ∈ kb ∧ s2 ∈ kb
         ∧ cells s1 ⊆ cells s2 ∧ s1 ≠ s2 ∧ cells s1 ≠ ∅ ∧ cells s2 ≠ ∅
         ∧ s = {| cells := cells s2 ∖ cells s1;
                  count := count s2 - count s1 |})
  ∧ (∀ A B C : Cell, C ≠ A → C ≠ B →
       new_sentences [ {| cells := {[A; B]}; count := 1 |};
                       {| cells := {[A; B; C]}; count := 2 |} ]
       = [ {| cells := {[C]}; count := 1 |} ]).
Proof.
  split; [|split].
  - intros kb s1 s2 H1 H2 Hsub Hne Hn1 Hn2 candidate. split.
    + by apply resolve_pair_cases.
    + intros Hc Hk. apply elem_of_new_sentences. exists s1, s2. tauto.
  - intros kb s Hs. apply elem_of_new_sentences in Hs as (s1 & s2 & Hs).
    exists s1, s2. tauto.
  - apply subset_resolution_example.
Qed.

Lemma resolution_derives_difference_witness :
  new_sentences [ {| cells := {[(0, 0); (0, 1)]}; count := 1 |};
                  {| cells := {[(0, 0); (0, 1); (0, 2)]}; count := 2 |} ]
  = [ {| cells := {[(0, 2)]}; count := 1 |} ].
Proof.
  apply (proj2 (proj2 resolution_derives_difference) (0, 0) (0, 1) (0, 2));
    intros E; inversion E.
Defined.

(** C2. On every board (any height and width) and after any sequence of
    observations with consistent clues, a further call of [add_knowledge] with
    a consistent clue returns: some finite number of passes of the
    [while changed] loop is enough, and the last pass, the one that ends the
    loop, changes nothing. *)
Theorem add_knowledge_terminates_consistent
    (g : Minesweeper.t) (st : Agent) (cell : Cell) :
  reachable g st →
  in_bounds (Minesweeper.height g) (Minesweeper.width g) cell = true →
  Minesweeper.is_mine g cell = false →
  ∃ fuel st',
    add_knowledge fuel cell (Minesweeper.nearby_mines g cell) st = Some st'
    ∧ inference_pass st' = (st', false).
Proof.
  intros Hr _ Hm. apply add_knowledge_terminates.
  - by apply reachable_Sound.
  - by apply is_mine_false.
Qed.

Lemma add_knowledge_terminates_consistent_witness :
  ∃ fuel st',
    add_knowledge fuel (1, 0) (Minesweeper.nearby_mines corner_board (1, 0))
      corner_two = Some st'
    ∧ inference_pass st' = (st', false).
Proof.
  apply (add_knowledge_terminates_consistent corner_board corner_two (1, 0)).
  - apply reachable_corner_two.
  - reflexivity.
  - reflexivity.
Defined.

(** C3. After any sequence of observations with consistent clues every
    sentence of the knowledge base has [0 <= count <= |cells|], and so has
    every sentence in every state the engine goes through on the way: after
    the new sentence of an observation, after each single [mark_mine] and
    [mark_safe] of a marking loop, in whatever order the loop iterates the
    cells, and after the appending of resolved sentences. *)
Theorem sentence_count_bounds (g : Minesweeper.t) (st : Agent) :
  reachable g st ∨ engine_state g st →
  Forall (λ s, 0 <= count s <= len (cells s)) (knowledge st).
Proof.
  intros H.
  assert (Sound g st) as [_ _ _ _ _ Hk].
  { destruct H; [by apply reachable_Sound|by apply engine_state_Sound]. }
  eapply Forall_impl; [done|]. intros s. apply holds_bound.
Qed.

Lemma sentence_count_bounds_witness :
  Forall (λ s, 0 <= count s <= len (cells s))
    (knowledge
       (mark_safes (take 1 [(1, 0); (1, 1); (0, 1)])
          (observe (0, 0) (Minesweeper.nearby_mines open_board (0, 0))
             (init 4 4)))).
Proof.
  apply (sentence_count_bounds open_board). right.
  apply (engine_mark_safes open_board _
           {| cells := {[(0, 1); (1, 0); (1, 1)]}; count := 0 |}).
  - apply (engine_observe open_board (init 4 4) (0, 0)).
    + apply engine_init.
    + reflexivity.
    + reflexivity.
  - vm_compute. by left.
  - unfold iterates. vm_compute.
    apply (Permutation_app_comm [(1, 0); (1, 1)] [(0, 1)]).
Defined.

(** C4. In every state reached by observations with consistent clues no cell
    is both a known mine and a known safe cell. *)
Theorem known_mines_safes_disjoint (g : Minesweeper.t) (st : Agent) :
  reachable g st → mines st ∩ safes st = ∅.
Proof.
  intros H. apply reachable_Sound in H as [_ _ Hm Hs _ _]. set_solver.
Qed.

Lemma known_mines_safes_disjoint_witness :
  mines corner_three ∩ safes corner_three = ∅.
Proof.
  apply (known_mines_safes_disjoint corner_board).
  apply reachable_corner_three.
Defined.

(** C5, as the code has it. Every sentence staged by a resolution pass has a
    non-empty cell set and is equal to no sentence of the knowledge base the
    pass runs on. Nothing more is checked: the sentence of a new observation
    is appended as it is, and the marking of cells can make sentences of the
    knowledge base equal, so that the knowledge base can hold equal
    sentences. *)
Theorem staged_sentences_are_new (kb : list Sentence) :
  Forall (λ s, cells s ≠ ∅ ∧ s ∉ kb) (new_sentences kb).
Proof.
  apply Forall_forall. intros s Hs.
  apply elem_of_new_sentences in Hs as (s1 & s2 & Hs). tauto.
Qed.

(** C5 fails as stated: on the 2 by 2 board with a mine in [(1, 1)], opening
    [(0, 0)] and then [(0, 1)], both with the clue 1, leaves the knowledge
    base with the sentence [{(1,0), (1,1)} = 1] twice. *)
Lemma duplicate_sentences_counterexample :
  ∃ st s,
    reachable corner_board st
    ∧ knowledge st !! 0%nat = Some s ∧ knowledge st !! 1%nat = Some s
    ∧ cells s ≠ ∅.
Proof.
  exists corner_two, {| cells := {[(1, 0); (1, 1)]}; count := 1 |}.
  split; [apply reachable_corner_two|]. split_and!; done.
Qed.

(** C6. Whatever the random draw and the state, [make_random_move] returns
    neither a cell of [moves_made] nor one of [mines], and it returns [None]
    exactly when every cell of the grid is in one of the two sets. *)
Theorem make_random_move_correct (rnd : nat) (st : Agent) :
  (∀ c, make_random_move rnd st = Some c →
        (c ∉ moves_made st) ∧ (c ∉ mines st)
        ∧ in_bounds (height st) (width st) c = true)
  ∧ (make_random_move rnd st = None ↔
       ∀ i j, 0 <= i < height st → 0 <= j < width st →
              (i, j) ∈ moves_made st ∨ (i, j) ∈ mines st).
Proof.
  unfold make_random_move. split.
  - intros c Hc. destruct (valid_moves st) as [|c0 l] eqn:E; [done|].
    apply choice_elem_of in Hc. rewrite <- E in Hc.
    apply elem_of_valid_moves in Hc. tauto.
  - destruct (valid_moves st) as [|c0 l] eqn:E; split.
    + intros _ i j Hi Hj.
      destruct (decide ((i, j) ∈ moves_made st)) as [|H1]; [by left|].
      destruct (decide ((i, j) ∈ mines st)) as [|H2]; [by right|].
      assert ((i, j) ∈ valid_moves st) as Hin.
      { apply elem_of_valid_moves. split_and!; try done.
        by apply in_bounds_spec. }
      rewrite E in Hin. by apply elem_of_nil in Hin.
    + done.
    + intros Hn. by apply choice_cons in Hn.
    + intros Hall. exfalso.
      assert (c0 ∈ valid_moves st) as Hin by (rewrite E; by left).
      apply elem_of_valid_moves in Hin as (Hb & H1 & H2).
      apply in_bounds_spec in Hb. destruct c0 as [i j]. simpl in Hb.
      destruct (Hall i j) as [|]; tauto.
Qed.

Lemma make_random_move_correct_witness :
((7, 7) ∉ moves_made (init 8 8)) ∧ ((7, 7) ∉ mines (init 8 8))
  ∧ in_bounds (height (init 8 8)) (width (init 8 8)) (7, 7) = true.
Proof.
  apply (proj1 (make_random_move_correct 63 (init 8 8)) (7, 7)).
  by vm_compute.
Defined.

(** C7. [known_mines] is the cell set when its size is the count and empty
    otherwise, [known_safes] is the cell set when the count is zero and empty
    otherwise; the queries leave the sentence as it is: an iteration of the
    simplification loop over a sentence that yields no facts changes neither
    the sentence nor anything else in the agent. *)
Theorem known_mines_known_safes_spec (s : Sentence) :
  (len (cells s) = count s → known_mines s = cells s)
  ∧ (len (cells s) ≠ count s → known_mines s = ∅)
  ∧ (count s = 0 → known_safes s = cells s)
  ∧ (count s ≠ 0 → known_safes s = ∅)
  ∧ (∀ st i changed,
       knowledge st !! i = Some s →
       known_mines s = ∅ → known_safes s = ∅ →
       simplify_at i (st, changed) = (st, changed)).
Proof.
  unfold known_mines, known_safes. split_and!.
  - intros H. by rewrite bool_decide_eq_true_2.
  - intros H. by rewrite bool_decide_eq_false_2.
  - intros H. by rewrite bool_decide_eq_true_2.
  - intros H. by rewrite bool_decide_eq_false_2.
  - intros st i changed. apply simplify_at_no_facts.
Qed.

Lemma known_mines_known_safes_spec_witness :
  len (cells {| cells := {[(0, 0); (0, 1)]}; count := 2 |})
  = count {| cells := {[(0, 0); (0, 1)]}; count := 2 |}
  ∧ known_mines {| cells := {[(0, 0); (0, 1)]}; count := 2 |}
    = cells {| cells := {[(0, 0); (0, 1)]}; count := 2 |}.
Proof.
  split; [reflexivity|].
  apply (proj1 (known_mines_known_safes_spec
                  {| cells := {[(0, 0); (0, 1)]}; count := 2 |})).
  reflexivity.
Defined.




(** C9, as the code has it. [add_knowledge] validates nothing and raises
    no error: for every cell, any pair of integers, and every integer clue,
    on every agent, the neighbours it computes are on the grid, no call of
    [set.remove] raises, so that the call returns or runs on, and a call that
    returns has recorded the cell as opened and as safe, whatever the cell.
    The call returns, within two passes of its loop, for every cell and every
    clue when no sentence of the agent has cells left, a new agent for one;
    and it returns whenever the agent's knowledge is true of a board and the
    clue is that board's clue for a cell that is not a mine. With clues that
    contradict each other the loop may never reach a pass without change. *)
Theorem add_knowledge_accepts_any_input (cell : Cell) (clue : Z) (st : Agent) :
  Forall (λ n, in_bounds (height st) (width st) n = true)
         (neighbors (height st) (width st) cell)
  ∧ (∀ fuel st', add_knowledge fuel cell clue st = Some st' →
       cell ∈ moves_made st' ∧ cell ∈ safes st')
  ∧ (∀ g, Sound g st → Minesweeper.is_mine g cell = false →
       clue = Minesweeper.nearby_mines g cell →
       ∃ fuel st', add_knowledge fuel cell clue st = Some st')
  ∧ (∀ fuel e, Checked.add_knowledge fuel cell clue st ≠ Checked.Raises e)
  ∧ (∀ fuel,
       Checked.add_knowledge fuel cell clue st
       = match add_knowledge fuel cell clue st with
         | Some st' => Checked.Returns st'
         | None => Checked.Starves
         end)
  ∧ (Forall (λ s, cells s = ∅) (knowledge st) →
       ∃ st', add_knowledge 2 cell clue st = Some st'
              ∧ Checked.add_knowledge 2 cell clue st = Checked.Returns st').
Proof.
  split_and!.
  - apply Forall_forall. intros n Hn. apply elem_of_neighbors in Hn. tauto.
  - intros fuel st' H. unfold add_knowledge in H.
    apply grows_inference_loop in H as (H1 & _ & H3).
    destruct (observe_fields cell clue st) as (_ & _ & Em & _ & Es).
    rewrite Em in H1. rewrite Es in H3. set_solver.
  - intros g HS Hm ->.
    destruct (add_knowledge_terminates g cell st HS) as (fuel & st' & H & _).
    + by apply is_mine_false.
    + eauto.
  - intros fuel e. rewrite checked_add_knowledge.
    by destruct (add_knowledge fuel cell clue st).
  - intros fuel. apply checked_add_knowledge.
  - intros H. destruct (add_knowledge_no_cells cell clue st H) as [st' E].
    exists st'. split; [done|]. by rewrite checked_add_knowledge, E.
Qed.

Lemma add_knowledge_accepts_any_input_witness :
  (∃ st', add_knowledge 2 (-1, -1) 9 (init 2 2) = Some st'
          ∧ Checked.add_knowledge 2 (-1, -1) 9 (init 2 2)
            = Checked.Returns st')
  ∧ (∃ st', add_knowledge 2 (4, 4) (-3) open_one = Some st'
            ∧ Checked.add_knowledge 2 (4, 4) (-3) open_one
              = Checked.Returns st')
  ∧ (∃ fuel st',
       add_knowledge fuel (0, 0) (Minesweeper.nearby_mines corner_board (0, 0))
         (init 2 2) = Some st').
Proof.
  split_and!.
  - apply (add_knowledge_accepts_any_input (-1, -1) 9 (init 2 2)).
    apply Forall_nil_2.
  - apply (add_knowledge_accepts_any_input (4, 4) (-3) open_one).
    apply Forall_cons_2; [reflexivity|apply Forall_nil_2].
  - apply (proj1 (proj2 (proj2 (add_knowledge_accepts_any_input
                                  (0, 0)
                                  (Minesweeper.nearby_mines corner_board (0, 0))
                                  (init 2 2)))) corner_board).
    + apply Sound_init.
    + reflexivity.
    + reflexivity.
Defined.

(** C9 fails as stated: on a grid of one row of four cells, after the clues
    10 and 20 for the cell [(0, 1)], the call for [(0, 3)] with the clue 5
    never returns, whatever the fuel. All three cells are on the grid. *)
Lemma add_knowledge_diverges_counterexample :
  ∃ st1 st2,
    add_knowledge 1 (0, 1) 10 (init 1 4) = Some st1
    ∧ add_knowledge 1 (0, 1) 20 st1 = Some st2
    ∧ ∀ fuel, add_knowledge fuel (0, 3) 5 st2 = None.
Proof.
  set (ab := {[(0, 0); (0, 2)]} : gset Cell).
  set (st1 := {| height := 1; width := 4;
                 moves_made := {[(0, 1)]}; mines := ∅; safes := {[(0, 1)]};
                 knowledge := [ {| cells := ab; count := 10 |} ] |}).
  set (st2 := {| height := 1; width := 4;
                 moves_made := {[(0, 1)]}; mines := ∅; safes := {[(0, 1)]};
                 knowledge := [ {| cells := ab; count := 10 |};
                                {| cells := ab; count := 20 |} ] |}).
  exists st1, st2. split; [by vm_compute|]. split; [by vm_compute|].
  intros fuel. unfold add_knowledge.
  apply (clashing_loop (0, 0) (0, 2)); [done|].
  assert (knowledge (observe (0, 3) 5 st2)
          = [ {| cells := ab; count := 10 |}; {| cells := ab; count := 20 |};
              {| cells := {[(0, 2)]}; count := 5 |} ]) as ->
    by (by vm_compute).
  unfold clashing, clash. split_and!.
  - repeat apply Forall_cons_2; [| | |apply Forall_nil_2]; simpl.
    + left. auto.
    + left. auto.
    + right. split; [by right|]. by exists 0.
  - by left.
  - right. by left.
  - exists 5. right. right. by left.
Qed.

(** C10. No call removes a sentence: after a call of [add_knowledge],
    [mark_mine] or [mark_safe] every sentence is still at its position, with
    the same or fewer cells, and a sentence without cells is there unchanged.
    Such a sentence yields no facts, and no pair of the resolution pass that
    it is part of stages anything. It has no effect on what is deduced: a
    call on the agent without its sentences that have no cells returns if and
    only if the call on the agent returns, and the two results have the same
    three sets and, sentences without cells apart, the same knowledge
    base. *)
Theorem knowledge_append_only :
  (∀ fuel c st st', do_call fuel c st = Some st' →
     (length (knowledge st) ≤ length (knowledge st'))%nat
     ∧ ∀ i s, knowledge st !! i = Some s →
         ∃ s', knowledge st' !! i = Some s' ∧ cells s' ⊆ cells s
               ∧ (cells s = ∅ → s' = s))
  ∧ (∀ s, cells s = ∅ → known_mines s = ∅ ∧ known_safes s = ∅)
  ∧ (∀ kb s s', cells s = ∅ →
       resolve_pair kb s s' = [] ∧ resolve_pair kb s' s = [])
  ∧ (∀ fuel c st,
       match do_call fuel c st,
             do_call fuel c (set_knowledge (prune (knowledge st)) st) with
       | Some r, Some r' => alike r r'
       | None, None => True
       | _, _ => False
       end).
Proof.
  split_and!.
  - intros fuel c st st' H. apply persists_do_call in H.
    split; [by apply persists_length|done].
  - intros s He.
    split; [by apply known_mines_empty_cells|by apply known_safes_empty_cells].
  - intros kb s s' He.
    split; [by apply resolve_pair_empty_l|by apply resolve_pair_empty_r].
  - intros fuel c st. apply do_call_alike, alike_prune.
Qed.

Lemma knowledge_append_only_witness :
  known_mines {| cells := ∅; count := 0 |} = ∅
  ∧ known_safes {| cells := ∅; count := 0 |} = ∅.
Proof.
  apply (proj1 (proj2 knowledge_append_only) {| cells := ∅; count := 0 |}).
  reflexivity.
Defined.

(** * Further properties of the code *)

(** ** What the loop leaves alone *)

Lemma inference_pass_frame (st : Agent) :
  height (inference_pass st).1 = height st
  ∧ width (inference_pass st).1 = width st
  ∧ moves_made (inference_pass st).1 = moves_made st.
Proof.
  apply (inference_pass_ind
    (λ st' _, height st' = height st ∧ width st' = width st
              ∧ moves_made st' = moves_made st)).
  - done.
  - intros st' _ s (H1 & H2 & H3) _ _.
    destruct (mark_mines_fields (elements (known_mines s)) st')
      as (-> & -> & -> & _). done.
  - intros st' _ s (H1 & H2 & H3) _ _.
    destruct (mark_safes_fields (elements (known_safes s)) st')
      as (-> & -> & -> & _). done.
  - intros st' _ H _. done.
Qed.

Lemma inference_loop_frame (fuel : nat) (st st' : Agent) :
  inference_loop fuel st = Some st' →
  height st' = height st ∧ width st' = width st
  ∧ moves_made st' = moves_made st.
Proof.
  revert st. induction fuel as [|fuel IH]; intros st; simpl; [done|].
  pose proof (inference_pass_frame st) as (H1 & H2 & H3).
  destruct (inference_pass st) as [st1 [|]]; simpl in H1, H2, H3.
  - intros Hl. destruct (IH _ Hl) as (-> & -> & ->). done.
  - intros [= <-]. done.
Qed.

(** ** Sentences clear of resolved cells *)

Lemma tidy_mark_mine (c : Cell) (st : Agent) : tidy st → tidy (mark_mine c st).
Proof.
  intros H x Hx. rewrite support_mark_mine in Hx.
  apply elem_of_difference in Hx as [Hx Hne].
  destruct (H x Hx) as (H1 & H2 & H3 & H4). simpl. split_and!; try done.
  set_solver.
Qed.

Lemma tidy_mark_safe (c : Cell) (st : Agent) : tidy st → tidy (mark_safe c st).
Proof.
  intros H x Hx. rewrite support_mark_safe in Hx.
  apply elem_of_difference in Hx as [Hx Hne].
  destruct (H x Hx) as (H1 & H2 & H3 & H4). simpl. split_and!; try done.
  set_solver.
Qed.

Lemma tidy_mark_mines (l : list Cell) (st : Agent) :
  tidy st → tidy (mark_mines l st).
Proof.
  revert st. induction l as [|c l IH]; intros st H; simpl; [done|].
  by apply IH, tidy_mark_mine.
Qed.

Lemma tidy_mark_safes (l : list Cell) (st : Agent) :
  tidy st → tidy (mark_safes l st).
Proof.
  revert st. induction l as [|c l IH]; intros st H; simpl; [done|].
  by apply IH, tidy_mark_safe.
Qed.

Lemma tidy_new_sentences (st : Agent) :
  tidy st →
  tidy (set_knowledge (knowledge st ++ new_sentences (knowledge st)) st).
Proof.
  intros H x Hx. rewrite support_new_sentences in Hx. by apply H.
Qed.

Lemma tidy_inference_loop (fuel : nat) (st st' : Agent) :
  tidy st → inference_loop fuel st = Some st' → tidy st'.
Proof.
  revert st. induction fuel as [|fuel IH]; intros st H; simpl; [done|].
  assert (tidy (inference_pass st).1) as H1.
  { apply (inference_pass_ind (λ st' _, tidy st')); try done.
    - intros st1 _ s H1 _ _. by apply tidy_mark_mines.
    - intros st1 _ s H1 _ _. by apply tidy_mark_safes.
    - intros st1 _ H1 _. by apply tidy_new_sentences. }
  destruct (inference_pass st) as [st1 [|]]; simpl in H1.
  - by apply IH.
  - by intros [= <-].
Qed.

Lemma tidy_observe (cell : Cell) (clue : Z) (st : Agent) :
  tidy st → tidy (observe cell clue st).
Proof.
  intros H. unfold observe.
  set (st0 := {| height := height st; width := width st;
                 moves_made := {[cell]} ∪ moves_made st;
                 mines := mines st; safes := safes st;
                 knowledge := knowledge st |}).
  assert (tidy (mark_safe cell st0)) as H1.
  { intros x Hx. rewrite support_mark_safe in Hx.
    apply elem_of_difference in Hx as [Hx Hne].
    destruct (H x Hx) as (H1 & H2 & H3 & H4). simpl. split_and!; try done;
      set_solver. }
  set (st1 := mark_safe cell st0) in *. clearbody st1. clear st0 H.
  rewrite filter_neighbors_spec.
  destruct (filter _ _) as [|n0 unknown] eqn:Eu; [done|]. rewrite <- Eu.
  intros x Hx. apply elem_of_support in Hx as (s & Hs & Hx). simpl in Hs.
  apply elem_of_app in Hs as [Hs|Hs].
  - apply H1, elem_of_support. eauto.
  - apply list_elem_of_singleton in Hs as ->. simpl in Hx.
    apply elem_of_list_to_set, list_elem_of_filter in Hx as [(Hm & Hs & Hk) Hn].
    apply elem_of_neighbors in Hn. simpl. tauto.
Qed.

Lemma tidy_init (h w : Z) : tidy (init h w).
Proof. intros c Hc. apply elem_of_support in Hc as (s & Hs & _). by apply elem_of_nil in Hs. Qed.

Lemma tidy_do_calls (fuel : nat) (cs : list call) (st st' : Agent) :
  tidy st → do_calls fuel cs st = Some st' → tidy st'.
Proof.
  revert st. induction cs as [|c cs IH]; intros st H; simpl.
  - by intros [= <-].
  - destruct (do_call fuel c st) as [st1|] eqn:E; [|done].
    apply IH. destruct c; simpl in E.
    + eapply tidy_inference_loop; [|exact E]. by apply tidy_observe.
    + injection E as <-. by apply tidy_mark_mine.
    + injection E as <-. by apply tidy_mark_safe.
Qed.

(** X4. From the start of a game on, whatever the calls and the clues, no
    cell of a sentence of the knowledge base is an opened cell, a known mine
    or a known safe cell: a cell that is resolved is taken out of every
    sentence; and the sentences speak of cells of the grid only. *)
Theorem sentences_clear_of_resolved_cells
    (h w : Z) (fuel : nat) (cs : list call) (st : Agent) (s : Sentence) (c : Cell) :
  do_calls fuel cs (init h w) = Some st →
  s ∈ knowledge st → c ∈ cells s →
  (c ∉ moves_made st) ∧ (c ∉ mines st) ∧ (c ∉ safes st)
  ∧ in_bounds (height st) (width st) c = true.
Proof.
  intros Hcs Hs Hc.
  apply (tidy_do_calls fuel cs (init h w) st (tidy_init h w) Hcs).
  apply elem_of_support. eauto.
Qed.

Lemma sentences_clear_of_resolved_cells_witness :
  ((0, 1) ∉ moves_made corner_one) ∧ ((0, 1) ∉ mines corner_one)
  ∧ ((0, 1) ∉ safes corner_one)
  ∧ in_bounds (height corner_one) (width corner_one) (0, 1) = true.
Proof.
  apply (sentences_clear_of_resolved_cells 2 2 1
           [RecordObservation (0, 0) 1] corner_one
           {| cells := {[(0, 1); (1, 0); (1, 1)]}; count := 1 |} (0, 1)).
  - by vm_compute.
  - by left.
  - by vm_compute.
Defined.

(** ** Opened cells are known safe *)

Lemma moves_safes_do_calls (fuel : nat) (cs : list call) (st st' : Agent) :
  moves_made st ⊆ safes st → do_calls fuel cs st = Some st' →
  moves_made st' ⊆ safes st'.
Proof.
  revert st. induction cs as [|c cs IH]; intros st H; simpl.
  - by intros [= <-].
  - destruct (do_call fuel c st) as [st1|] eqn:E; [|done].
    apply IH. destruct c; simpl in E.
    + unfold add_knowledge in E.
      destruct (inference_loop_frame _ _ _ E) as (_ & _ & ->).
      apply grows_inference_loop in E as (_ & _ & Hs).
      destruct (observe_fields cell clue st) as (_ & _ & Em & _ & Es).
      rewrite Em. rewrite Es in Hs. set_solver.
    + injection E as <-. simpl. done.
    + injection E as <-. simpl. set_solver.
Qed.

(** X5. From the start of a game on, whatever the calls and the clues, every
    opened cell is a known safe cell. *)
Theorem opened_cells_are_safe
    (h w : Z) (fuel : nat) (cs : list call) (st : Agent) :
  do_calls fuel cs (init h w) = Some st → moves_made st ⊆ safes st.
Proof. apply moves_safes_do_calls. done. Qed.

Lemma opened_cells_are_safe_witness : moves_made corner_one ⊆ safes corner_one.
Proof.
  apply (opened_cells_are_safe 2 2 1 [RecordObservation (0, 0) 1]).
  by vm_compute.
Defined.

(** ** What is deduced is true *)

(** X1. In a game with consistent clues everything the agent believes is
    true of the board: every known mine is a mine, no known safe cell and no
    opened cell is a mine, and the count of every sentence is the number of
    mines among its cells. *)
Theorem deductions_are_true (g : Minesweeper.t) (st : Agent) :
  reachable g st →
  (∀ c, c ∈ mines st → Minesweeper.is_mine g c = true)
  ∧ (∀ c, c ∈ safes st → Minesweeper.is_mine g c = false)
  ∧ (∀ c, c ∈ moves_made st → Minesweeper.is_mine g c = false)
  ∧ (∀ s, s ∈ knowledge st →
       count s = len (filter (λ c, Minesweeper.is_mine g c = true) (cells s))).
Proof.
  intros H. apply reachable_Sound in H as [_ _ Hm Hs Hv Hk].
  split_and!.
  - intros c Hc. apply bool_decide_eq_true. by apply Hm.
  - intros c Hc. apply is_mine_false. intros Hc'. by apply (Hs c).
  - intros c Hc. apply is_mine_false. intros Hc'. by apply (Hv c).
  - intros s Hin. rewrite Forall_forall in Hk. rewrite (Hk s Hin).
    f_equal. apply set_eq. intros c.
    rewrite elem_of_intersection, elem_of_filter.
    unfold Minesweeper.is_mine, Minesweeper.board.
    rewrite bool_decide_eq_true. tauto.
Qed.

Lemma deductions_are_true_witness :
  Minesweeper.is_mine corner_board (1, 1) = true.
Proof.
  apply (proj1 (deductions_are_true corner_board corner_three
                  reachable_corner_three) (1, 1)).
  by vm_compute.
Defined.

(** ** The cells the agent knows are on the grid *)

Lemma engine_state_on_grid (g : Minesweeper.t) (st : Agent) :
  engine_state g st → tidy st ∧ on_grid st.
Proof.
  intros H. pose proof (engine_state_Sound g st H) as HS.
  induction H as [|st cell H IH Hb Hm|st s order k H IH Hs Ho
                  |st s order k H IH Hs Ho|st H IH].
  - split; [apply tidy_init|]. intros c Hc. set_solver.
  - destruct (IH (engine_state_Sound g st H)) as [Ht Hg].
    split; [by apply tidy_observe|].
    destruct HS as [Eh Ew _ _ _ _].
    destruct (engine_state_Sound g st H) as [Eh' Ew' _ _ _ _].
    intros c Hc. rewrite Eh, Ew.
    destruct (observe_fields cell (Minesweeper.nearby_mines g cell) st)
      as (_ & _ & Em & Ek & Es).
    rewrite Em, Ek, Es in Hc.
    destruct (decide (c = cell)) as [->|Hne]; [done|].
    rewrite <- Eh', <- Ew'. apply Hg. set_solver.
  - destruct (IH (engine_state_Sound g st H)) as [Ht Hg].
    split; [by apply tidy_mark_mines|]. intros c Hc.
    destruct (mark_mines_fields (take k order) st)
      as (Eh & Ew & Em & Ek & Es & _).
    rewrite Eh, Ew. rewrite Em, Ek, Es in Hc.
    destruct (decide (c ∈ (list_to_set (take k order) : gset Cell)))
      as [Hin|Hout].
    + apply elem_of_list_to_set, subseteq_take in Hin.
      unfold iterates in Ho. rewrite Ho in Hin.
      apply elem_of_elements, known_mines_subseteq in Hin.
      apply Ht, elem_of_support. eauto.
    + apply Hg. set_solver.
  - destruct (IH (engine_state_Sound g st H)) as [Ht Hg].
    split; [by apply tidy_mark_safes|]. intros c Hc.
    destruct (mark_safes_fields (take k order) st)
      as (Eh & Ew & Em & Ek & Es & _).
    rewrite Eh, Ew. rewrite Em, Ek, Es in Hc.
    destruct (decide (c ∈ (list_to_set (take k order) : gset Cell)))
      as [Hin|Hout].
    + apply elem_of_list_to_set, subseteq_take in Hin.
      unfold iterates in Ho. rewrite Ho in Hin.
      apply elem_of_elements, known_safes_subseteq in Hin.
      apply Ht, elem_of_support. eauto.
    + apply Hg. set_solver.
  - destruct (IH (engine_state_Sound g st H)) as [Ht Hg].
    split; [by apply tidy_new_sentences|done].
Qed.

(** ** The safe move *)

Lemma make_safe_move_Some (order : list Cell) (st : Agent) (c : Cell) :
  make_safe_move order st = Some c → c ∈ order ∧ c ∉ moves_made st.
Proof.
  unfold make_safe_move. intros H. apply head_Some_elem_of in H.
  apply list_elem_of_filter in H. tauto.
Qed.

Lemma make_safe_move_None (order : list Cell) (st : Agent) :
  make_safe_move order st = None ↔ ∀ c, c ∈ order → c ∈ moves_made st.
Proof.
  unfold make_safe_move. rewrite head_None. split.
  - intros H c Hc. destruct (decide (c ∈ moves_made st)) as [|Hn]; [done|].
    exfalso. assert (c ∈ filter (λ cell, cell ∉ moves_made st) order) as Hin
      by (by apply list_elem_of_filter).
    rewrite H in Hin. by apply elem_of_nil in Hin.
  - intros H. apply elem_of_nil_inv. intros c Hc.
    apply list_elem_of_filter in Hc as [Hn Hc]. by apply Hn, H.
Qed.

Lemma elem_of_iterates (X : gset Cell) (order : list Cell) (c : Cell) :
  iterates X order → c ∈ order ↔ c ∈ X.
Proof. unfold iterates. intros ->. apply elem_of_elements. Qed.

(** X2. In whatever order the set of safe cells is iterated,
    [make_safe_move] returns a known safe cell that is not opened, and it
    returns [None] exactly when every known safe cell is opened. *)
Theorem make_safe_move_correct (order : list Cell) (st : Agent) :
  iterates (safes st) order →
  (∀ c, make_safe_move order st = Some c → c ∈ safes st ∧ c ∉ moves_made st)
  ∧ (make_safe_move order st = None ↔ safes st ⊆ moves_made st).
Proof.
  intros Ho. split.
  - intros c Hc. apply make_safe_move_Some in Hc as [Hc Hn].
    split; [|done]. by apply (elem_of_iterates _ order).
  - rewrite make_safe_move_None. split.
    + intros H c Hc. apply H. by apply (elem_of_iterates (safes st)).
    + intros H c Hc. apply H. by apply (elem_of_iterates _ order).
Qed.

Lemma make_safe_move_correct_witness :
  make_safe_move (elements (safes corner_three)) corner_three = None
  ↔ safes corner_three ⊆ moves_made corner_three.
Proof.
  apply (proj2 (make_safe_move_correct (elements (safes corner_three))
                  corner_three (reflexivity _))).
Defined.

(** X3. In a game with consistent clues the cell that [make_safe_move]
    returns is a cell of the grid that is not a mine. *)
Theorem make_safe_move_is_safe
    (g : Minesweeper.t) (order : list Cell) (st : Agent) (c : Cell) :
  reachable g st → iterates (safes st) order →
  make_safe_move order st = Some c →
  Minesweeper.is_mine g c = false
  ∧ in_bounds (Minesweeper.height g) (Minesweeper.width g) c = true.
Proof.
  intros Hr Ho Hc. apply make_safe_move_Some in Hc as [Hc _].
  apply (elem_of_iterates (safes st)) in Hc; [|done].
  pose proof (reachable_engine_state g st Hr) as He.
  destruct (engine_state_on_grid g st He) as [_ Hg].
  destruct (engine_state_Sound g st He) as [Eh Ew _ Hs _ _].
  split.
  - apply is_mine_false. intros Hm. by apply (Hs c).
  - rewrite <- Eh, <- Ew. apply Hg. set_solver.
Qed.

Lemma reachable_open_one : reachable open_board open_one.
Proof.
  eapply rtc_l; [|apply rtc_refl].
  apply (observes_intro open_board _ open_one (0, 0) 2); by vm_compute.
Qed.

Lemma make_safe_move_is_safe_witness :
  Minesweeper.is_mine open_board (0, 1) = false
  ∧ in_bounds (Minesweeper.height open_board) (Minesweeper.width open_board)
      (0, 1) = true.
Proof.
  apply (make_safe_move_is_safe open_board (elements (safes open_one))
           open_one (0, 1)).
  - apply reachable_open_one.
  - by unfold iterates.
  - by vm_compute.
Defined.

(** ** The state in which the loop ends *)

Lemma simplify_from_true (log : list mark) (kb : list Sentence) :
  (simplify_from log true kb).2 = true.
Proof.
  revert log. induction kb as [|s kb IH]; intros log; [done|].
  simpl. by repeat case_bool_decide.
Qed.

Lemma simplify_from_false (log : list mark) (kb : list Sentence) :
  (simplify_from log false kb).2 = false →
  Forall (λ s, known_mines (replay_sentence log s) = ∅
               ∧ known_safes (replay_sentence log s) = ∅) kb.
Proof.
  revert log. induction kb as [|s kb IH]; intros log; [constructor|].
  simpl. set (s1 := replay_sentence log s).
  destruct (decide (known_mines s1 = ∅)) as [Em|Em].
  - rewrite Em, elements_empty. simpl.
    destruct (decide (known_safes s1 = ∅)) as [Es|Es].
    + rewrite Es, elements_empty. simpl.
      rewrite !bool_decide_eq_false_2 by (intros H; by apply H).
      rewrite app_nil_r. intros H. constructor; [done|]. by apply IH.
    + rewrite (bool_decide_eq_true_2 (known_safes s1 ≠ ∅)) by done.
      by rewrite simplify_from_true.
  - rewrite (bool_decide_eq_true_2 (known_mines s1 ≠ ∅)) by done.
    destruct (bool_decide _); by rewrite simplify_from_true.
Qed.

Lemma inference_pass_false (st st' : Agent) :
  inference_pass st = (st', false) →
  Forall (λ s, known_mines s = ∅ ∧ known_safes s = ∅) (knowledge st)
  ∧ new_sentences (knowledge st) = [].
Proof.
  intros H. pose proof (inference_pass_unchanged _ _ H) as ->.
  unfold inference_pass in H. rewrite simplification_pass_replay in H.
  destruct (new_sentences (knowledge (replay _ st))) eqn:E; [|done].
  injection H as H1 H2. rewrite H1 in E. split; [|done].
  by apply (simplify_from_false []).
Qed.

(** X6. However it was called, when [add_knowledge] returns no sentence of
    the knowledge base has a fact left to give, that is, no sentence with
    cells has the count 0 or the number of its cells as count; and the
    knowledge base is closed under resolution: the difference of two of its
    sentences, one with cells and strictly inside the other, is in it. *)
Theorem add_knowledge_saturates
    (fuel : nat) (cell : Cell) (clue : Z) (st st' : Agent) :
  add_knowledge fuel cell clue st = Some st' →
  (∀ s, s ∈ knowledge st' → cells s ≠ ∅ →
     count s ≠ 0 ∧ count s ≠ len (cells s))
  ∧ (∀ s1 s2, s1 ∈ knowledge st' → s2 ∈ knowledge st' →
       cells s1 ⊆ cells s2 → cells s1 ≠ ∅ → cells s2 ∖ cells s1 ≠ ∅ →
       {| cells := cells s2 ∖ cells s1; count := count s2 - count s1 |}
       ∈ knowledge st').
Proof.
  unfold add_knowledge. intros H. apply inference_loop_fixpoint in H.
  apply inference_pass_false in H as [Hf Hn]. split.
  - intros s Hs Hne. rewrite Forall_forall in Hf.
    destruct (Hf s Hs) as [Hm Hk]. unfold known_mines, known_safes in Hm, Hk.
    split; intros E.
    + rewrite bool_decide_eq_true_2 in Hk by done. done.
    + rewrite bool_decide_eq_true_2 in Hm by done. done.
  - intros s1 s2 H1 H2 Hsub Hne Hd.
    destruct (decide ({| cells := cells s2 ∖ cells s1;
                         count := count s2 - count s1 |} ∈ knowledge st'))
      as [|Hout]; [done|].
    assert ({| cells := cells s2 ∖ cells s1; count := count s2 - count s1 |}
            ∈ new_sentences (knowledge st')) as Hin.
    { apply elem_of_new_sentences. exists s1, s2. split_and!; try done.
      - intros ->. apply Hd. set_solver.
      - set_solver. }
    rewrite Hn in Hin. by apply elem_of_nil in Hin.
Qed.

Lemma add_knowledge_saturates_witness :
  count {| cells := {[(0, 1); (1, 0); (1, 1)]}; count := 1 |} ≠ 0
  ∧ count {| cells := {[(0, 1); (1, 0); (1, 1)]}; count := 1 |}
    ≠ len (cells {| cells := {[(0, 1); (1, 0); (1, 1)]}; count := 1 |}).
Proof.
  apply (proj1 (add_knowledge_saturates 1 (0, 0) 1 (init 2 2) corner_one
                  ltac:(by vm_compute))
           {| cells := {[(0, 1); (1, 0); (1, 1)]}; count := 1 |}).
  - by left.
  - by vm_compute.
Defined.

(** X14. In a game with consistent clues every sentence that is left with
    cells is undecided: at least one of its cells is a mine and at least one
    is not, and its count lies strictly between 0 and the number of its
    cells. *)
Theorem remaining_sentences_undecided
    (g : Minesweeper.t) (st : Agent) (s : Sentence) :
  reachable g st → s ∈ knowledge st → cells s ≠ ∅ →
  (∃ c, c ∈ cells s ∧ Minesweeper.is_mine g c = true)
  ∧ (∃ c, c ∈ cells s ∧ Minesweeper.is_mine g c = false)
  ∧ 0 < count s < len (cells s).
Proof.
  intros Hr Hs Hne.
  pose proof (reachable_Sound g st Hr) as [_ _ _ _ _ Hk].
  rewrite Forall_forall in Hk. pose proof (Hk s Hs) as Hh.
  assert (count s ≠ 0 ∧ count s ≠ len (cells s)) as [H0 Hl].
  { apply rtc_inv_r in Hr as [<-|(st0 & _ & [cell fuel _ _ Ha])].
    - by apply elem_of_nil in Hs.
    - by apply (add_knowledge_saturates _ _ _ _ _ Ha). }
  pose proof (holds_bound _ _ Hh) as Hb. unfold holds in Hh.
  split_and!; try lia.
  - destruct (set_choose_or_empty (cells s ∩ Minesweeper.mines g))
      as [[c Hc]|He].
    + exists c. apply elem_of_intersection in Hc as [Hc Hm].
      split; [done|]. by apply bool_decide_eq_true.
    + apply leibniz_equiv in He. rewrite He in Hh. by vm_compute in Hh.
  - destruct (set_choose_or_empty (cells s ∖ Minesweeper.mines g))
      as [[c Hc]|He].
    + exists c. apply elem_of_difference in Hc as [Hc Hm].
      split; [done|]. by apply is_mine_false.
    + apply leibniz_equiv in He. exfalso. apply Hl. rewrite Hh. f_equal.
      apply set_eq. intros c. rewrite elem_of_intersection.
      split; [tauto|]. intros Hc. split; [done|].
      destruct (decide (c ∈ Minesweeper.mines g)) as [|Hn]; [done|].
      assert (c ∈ cells s ∖ Minesweeper.mines g) as Hin
        by (by apply elem_of_difference).
      rewrite He in Hin. by apply not_elem_of_empty in Hin.
Qed.

Lemma remaining_sentences_undecided_witness :
  (∃ c, c ∈ cells {| cells := {[(1, 0); (1, 1)]}; count := 1 |}
        ∧ Minesweeper.is_mine corner_board c = true)
  ∧ (∃ c, c ∈ cells {| cells := {[(1, 0); (1, 1)]}; count := 1 |}
          ∧ Minesweeper.is_mine corner_board c = false)
  ∧ 0 < count {| cells := {[(1, 0); (1, 1)]}; count := 1 |}
      < len (cells {| cells := {[(1, 0); (1, 1)]}; count := 1 |}).
Proof.
  apply (remaining_sentences_undecided corner_board corner_two
           {| cells := {[(1, 0); (1, 1)]}; count := 1 |}).
  - apply reachable_corner_two.
  - by left.
  - by vm_compute.
Defined.

(** ** Cells leave a sentence only when they are marked *)

Lemma accounted_refl (st : Agent) : accounted st st.
Proof.
  split; [apply grows_refl|]. intros i s H. exists s. split; [done|].
  set_solver.
Qed.

Lemma accounted_trans (st1 st2 st3 : Agent) :
  accounted st1 st2 → accounted st2 st3 → accounted st1 st3.
Proof.
  intros [G12 H12] [G23 H23]. split; [by eapply grows_trans|].
  intros i s H.
  destruct (H12 i s H) as (s2 & H2 & Hsub2).
  destruct (H23 i s2 H2) as (s3 & H3 & Hsub3).
  exists s3. split; [done|]. destruct G23 as (_ & Gm & Gs).
  intros c Hc. apply Hsub2 in Hc.
  apply elem_of_union in Hc as [Hc|Hc];
    [apply elem_of_union in Hc as [Hc|Hc]|].
  - by apply Hsub3 in Hc.
  - apply elem_of_union_l, elem_of_union_r. by apply Gm.
  - apply elem_of_union_r. by apply Gs.
Qed.

Lemma accounted_mark_mine (c : Cell) (st : Agent) :
  accounted st (mark_mine c st).
Proof.
  split; [apply grows_mark_mine|]. intros i s H.
  exists (Sentence_.mark_mine c s). simpl.
  rewrite list_lookup_fmap, H, cells_mark_mine. split; [done|].
  intros x Hx. destruct (decide (x = c)) as [->|Hne]; set_solver.
Qed.

Lemma accounted_mark_safe (c : Cell) (st : Agent) :
  accounted st (mark_safe c st).
Proof.
  split; [apply grows_mark_safe|]. intros i s H.
  exists (Sentence_.mark_safe c s). simpl.
  rewrite list_lookup_fmap, H, cells_mark_safe. split; [done|].
  intros x Hx. destruct (decide (x = c)) as [->|Hne]; set_solver.
Qed.

Lemma accounted_mark_mines (l : list Cell) (st : Agent) :
  accounted st (mark_mines l st).
Proof.
  revert st. induction l as [|c l IH]; intros st; simpl; [apply accounted_refl|].
  eapply accounted_trans; [apply accounted_mark_mine|apply IH].
Qed.

Lemma accounted_mark_safes (l : list Cell) (st : Agent) :
  accounted st (mark_safes l st).
Proof.
  revert st. induction l as [|c l IH]; intros st; simpl; [apply accounted_refl|].
  eapply accounted_trans; [apply accounted_mark_safe|apply IH].
Qed.

Lemma accounted_append (new : list Sentence) (st : Agent) :
  accounted st (set_knowledge (knowledge st ++ new) st).
Proof.
  split; [done|]. intros i s H. exists s. simpl.
  split; [by apply lookup_app_l_Some|set_solver].
Qed.

Lemma accounted_inference_loop (fuel : nat) (st st' : Agent) :
  inference_loop fuel st = Some st' → accounted st st'.
Proof.
  revert st. induction fuel as [|fuel IH]; intros st; simpl; [done|].
  assert (accounted st (inference_pass st).1) as H.
  { apply (inference_pass_ind (λ st' _, accounted st st')).
    - apply accounted_refl.
    - intros st1 _ s H _ _.
      eapply accounted_trans; [done|apply accounted_mark_mines].
    - intros st1 _ s H _ _.
      eapply accounted_trans; [done|apply accounted_mark_safes].
    - intros st1 _ H _. eapply accounted_trans; [done|apply accounted_append]. }
  destruct (inference_pass st) as [st1 [|]]; simpl in H.
  - intros Hl. eapply accounted_trans; [done|by apply IH].
  - by intros [= <-].
Qed.

Lemma accounted_observe (cell : Cell) (clue : Z) (st : Agent) :
  accounted st (observe cell clue st).
Proof.
  split; [apply grows_observe|]. intros i s H. unfold observe.
  destruct (filter_neighbors _ _) as [[|n unknown] k]; simpl.
  - exists (Sentence_.mark_safe cell s).
    rewrite list_lookup_fmap, H, cells_mark_safe. split; [done|].
    intros x Hx. destruct (decide (x = cell)) as [->|Hne]; set_solver.
  - exists (Sentence_.mark_safe cell s). split.
    + apply lookup_app_l_Some. by rewrite list_lookup_fmap, H.
    + rewrite cells_mark_safe.
      intros x Hx. destruct (decide (x = cell)) as [->|Hne]; set_solver.
Qed.

(** X13. Over a call of [add_knowledge], [mark_mine] or [mark_safe] a
    sentence loses a cell only when the cell is recorded: every cell that
    was in the sentence before the call and is not in it after the call is a
    known mine or a known safe cell after the call. *)
Theorem lost_cells_are_recorded
    (fuel : nat) (c : call) (st st' : Agent) (i : nat) (s : Sentence) :
  do_call fuel c st = Some st' → knowledge st !! i = Some s →
  ∃ s', knowledge st' !! i = Some s'
        ∧ cells s ∖ cells s' ⊆ mines st' ∪ safes st'.
Proof.
  intros Hc Hs.
  assert (accounted st st') as [_ H].
  { destruct c; simpl in Hc.
    - eapply accounted_trans; [apply accounted_observe|].
      by eapply accounted_inference_loop.
    - injection Hc as <-. apply accounted_mark_mine.
    - injection Hc as <-. apply accounted_mark_safe. }
  destruct (H i s Hs) as (s' & Hs' & Hsub). exists s'. split; [done|].
  intros x Hx. apply elem_of_difference in Hx as [Hx Hn].
  apply Hsub in Hx. set_solver.
Qed.

Lemma lost_cells_are_recorded_witness :
  ∃ s', knowledge corner_two !! 0%nat = Some s'
        ∧ cells {| cells := {[(0, 1); (1, 0); (1, 1)]}; count := 1 |} ∖ cells s'
          ⊆ mines corner_two ∪ safes corner_two.
Proof.
  apply (lost_cells_are_recorded 1 (RecordObservation (0, 1) 1) corner_one).
  - by vm_compute.
  - reflexivity.
Defined.

(** ** Marking twice, marking in another order *)

Lemma sentence_mark_mine_twice (c : Cell) (s : Sentence) :
  Sentence_.mark_mine c (Sentence_.mark_mine c s) = Sentence_.mark_mine c s.
Proof. apply mark_mine_absent. rewrite cells_mark_mine. set_solver. Qed.

Lemma sentence_mark_safe_twice (c : Cell) (s : Sentence) :
  Sentence_.mark_safe c (Sentence_.mark_safe c s) = Sentence_.mark_safe c s.
Proof. apply mark_safe_absent. rewrite cells_mark_safe. set_solver. Qed.

(** X7. Marking a cell a second time changes nothing, neither in a sentence
    nor in the agent; and the first mark of a cell decides: a sentence from
    which the cell was taken as safe keeps its count when the cell is marked
    as a mine afterwards, and the other way round. *)
Theorem marking_twice (c : Cell) (st : Agent) (s : Sentence) :
  mark_mine c (mark_mine c st) = mark_mine c st
  ∧ mark_safe c (mark_safe c st) = mark_safe c st
  ∧ Sentence_.mark_mine c (Sentence_.mark_safe c s) = Sentence_.mark_safe c s
  ∧ Sentence_.mark_safe c (Sentence_.mark_mine c s) = Sentence_.mark_mine c s.
Proof.
  split_and!.
  - unfold mark_mine. simpl. f_equal; [set_solver|].
    rewrite <- list_fmap_compose. apply list_fmap_ext. intros _ s' _. simpl.
    apply sentence_mark_mine_twice.
  - unfold mark_safe. simpl. f_equal; [set_solver|].
    rewrite <- list_fmap_compose. apply list_fmap_ext. intros _ s' _. simpl.
    apply sentence_mark_safe_twice.
  - apply mark_mine_absent. rewrite cells_mark_safe. set_solver.
  - apply mark_safe_absent. rewrite cells_mark_mine. set_solver.
Qed.

(** X8. The marking loops do not depend on the order in which Python
    iterates the set of cells to mark: two orders of the same set leave the
    same agent. *)
Theorem marking_order_irrelevant
    (X : gset Cell) (order order' : list Cell) (st : Agent) :
  iterates X order → iterates X order' →
  mark_mines order st = mark_mines order' st
  ∧ mark_safes order st = mark_safes order' st.
Proof.
  unfold iterates. intros H H'.
  assert (order ≡ₚ order') as Hp by (by rewrite H, H').
  split; [by apply mark_mines_Permutation|by apply mark_safes_Permutation].
Qed.

Lemma marking_order_irrelevant_witness :
  mark_mines [(0, 0); (0, 1)] corner_one
  = mark_mines [(0, 1); (0, 0)] corner_one
  ∧ mark_safes [(0, 0); (0, 1)] corner_one
    = mark_safes [(0, 1); (0, 0)] corner_one.
Proof.
  apply (marking_order_irrelevant {[(0, 0); (0, 1)]}).
  - unfold iterates. vm_compute. apply perm_swap.
  - unfold iterates. vm_compute. reflexivity.
Defined.

(** ** Marking a list of cells at once *)

Lemma sentence_mark_mine_difference (c : Cell) (L : gset Cell) (s : Sentence) :
  {| cells := cells (Sentence_.mark_mine c s) ∖ L;
     count := count (Sentence_.mark_mine c s)
              - len (cells (Sentence_.mark_mine c s) ∩ L) |}
  = {| cells := cells s ∖ ({[c]} ∪ L);
       count := count s - len (cells s ∩ ({[c]} ∪ L)) |}.
Proof.
  unfold Sentence_.mark_mine. case_bool_decide as Hc; simpl.
  - f_equal; [set_solver|].
    assert (cells s ∩ ({[c]} ∪ L) = {[c]} ∪ (cells s ∖ {[c]}) ∩ L) as ->.
    { apply set_eq. intros x. destruct (decide (x = c)) as [->|]; set_solver. }
    unfold len.
    rewrite (size_union {[c]} ((cells s ∖ {[c]}) ∩ L)) by set_solver.
    rewrite size_singleton. lia.
  - f_equal; [set_solver|]. do 2 f_equal. set_solver.
Qed.

(** X9. Marking the cells of a list [l] as mines adds them to the known
    mines and takes them out of every sentence, whose count goes down by the
    number of its cells that are in [l]; marking them as safe adds them to
    the known safe cells and takes them out of every sentence, whose count
    stays. *)
Theorem marking_closed_form (l : list Cell) (st : Agent) :
  mines (mark_mines l st) = list_to_set l ∪ mines st
  ∧ knowledge (mark_mines l st)
    = (λ s, {| cells := cells s ∖ list_to_set l;
               count := count s - len (cells s ∩ list_to_set l) |})
      <$> knowledge st
  ∧ safes (mark_safes l st) = list_to_set l ∪ safes st
  ∧ knowledge (mark_safes l st)
    = (λ s, {| cells := cells s ∖ list_to_set l; count := count s |})
      <$> knowledge st.
Proof.
  split_and!.
  - by destruct (mark_mines_fields l st) as (_ & _ & _ & -> & _).
  - revert st. induction l as [|c l IH]; intros st.
    + simpl. rewrite <- (list_fmap_id (knowledge st)) at 1.
      apply list_fmap_ext. intros _ [X k] _. simpl. f_equal; [set_solver|].
      assert (X ∩ ∅ = (∅ : gset Cell)) as -> by set_solver.
      unfold len. rewrite size_empty. lia.
    + simpl. rewrite IH. simpl. rewrite <- list_fmap_compose.
      apply list_fmap_ext. intros _ s _. simpl.
      apply sentence_mark_mine_difference.
  - by destruct (mark_safes_fields l st) as (_ & _ & _ & _ & -> & _).
  - revert st. induction l as [|c l IH]; intros st.
    + simpl. rewrite <- (list_fmap_id (knowledge st)) at 1.
      apply list_fmap_ext. intros _ [X k] _. simpl. f_equal. set_solver.
    + simpl. rewrite IH. simpl. rewrite <- list_fmap_compose.
      apply list_fmap_ext. intros _ s _. simpl.
      unfold Sentence_.mark_safe. case_bool_decide; simpl; f_equal; set_solver.
Qed.

(** ** Neighbours *)

(** The two loops over the offsets, unrolled. *)
Lemma neighbors_unfold (h w : Z) (cell : Cell) :
  neighbors h w cell =
    [(-1, -1); (-1, 0); (-1, 1); (0, -1); (0, 1); (1, -1); (1, 0); (1, 1)]
    ≫= (λ d : Z * Z, if in_bounds h w (cell.1 + d.1, cell.2 + d.2)
                     then [(cell.1 + d.1, cell.2 + d.2)] else []).
Proof.
  unfold neighbors, offsets. cbn.
  rewrite !(bool_decide_eq_false_2 (-1 = 0)) by done.
  rewrite !(bool_decide_eq_false_2 (1 = 0)) by done.
  rewrite !(bool_decide_eq_true_2 (0 = 0)) by done.
  cbn [andb]. by rewrite !app_nil_r, <- !app_assoc.
Qed.

Lemma length_neighbors (h w : Z) (cell : Cell) :
  (length (neighbors h w cell) ≤ 8)%nat.
Proof.
  rewrite neighbors_unfold. cbn.
  repeat match goal with
         | |- context [in_bounds ?a ?b ?c] => destruct (in_bounds a b c)
         end; simpl; lia.
Qed.

Lemma length_neighbors_interior (h w : Z) (cell : Cell) :
  0 < cell.1 < h - 1 → 0 < cell.2 < w - 1 →
  length (neighbors h w cell) = 8%nat.
Proof.
  intros Hi Hj. rewrite neighbors_unfold. cbn.
  rewrite !(proj2 (in_bounds_spec h w _)) by (simpl; lia). done.
Qed.

(** X10. The neighbours that [add_knowledge] computes are the cells of the
    grid within one row and one column of the cell, the cell itself left
    out; no cell is listed twice; there are at most 8 of them, and 8 for a
    cell that is not on the border; and a cell of the grid is a neighbour of
    each of its neighbours. *)
Theorem neighbors_spec (h w : Z) (cell : Cell) :
  (∀ c, c ∈ neighbors h w cell ↔
        c ≠ cell ∧ cell.1 - 1 <= c.1 <= cell.1 + 1
        ∧ cell.2 - 1 <= c.2 <= cell.2 + 1 ∧ in_bounds h w c = true)
  ∧ NoDup (neighbors h w cell)
  ∧ (length (neighbors h w cell) ≤ 8)%nat
  ∧ (0 < cell.1 < h - 1 → 0 < cell.2 < w - 1 →
     length (neighbors h w cell) = 8%nat)
  ∧ (∀ c, in_bounds h w cell = true → c ∈ neighbors h w cell →
          cell ∈ neighbors h w c).
Proof.
  split_and!.
  - intros c. apply elem_of_neighbors.
  - apply NoDup_neighbors.
  - apply length_neighbors.
  - apply length_neighbors_interior.
  - intros c Hb Hc. apply elem_of_neighbors in Hc as (Hne & Hi & Hj & _).
    apply elem_of_neighbors. split_and!; first [done | lia | congruence].
Qed.

Lemma neighbors_spec_witness : length (neighbors 4 4 (1, 2)) = 8%nat.
Proof.
  apply (proj1 (proj2 (proj2 (proj2 (neighbors_spec 4 4 (1, 2))))));
    simpl; lia.
Defined.

(** ** The clue *)

(** X11. The clue that the board computes for a cell is the number of mines
    among the neighbours that the agent computes for it, whether the cell
    itself is a mine or not; it lies between 0 and 8. *)
Theorem clue_counts_mined_neighbors (g : Minesweeper.t) (cell : Cell) :
  Minesweeper.nearby_mines g cell
  = Z.of_nat (length (filter (λ c, Minesweeper.is_mine g c = true)
       (neighbors (Minesweeper.height g) (Minesweeper.width g) cell)))
  ∧ 0 <= Minesweeper.nearby_mines g cell <= 8.
Proof.
  assert (Minesweeper.nearby_mines g cell
    = Z.of_nat (length (filter (λ c, Minesweeper.is_mine g c = true)
         (neighbors (Minesweeper.height g) (Minesweeper.width g) cell))))
    as E.
  { rewrite nearby_mines_neighbors. unfold len. f_equal.
    rewrite <- (size_list_to_set (C := gset Cell))
      by apply NoDup_filter, NoDup_neighbors.
    f_equal. apply set_eq. intros c.
    rewrite elem_of_intersection, !elem_of_list_to_set, list_elem_of_filter.
    unfold Minesweeper.is_mine, Minesweeper.board.
    rewrite bool_decide_eq_true. tauto. }
  split; [done|]. rewrite E.
  pose proof (length_filter (λ c, Minesweeper.is_mine g c = true)
    (neighbors (Minesweeper.height g) (Minesweeper.width g) cell)).
  pose proof (length_neighbors (Minesweeper.height g) (Minesweeper.width g)
                cell).
  lia.
Qed.

(** ** The sentence of an observation *)

Lemma filter_ext_elem {A} (P Q : A → Prop)
    `{∀ x, Decision (P x)} `{∀ x, Decision (Q x)} (l : list A) :
  (∀ x, x ∈ l → P x ↔ Q x) → filter P l = filter Q l.
Proof.
  induction l as [|x l IH]; intros Hl; [done|].
  rewrite !filter_cons.
  rewrite IH by (intros y Hy; apply Hl; by right).
  pose proof (Hl x (list_elem_of_here _ _)) as Hx.
  destruct (decide (P x)), (decide (Q x)); tauto.
Qed.

(** X12. The observation of a cell with a clue records the cell as opened
    and safe, takes it out of every sentence, and appends one sentence
    unless every neighbour is resolved: its cells are the neighbours that
    are neither opened, nor known safe, nor known mines, and its count is
    the clue less the number of neighbours that are known mines and neither
    opened nor known safe. When every neighbour is resolved nothing is
    appended. *)
Theorem observe_spec (cell : Cell) (clue : Z) (st : Agent) :
  moves_made (observe cell clue st) = {[cell]} ∪ moves_made st
  ∧ safes (observe cell clue st) = {[cell]} ∪ safes st
  ∧ mines (observe cell clue st) = mines st
  ∧ knowledge (observe cell clue st)
    = (Sentence_.mark_safe cell <$> knowledge st)
      ++ match filter (λ n, (n ∉ moves_made st) ∧ (n ∉ safes st)
                            ∧ (n ∉ mines st))
                 (neighbors (height st) (width st) cell) with
         | [] => []
         | unknown =>
             [ {| cells := list_to_set unknown;
                  count := clue
                    - Z.of_nat (length
                        (filter (λ n, (n ∉ moves_made st) ∧ (n ∉ safes st)
                                      ∧ n ∈ mines st)
                           (neighbors (height st) (width st) cell))) |} ]
         end.
Proof.
  destruct (observe_fields cell clue st) as (_ & _ & Em & Ek & Es).
  split_and!; try done.
  unfold observe. rewrite filter_neighbors_spec. simpl.
  assert (∀ n, n ∈ neighbors (height st) (width st) cell → n ≠ cell) as Hn.
  { intros n Hin. apply elem_of_neighbors in Hin. tauto. }
  rewrite (filter_ext_elem
             (λ n, (n ∉ {[cell]} ∪ moves_made st)
                   ∧ (n ∉ {[cell]} ∪ safes st) ∧ (n ∉ mines st))
             (λ n, (n ∉ moves_made st) ∧ (n ∉ safes st) ∧ (n ∉ mines st)))
    by (intros n Hin; apply Hn in Hin; set_solver).
  rewrite (filter_ext_elem
             (λ n, (n ∉ {[cell]} ∪ moves_made st)
                   ∧ (n ∉ {[cell]} ∪ safes st) ∧ n ∈ mines st)
             (λ n, (n ∉ moves_made st) ∧ (n ∉ safes st) ∧ n ∈ mines st))
    by (intros n Hin; apply Hn in Hin; set_solver).
  destruct (filter _ _) as [|n0 unknown]; simpl; [|done].
  by rewrite app_nil_r.
Qed.

(** ** The board of rows *)

Lemma foldl_snoc_replicate {A B} (x : A) (l : list B) (acc : list A) :
  foldl (λ acc _, acc ++ [x]) acc l = acc ++ replicate (length l) x.
Proof.
  revert acc. induction l as [|y l IH]; intros acc; simpl.
  - by rewrite app_nil_r.
  - rewrite IH, <- app_assoc. done.
Qed.

Lemma blank_replicate (h w : Z) :
  Board.blank h w = replicate (Z.to_nat h) (replicate (Z.to_nat w) false).
Proof.
  unfold Board.blank.
  rewrite (foldl_snoc_replicate false (seqZ 0 w) []), length_seqZ. simpl.
  rewrite (foldl_snoc_replicate (replicate (Z.to_nat w) false) (seqZ 0 h) []).
  by rewrite length_seqZ.
Qed.

Lemma rows_of_blank (h w : Z) : rows_of h w (Board.blank h w) ∅.
Proof.
  rewrite blank_replicate. split_and!.
  - apply length_replicate.
  - intros i row Hi. apply lookup_replicate in Hi as [-> _].
    apply length_replicate.
  - intros i j row x Hi Hj. apply lookup_replicate in Hi as [-> _].
    apply lookup_replicate in Hj as [-> _].
    by rewrite bool_decide_eq_false_2 by set_solver.
  - intros c Hc. set_solver.
Qed.

Lemma index_nonneg {A} (l : list A) (i : Z) :
  0 <= i → Board.index l i = l !! Z.to_nat i.
Proof. intros H. unfold Board.index. by rewrite bool_decide_eq_true_2. Qed.

Lemma assign_in_range {A} (l : list A) (i : Z) (x : A) :
  0 <= i < Z.of_nat (length l) →
  Board.assign l i x = Some (<[Z.to_nat i := x]> l).
Proof. intros H. unfold Board.assign. by rewrite bool_decide_eq_true_2. Qed.

Lemma randrange_Some (n : Z) (draw : nat) (k : Z) :
  Board.randrange n draw = Some k → 0 <= k < n.
Proof.
  unfold Board.randrange. case_bool_decide; [|done]. intros [= <-].
  by apply Z.mod_pos_bound.
Qed.

(** A cell of the grid is read without error, and it is [true] exactly for
    the cells placed. *)
Lemma rows_of_lookup (h w : Z) (board : list (list bool)) (placed : gset Cell)
    (i j : Z) :
  rows_of h w board placed → 0 <= i < h → 0 <= j < w →
  ∃ row, board !! Z.to_nat i = Some row
         ∧ length row = Z.to_nat w
         ∧ row !! Z.to_nat j = Some (bool_decide ((i, j) ∈ placed)).
Proof.
  intros (Hl & Hr & Hx & _) Hi Hj.
  destruct (lookup_lt_is_Some_2 board (Z.to_nat i)) as [row Hrow]; [lia|].
  exists row. split; [done|]. pose proof (Hr _ _ Hrow) as Hlen.
  split; [done|].
  destruct (lookup_lt_is_Some_2 row (Z.to_nat j)) as [x Hxj]; [lia|].
  rewrite Hxj. f_equal. rewrite (Hx _ _ _ _ Hrow Hxj).
  by rewrite !Z2Nat.id by lia.
Qed.

(** Placing a mine on a free cell of the grid keeps the rows in step with
    the set. *)
Lemma rows_of_place (h w : Z) (board : list (list bool)) (placed : gset Cell)
    (i j : Z) (row : list bool) :
  rows_of h w board placed → 0 <= i < h → 0 <= j < w →
  board !! Z.to_nat i = Some row →
  rows_of h w (<[Z.to_nat i := <[Z.to_nat j := true]> row]> board)
          ({[(i, j)]} ∪ placed).
Proof.
  intros (Hl & Hr & Hx & Hg) Hi Hj Hrow. split_and!.
  - by rewrite length_insert.
  - intros i' row' Hi'.
    destruct (decide (i' = Z.to_nat i)) as [->|Hne].
    + rewrite list_lookup_insert_eq in Hi' by lia. injection Hi' as <-.
      rewrite length_insert. by apply (Hr _ _ Hrow).
    + rewrite list_lookup_insert_ne in Hi' by done. by apply (Hr _ _ Hi').
  - intros i' j' row' x Hi' Hj'.
    assert (∀ y : bool, (Z.of_nat i', Z.of_nat j') ≠ (i, j) →
              y = bool_decide ((Z.of_nat i', Z.of_nat j') ∈ placed) →
              y = bool_decide ((Z.of_nat i', Z.of_nat j')
                               ∈ ({[(i, j)]} ∪ placed : gset Cell))) as Hkeep.
    { intros y Hne ->. apply bool_decide_ext. set_solver. }
    destruct (decide (i' = Z.to_nat i)) as [->|Hne].
    + rewrite list_lookup_insert_eq in Hi' by lia. injection Hi' as <-.
      pose proof (Hr _ _ Hrow) as Hlen.
      destruct (decide (j' = Z.to_nat j)) as [->|Hne'].
      * rewrite list_lookup_insert_eq in Hj' by lia. injection Hj' as <-.
        rewrite !Z2Nat.id by lia. symmetry. apply bool_decide_eq_true.
        set_solver.
      * rewrite list_lookup_insert_ne in Hj' by done.
        apply Hkeep; [|by apply (Hx _ _ _ _ Hrow Hj')].
        intros [= _ E]. lia.
    + rewrite list_lookup_insert_ne in Hi' by done.
      apply Hkeep; [|by apply (Hx _ _ _ _ Hi' Hj')].
      intros [= E _]. lia.
  - intros c Hc. apply elem_of_union in Hc as [Hc|Hc]; [|by apply Hg].
    apply elem_of_singleton in Hc as ->. apply in_bounds_spec. simpl. lia.
Qed.

(** What one iteration of the placing loop does, when the grid is not
    empty. *)
Lemma place_step (h w target : Z) (di dj : nat) (draws : list (nat * nat))
    (board : list (list bool)) (placed : gset Cell) :
  rows_of h w board placed → len placed ≠ target → 0 < h → 0 < w →
  ∃ board' placed',
    rows_of h w board' placed'
    ∧ Board.place h w target ((di, dj) :: draws) board placed
      = Board.place h w target draws board' placed'.
Proof.
  intros Hrows Hne Hh Hw. simpl.
  rewrite (bool_decide_eq_true_2 _ Hne).
  unfold Board.randrange. rewrite !bool_decide_eq_true_2 by done.
  set (i := Z.of_nat di `mod` h). set (j := Z.of_nat dj `mod` w).
  assert (0 <= i < h) as Hi by (by apply Z.mod_pos_bound).
  assert (0 <= j < w) as Hj by (by apply Z.mod_pos_bound).
  destruct (rows_of_lookup h w board placed i j Hrows Hi Hj)
    as (row & Hrow & Hlen & Hx).
  rewrite index_nonneg, Hrow by lia. rewrite index_nonneg, Hx by lia.
  destruct (bool_decide ((i, j) ∈ placed)).
  - exists board, placed. done.
  - rewrite assign_in_range by lia.
    rewrite assign_in_range by (destruct Hrows as (-> & _); lia).
    eexists _, _. split; [|done]. by apply rows_of_place.
Qed.

Lemma length_bind_const {A B} (f : A → list B) (k : nat) (l : list A) :
  (∀ x, length (f x) = k) → length (l ≫= f) = (length l * k)%nat.
Proof.
  intros Hf. induction l as [|x l IH]; [done|].
  rewrite bind_cons, length_app, IH, Hf. done.
Qed.

Lemma length_grid_cells (h w : Z) :
  length (grid_cells h w) = (Z.to_nat h * Z.to_nat w)%nat.
Proof.
  unfold grid_cells. rewrite (length_bind_const _ (Z.to_nat w)).
  - by rewrite length_seqZ.
  - intros i. rewrite (length_bind_const _ 1%nat) by done.
    rewrite length_seqZ. lia.
Qed.

Lemma elem_of_grid_cells (h w : Z) (c : Cell) :
  c ∈ grid_cells h w ↔ in_bounds h w c = true.
Proof.
  unfold grid_cells. rewrite in_bounds_spec, list_elem_of_bind. split.
  - intros (i & Hin & Hi). apply list_elem_of_bind in Hin as (j & Hin & Hj).
    apply list_elem_of_singleton in Hin as ->.
    apply elem_of_seqZ in Hi, Hj. simpl. lia.
  - intros [Hi Hj]. exists c.1. split; [|apply elem_of_seqZ; lia].
    apply list_elem_of_bind. exists c.2. split; [|apply elem_of_seqZ; lia].
    apply list_elem_of_singleton. by destruct c.
Qed.

Lemma size_list_to_set_le (l : list Cell) :
  (size (list_to_set l : gset Cell) ≤ length l)%nat.
Proof.
  induction l as [|c l IH].
  { rewrite list_to_set_nil, (size_empty (C := gset Cell)). simpl. lia. }
  rewrite list_to_set_cons. cbn [length].
  rewrite (size_union_alt {[c]} (list_to_set l : gset Cell)), size_singleton.
  pose proof (subseteq_size ((list_to_set l : gset Cell) ∖ {[c]})
                (list_to_set l)) as H.
  assert ((list_to_set l : gset Cell) ∖ {[c]} ⊆ list_to_set l) as Hsub
    by set_solver.
  apply H in Hsub. lia.
Qed.

(** No more mines than cells. *)
Lemma rows_of_size (h w : Z) (board : list (list bool)) (placed : gset Cell) :
  rows_of h w board placed →
  0 <= len placed <= Z.of_nat (Z.to_nat h * Z.to_nat w).
Proof.
  intros (_ & _ & _ & Hg). unfold len. split; [lia|].
  rewrite <- length_grid_cells.
  assert (placed ⊆ list_to_set (grid_cells h w)) as Hsub.
  { intros c Hc. apply elem_of_list_to_set, elem_of_grid_cells. by apply Hg. }
  apply subseteq_size in Hsub.
  pose proof (size_list_to_set_le (grid_cells h w)). lia.
Qed.

Lemma place_done (h w target : Z) (draws : list (nat * nat))
    (board : list (list bool)) (placed : gset Cell) :
  len placed = target →
  Board.place h w target draws board placed = Board.Returns (board, placed).
Proof.
  intros H. destruct draws as [|[di dj] draws]; simpl;
    by rewrite bool_decide_eq_false_2 by (intros Hn; by apply Hn).
Qed.

Lemma place_starves (h w target : Z)
    (board : list (list bool)) (placed : gset Cell) :
  len placed ≠ target →
  Board.place h w target [] board placed = Board.Starves.
Proof. intros H. simpl. by rewrite bool_decide_eq_true_2. Qed.

Lemma place_value_error (h w target : Z) (di dj : nat)
    (draws : list (nat * nat)) (board : list (list bool)) (placed : gset Cell) :
  len placed ≠ target → h <= 0 ∨ w <= 0 →
  Board.place h w target ((di, dj) :: draws) board placed
  = Board.Raises Board.ValueError.
Proof.
  intros Hne Hhw. simpl. rewrite (bool_decide_eq_true_2 _ Hne).
  unfold Board.randrange.
  destruct (decide (0 < h)) as [Hh|Hh].
  - rewrite (bool_decide_eq_true_2 (0 < h)) by done.
    rewrite (bool_decide_eq_false_2 (0 < w)) by lia. done.
  - by rewrite (bool_decide_eq_false_2 (0 < h)) by done.
Qed.

(** The placing loop, started on rows in step with the set, returns rows in
    step with the set and as many mines as asked for, or raises
    [ValueError], or asks for more draws. *)
Lemma place_outcome (h w target : Z) (draws : list (nat * nat))
    (board : list (list bool)) (placed : gset Cell) :
  rows_of h w board placed →
  match Board.place h w target draws board placed with
  | Board.Returns (board', placed') =>
      rows_of h w board' placed' ∧ len placed' = target
  | Board.Raises e => e = Board.ValueError ∧ (h <= 0 ∨ w <= 0)
  | Board.Starves => True
  end.
Proof.
  revert board placed. induction draws as [|[di dj] draws IH];
    intros board placed Hrows.
  - destruct (decide (len placed = target)) as [He|Hne].
    + by rewrite place_done.
    + by rewrite place_starves.
  - destruct (decide (len placed = target)) as [He|Hne].
    { by rewrite place_done. }
    destruct (decide (0 < h ∧ 0 < w)) as [[Hh Hw]|Hhw].
    + destruct (place_step h w target di dj draws board placed Hrows Hne Hh Hw)
        as (board' & placed' & Hrows' & ->).
      by apply IH.
    + rewrite place_value_error by (done || lia). split; [done|lia].
Qed.

(** X15. When the constructor returns, the game has the height and width
    asked for, exactly as many mines as asked for, all on the grid, and no
    mine found yet; the board is [height] rows of [width] cells, and for a
    cell of the grid [is_mine] returns whether the cell is in the set of
    mines. *)
Theorem new_board_spec
    (h w m : Z) (draws : list (nat * nat)) (g : Board.t) :
  Board.new h w m draws = Board.Returns g →
  Board.height g = h ∧ Board.width g = w
  ∧ len (Board.mines g) = m
  ∧ Board.mines_found g = ∅
  ∧ (∀ c, c ∈ Board.mines g → in_bounds h w c = true)
  ∧ length (Board.board g) = Z.to_nat h
  ∧ Forall (λ row, length row = Z.to_nat w) (Board.board g)
  ∧ (∀ c, in_bounds h w c = true →
       Board.is_mine g c = Board.Returns (bool_decide (c ∈ Board.mines g))).
Proof.
  unfold Board.new. intros H.
  pose proof (place_outcome h w m draws (Board.blank h w) ∅
                (rows_of_blank h w)) as Ho.
  destruct (Board.place h w m draws (Board.blank h w) ∅)
    as [[board placed]|e|]; [|done|done].
  injection H as <-. simpl. destruct Ho as [Hrows Hm].
  pose proof Hrows as (Hl & Hr & Hx & Hg).
  split_and!; try done.
  - apply Forall_forall. intros row Hin.
    apply list_elem_of_lookup in Hin as [i Hi]. by apply (Hr i).
  - intros [i j] Hb. apply in_bounds_spec in Hb. simpl in Hb.
    destruct (rows_of_lookup h w board placed i j Hrows) as (row & Hrow & _ & Hj);
      [lia|lia|].
    unfold Board.is_mine. simpl.
    rewrite index_nonneg, Hrow by lia. by rewrite index_nonneg, Hj by lia.
Qed.

Lemma new_board_two_mines :
  Board.new 2 3 2 [(0, 0); (3, 4)]%nat = Board.Returns two_mines.
Proof. by vm_compute. Qed.

Lemma new_board_spec_witness : len (Board.mines two_mines) = 2.
Proof.
  apply (proj1 (proj2 (proj2
           (new_board_spec 2 3 2 [(0, 0); (3, 4)]%nat two_mines
              new_board_two_mines)))).
Defined.

(** X16. The edges of the constructor. Asked for no mines it returns at
    once, without a draw, whatever the height and width, and the game is
    won from the start; asked for mines on a grid without rows or without
    columns it raises [ValueError] at the first draw; asked for a negative
    number of mines, or for more mines than the grid has cells, it never
    returns, whatever is drawn; it never raises [IndexError]; and a game it
    returns is won from the start only if it was asked for no mines. *)
Theorem new_board_edges (h w m : Z) (draws : list (nat * nat)) :
  (m = 0 →
     ∃ g, Board.new h w m draws = Board.Returns g
          ∧ Board.mines g = ∅ ∧ Board.won g = true)
  ∧ (m ≠ 0 → h <= 0 ∨ w <= 0 → draws ≠ [] →
       Board.new h w m draws = Board.Raises Board.ValueError)
  ∧ (m < 0 ∨ (0 <= h ∧ 0 <= w ∧ h * w < m) →
       ∀ g, Board.new h w m draws ≠ Board.Returns g)
  ∧ Board.new h w m draws ≠ Board.Raises Board.IndexError
  ∧ (∀ g, Board.new h w m draws = Board.Returns g →
          Board.won g = true → m = 0).
Proof.
  pose proof (place_outcome h w m draws (Board.blank h w) ∅
                (rows_of_blank h w)) as Ho.
  unfold Board.new. split_and!.
  - intros ->. rewrite place_done by done. eexists. split; [done|]. done.
  - intros Hm Hhw Hd. destruct draws as [|[di dj] draws]; [done|].
    by rewrite place_value_error.
  - intros Hbad g.
    destruct (Board.place h w m draws (Board.blank h w) ∅)
      as [[board placed]|e|]; [|done|done].
    destruct Ho as [Hrows Hm]. apply rows_of_size in Hrows.
    rewrite Nat2Z.inj_mul in Hrows. nia.
  - destruct (Board.place h w m draws (Board.blank h w) ∅)
      as [[board placed]|e|]; [done| |done].
    destruct Ho as [-> _]. done.
  - intros g.
    destruct (Board.place h w m draws (Board.blank h w) ∅)
      as [[board placed]|e|]; [|done|done].
    destruct Ho as [_ Hm]. intros [= <-]. unfold Board.won. simpl.
    intros Hw. apply bool_decide_eq_true in Hw. rewrite <- Hw in Hm.
    rewrite <- Hm. done.
Qed.

Lemma new_board_edges_witness :
  Board.new 2 3 7 [(0, 0); (3, 4)]%nat ≠ Board.Returns two_mines.
Proof.
  apply (proj1 (proj2 (proj2 (new_board_edges 2 3 7 [(0, 0); (3, 4)]%nat)))).
  right. lia.
Defined.

(** ** Reading the board *)

Lemma index_wraps {A} (l : list A) (i : Z) :
  - Z.of_nat (length l) <= i < 0 →
  Board.index l i = Board.index l (Z.of_nat (length l) + i).
Proof.
  intros H. unfold Board.index.
  rewrite (bool_decide_eq_false_2 (0 <= i)) by lia.
  rewrite (bool_decide_eq_true_2 (- Z.of_nat (length l) <= i)) by lia.
  by rewrite (bool_decide_eq_true_2 (0 <= Z.of_nat (length l) + i)) by lia.
Qed.

Lemma index_out_of_range {A} (l : list A) (i : Z) :
  Z.of_nat (length l) <= i ∨ i < - Z.of_nat (length l) →
  Board.index l i = None.
Proof.
  intros [H|H]; unfold Board.index.
  - rewrite bool_decide_eq_true_2 by lia. apply lookup_ge_None_2. lia.
  - rewrite !bool_decide_eq_false_2 by lia. done.
Qed.

(** X17. How [is_mine] reads a game that the constructor returned: a row
    index or a column index beyond the grid, or below minus the height or
    minus the width, raises [IndexError]; a negative index above that bound
    is counted from the end, so that the cell read is the one a height
    further down or a width further right. Nothing else is raised. *)
Theorem is_mine_indexing
    (h w m : Z) (draws : list (nat * nat)) (g : Board.t) (c : Cell) :
  Board.new h w m draws = Board.Returns g →
  (h <= c.1 ∨ c.1 < - h → Board.is_mine g c = Board.Raises Board.IndexError)
  ∧ (- h <= c.1 < h → w <= c.2 ∨ c.2 < - w →
       Board.is_mine g c = Board.Raises Board.IndexError)
  ∧ (- h <= c.1 < 0 → Board.is_mine g c = Board.is_mine g (c.1 + h, c.2))
  ∧ (0 <= c.1 < h → - w <= c.2 < 0 →
       Board.is_mine g c = Board.is_mine g (c.1, c.2 + w))
  ∧ Board.is_mine g c ≠ Board.Raises Board.ValueError
  ∧ Board.is_mine g c ≠ Board.Starves.
Proof.
  intros Hnew.
  destruct (new_board_spec h w m draws g Hnew)
    as (_ & _ & _ & _ & _ & Hl & Hr & _).
  rewrite Forall_forall in Hr. unfold Board.is_mine.
  assert (∀ i row, Board.index (Board.board g) i = Some row →
                   length row = Z.to_nat w) as Hrow.
  { intros i row Hi. apply Hr. unfold Board.index in Hi.
    repeat case_bool_decide; try done; by eapply list_elem_of_lookup_2. }
  split_and!.
  - intros Hc. rewrite index_out_of_range by lia. done.
  - intros Hi Hj.
    destruct (Board.index (Board.board g) c.1) as [row|] eqn:E; [|done].
    rewrite index_out_of_range; [done|]. rewrite (Hrow _ _ E). lia.
  - intros Hi. simpl. rewrite index_wraps by lia.
    by replace (Z.of_nat (length (Board.board g)) + c.1) with (c.1 + h) by lia.
  - intros Hi Hj. simpl.
    destruct (Board.index (Board.board g) c.1) as [row|] eqn:E; [|done].
    rewrite index_wraps by (rewrite (Hrow _ _ E); lia).
    rewrite (Hrow _ _ E).
    by replace (Z.of_nat (Z.to_nat w) + c.2) with (c.2 + w) by lia.
  - by repeat case_match.
  - by repeat case_match.
Qed.

Lemma is_mine_indexing_witness :
  Board.is_mine two_mines (-1, 1) = Board.is_mine two_mines (-1 + 2, 1).
Proof.
  apply (proj1 (proj2 (proj2
           (is_mine_indexing 2 3 2 [(0, 0); (3, 4)]%nat two_mines (-1, 1)
              new_board_two_mines)))).
  simpl. lia.
Defined.

(** ** The clue on the board of rows *)

Lemma nearby_mines_rows_loop
    (g : Board.t) (cell : Cell) (l : list Cell) (a : Z) :
  (∀ c, in_bounds (Board.height g) (Board.width g) c = true →
        Board.is_mine g c = Board.Returns (bool_decide (c ∈ Board.mines g))) →
  foldl (λ acc c,
           match acc with
           | Board.Returns count =>
               if bool_decide (c = cell) then Board.Returns count
               else if in_bounds (Board.height g) (Board.width g) c
                    then match Board.is_mine g c with
                         | Board.Returns true => Board.Returns (count + 1)
                         | Board.Returns false => Board.Returns count
                         | Board.Raises e => Board.Raises e
                         | Board.Starves => Board.Starves
                         end
                    else Board.Returns count
           | _ => acc
           end) (Board.Returns a) l
  = Board.Returns
      (foldl (λ count c,
                if bool_decide (c = cell) then count
                else if in_bounds (Board.height g) (Board.width g) c
                     then (if Minesweeper.board (Board.to_game g) c
                           then count + 1 else count)
                     else count) a l).
Proof.
  intros Hm. revert a. induction l as [|c l IH]; intros a; [done|].
  cbn [foldl]. case_bool_decide; [apply IH|].
  destruct (in_bounds _ _ c) eqn:Eb; [|apply IH].
  rewrite (Hm c Eb). unfold Minesweeper.board. simpl.
  destruct (bool_decide (c ∈ Board.mines g)); apply IH.
Qed.

(** X18. On a game that the constructor returned [nearby_mines] raises
    nothing, for any cell, on the grid or not: the bounds check keeps every
    read of the board inside it; and what it returns is the count on the
    grid and the set of mines of the game. *)
Theorem nearby_mines_on_rows
    (h w m : Z) (draws : list (nat * nat)) (g : Board.t) (cell : Cell) :
  Board.new h w m draws = Board.Returns g →
  Board.nearby_mines g cell
  = Board.Returns (Minesweeper.nearby_mines (Board.to_game g) cell).
Proof.
  intros Hnew.
  destruct (new_board_spec h w m draws g Hnew)
    as (Hh & Hw & _ & _ & _ & _ & _ & Hm).
  unfold Board.nearby_mines, Minesweeper.nearby_mines.
  apply nearby_mines_rows_loop. intros c. rewrite Hh, Hw. apply Hm.
Qed.

Lemma nearby_mines_on_rows_witness :
  Board.nearby_mines two_mines (0, 1)
  = Board.Returns (Minesweeper.nearby_mines (Board.to_game two_mines) (0, 1)).
Proof.
  apply (nearby_mines_on_rows 2 3 2 [(0, 0); (3, 4)]%nat).
  apply new_board_two_mines.
Defined.
